(** * Peer session negotiation engine of the SkillSwap frontend

    A shallow embedding of [src/lib/hooks/use-webrtc.ts] (the [useWebRTC] hook)
    and [src/lib/hooks/use-socket.ts] (the [useSocket] hook).

    The hooks keep their data in React refs and React state and talk to three
    outside objects: the browser's media devices, an [RTCPeerConnection] and a
    socket.io socket.  Here the refs, the React state and the outside objects
    are the fields of one record [World]; every hook function is a computation
    on it in a small state-and-exception monad [Js].  Each call made on an
    outside object, and each call of a callback supplied by the page, is
    appended to [trace], so that the order of the calls can be read back.

    In [step] and [run] a handler is not interrupted: every promise it awaits
    settles before the next event is delivered, so that each handler runs to
    its end before the next one starts.  React renders between two handlers;
    [rerender] is the effect that copies the audio and video flags of the
    state into [mediaEnabledRef].  The signaling handlers [handleOffer],
    [handleAnswer] and [handleIceCandidate] are given a second time with
    their [await]s as the points where another signal may come in (module
    [Interleaved]).

    The route guard of [src/middleware.ts] is a function of the path and of
    the cookie of a request; it comes after the hooks. *)

From stdpp Require Import base option list strings numbers.

(** ** Tracks, streams, descriptors, candidates *)

Inductive TrackKind := AudioKind | VideoKind.

#[global] Instance TrackKind_eq_dec : EqDecision TrackKind.
Proof. solve_decision. Defined.

(** A [MediaStreamTrack] reference: [kind] never changes, [track_no] is the
    address of the mutable part in [tracks]. *)
Record MediaStreamTrack := { kind : TrackKind; track_no : nat }.

#[global] Instance MediaStreamTrack_eq_dec : EqDecision MediaStreamTrack.
Proof. solve_decision. Defined.

(** The mutable part of a track: [track.enabled] and whether
    [track.readyState] is still "live" ([track.stop()] ends it). *)
Record TrackState := { enabled : bool; live : bool }.

(** A [MediaStream] is only ever built and read, never changed: its
    [getTracks()]. *)
Abbreviation MediaStream := (list MediaStreamTrack).
Definition RemoteStream := nat.

Definition getAudioTracks (s : MediaStream) : list MediaStreamTrack :=
  filter (λ t, kind t = AudioKind) s.
Definition getVideoTracks (s : MediaStream) : list MediaStreamTrack :=
  filter (λ t, kind t = VideoKind) s.

(** [RTCSessionDescriptionInit] and [RTCIceCandidateInit] are opaque. *)
Definition Descriptor := nat.
Definition Candidate := nat.

(** A JavaScript string: its UTF-16 code units. *)
Abbreviation JsString := (list N).

(** The part of an [RTCPeerConnection] the hook reads or changes: one sender
    per added track, the two descriptions, and the remote candidates the
    connection has accepted, oldest first. *)
Record RTCPeerConnection := {
  senders : list MediaStreamTrack;
  remoteDescription : option Descriptor;
  localDescription : option Descriptor;
  remoteCandidates : list Candidate
}.

Definition set_senders (v : list MediaStreamTrack) (p : RTCPeerConnection) :=
  Build_RTCPeerConnection v (remoteDescription p) (localDescription p)
    (remoteCandidates p).
Definition set_remoteDescription (v : option Descriptor)
    (p : RTCPeerConnection) :=
  Build_RTCPeerConnection (senders p) v (localDescription p)
    (remoteCandidates p).
Definition set_localDescription (v : option Descriptor)
    (p : RTCPeerConnection) :=
  Build_RTCPeerConnection (senders p) (remoteDescription p) v
    (remoteCandidates p).
Definition set_remoteCandidates (v : list Candidate) (p : RTCPeerConnection) :=
  Build_RTCPeerConnection (senders p) (remoteDescription p)
    (localDescription p) v.

(** ** Signaling payloads (use-socket.ts) *)

Record Peer := { userId : string; displayName : string }.

Record SessionJoinedData := {
  sj_sessionId : string; sj_participants : list string; sj_isInitiator : bool }.
Record OfferData := { offer : Descriptor; offer_from : Peer }.
Record AnswerData := { answer : Descriptor; answer_from : Peer }.
Record IceCandidateData := { candidate : Candidate; candidate_from : Peer }.
Record MediaStateData := { ms_audio : bool; ms_video : bool; ms_from : Peer }.
Record ChatMessageData := { cm_message : JsString; cm_from : Peer; cm_timestamp : string }.
Record SessionEndedData := { se_sessionId : string; endedBy : Peer }.

(** What [socket.emit] sends: event name and payload. *)
Inductive OutEvent :=
  | JoinSession (sessionId : string)
  | LeaveSession (sessionId : string)
  | EndSession (sessionId : string)
  | SendOffer (sessionId : string) (d : Descriptor)
  | SendAnswer (sessionId : string) (d : Descriptor)
  | SendIceCandidate (sessionId : string) (c : Candidate)
  | SendMediaState (sessionId : string) (audio video : bool)
  | SendChatMessage (sessionId : string) (message : JsString).

#[global] Instance OutEvent_eq_dec : EqDecision OutEvent.
Proof. solve_decision. Defined.

(** [RTCPeerConnectionState] *)
Inductive ConnectionState :=
  | StateNew | StateConnecting | StateConnected | StateDisconnected
  | StateFailed | StateClosed.

#[global] Instance ConnectionState_eq_dec : EqDecision ConnectionState.
Proof. solve_decision. Defined.

(** ** The trace of calls on outside objects *)

Inductive Effect :=
  | GetUserMedia
  | GetDisplayMedia
  | NewPeerConnection
  | AddTrack (t : MediaStreamTrack)
  | SetRemoteDescription (d : Descriptor)
  | AddIceCandidate (c : Candidate)
  | CreateOffer
  | CreateAnswer
  | SetLocalDescription (d : Descriptor)
  | ReplaceTrack (sender : nat) (t : MediaStreamTrack)
  | ClosePeerConnection
  | TrackStop (t : MediaStreamTrack)
  | SocketOpen
  | SocketDisconnect
  | Emit (e : OutEvent)
  | SetTimeout (delay : nat)
  | OnError (message : string)
  | OnSessionEnded (endedBy : string)
  | OnConnectionStateChange (s : ConnectionState).

#[global] Instance Effect_eq_dec : EqDecision Effect.
Proof. solve_decision. Defined.

(** ** React state of [useWebRTC] *)

Record WebRTCState := {
  localStream : option MediaStream;
  remoteStream : option RemoteStream;
  isAudioEnabled : bool;
  isVideoEnabled : bool;
  isScreenSharing : bool;
  connectionState : ConnectionState;
  isInitiator : bool;
  peerDisplayName : option string;
  peerMediaState : option (bool * bool)
}.

Record ChatMessage := {
  id : string;
  message : JsString;
  from : string;
  timestamp : string;
  isSelf : bool
}.

(** The two [setTimeout] callbacks of the hook. *)
Inductive Timer :=
  | RetryJoin            (* startSession: re-request join-session *)
  | OfferForJoinedUser.  (* handleUserJoined: create an offer *)

Inductive Socket := IoSocket.

(** ** The world: React state, refs, socket hook, browser *)

Record World := {
  (* useWebRTC: state *)
  state : WebRTCState;
  chatMessages : list ChatMessage;
  (* useWebRTC: refs *)
  peerConnectionRef : option RTCPeerConnection;
  localStreamRef : option MediaStream;
  cameraStreamRef : option MediaStream;
  screenStreamRef : option MediaStream;
  isInitiatorRef : bool;
  iceCandidatesQueueRef : list Candidate;
  hasRemoteDescriptionRef : bool;
  mediaEnabledRef : bool * bool;
  (* useSocket *)
  socketRef : option Socket;
  isConnected : bool;
  connectionError : option string;
  (* browser *)
  tracks : list TrackState;
  timers : list (nat * Timer);
  trace : list Effect
}.

Definition set_localStream (v : option MediaStream)
    (r : WebRTCState) : WebRTCState :=
  Build_WebRTCState v (remoteStream r) (isAudioEnabled r) (isVideoEnabled r)
    (isScreenSharing r) (connectionState r) (isInitiator r)
    (peerDisplayName r) (peerMediaState r).
Definition set_remoteStream (v : option RemoteStream)
    (r : WebRTCState) : WebRTCState :=
  Build_WebRTCState (localStream r) v (isAudioEnabled r) (isVideoEnabled r)
    (isScreenSharing r) (connectionState r) (isInitiator r)
    (peerDisplayName r) (peerMediaState r).
Definition set_isAudioEnabled (v : bool) (r : WebRTCState) : WebRTCState :=
  Build_WebRTCState (localStream r) (remoteStream r) v (isVideoEnabled r)
    (isScreenSharing r) (connectionState r) (isInitiator r)
    (peerDisplayName r) (peerMediaState r).
Definition set_isVideoEnabled (v : bool) (r : WebRTCState) : WebRTCState :=
  Build_WebRTCState (localStream r) (remoteStream r) (isAudioEnabled r) v
    (isScreenSharing r) (connectionState r) (isInitiator r)
    (peerDisplayName r) (peerMediaState r).
Definition set_isScreenSharing (v : bool) (r : WebRTCState) : WebRTCState :=
  Build_WebRTCState (localStream r) (remoteStream r) (isAudioEnabled r)
    (isVideoEnabled r) v (connectionState r) (isInitiator r)
    (peerDisplayName r) (peerMediaState r).
Definition set_connectionState (v : ConnectionState)
    (r : WebRTCState) : WebRTCState :=
  Build_WebRTCState (localStream r) (remoteStream r) (isAudioEnabled r)
    (isVideoEnabled r) (isScreenSharing r) v (isInitiator r)
    (peerDisplayName r) (peerMediaState r).
Definition set_isInitiator (v : bool) (r : WebRTCState) : WebRTCState :=
  Build_WebRTCState (localStream r) (remoteStream r) (isAudioEnabled r)
    (isVideoEnabled r) (isScreenSharing r) (connectionState r) v
    (peerDisplayName r) (peerMediaState r).
Definition set_peerDisplayName (v : option string)
    (r : WebRTCState) : WebRTCState :=
  Build_WebRTCState (localStream r) (remoteStream r) (isAudioEnabled r)
    (isVideoEnabled r) (isScreenSharing r) (connectionState r) (isInitiator r)
    v (peerMediaState r).
Definition set_peerMediaState (v : option (bool * bool))
    (r : WebRTCState) : WebRTCState :=
  Build_WebRTCState (localStream r) (remoteStream r) (isAudioEnabled r)
    (isVideoEnabled r) (isScreenSharing r) (connectionState r) (isInitiator r)
    (peerDisplayName r) v.

Definition set_state (v : WebRTCState) (r : World) : World :=
  Build_World v (chatMessages r) (peerConnectionRef r) (localStreamRef r)
    (cameraStreamRef r) (screenStreamRef r) (isInitiatorRef r)
    (iceCandidatesQueueRef r) (hasRemoteDescriptionRef r) (mediaEnabledRef r)
    (socketRef r) (isConnected r) (connectionError r) (tracks r) (timers r)
    (trace r).
Definition set_chatMessages (v : list ChatMessage) (r : World) : World :=
  Build_World (state r) v (peerConnectionRef r) (localStreamRef r)
    (cameraStreamRef r) (screenStreamRef r) (isInitiatorRef r)
    (iceCandidatesQueueRef r) (hasRemoteDescriptionRef r) (mediaEnabledRef r)
    (socketRef r) (isConnected r) (connectionError r) (tracks r) (timers r)
    (trace r).
Definition set_peerConnectionRef (v : option RTCPeerConnection)
    (r : World) : World :=
  Build_World (state r) (chatMessages r) v (localStreamRef r)
    (cameraStreamRef r) (screenStreamRef r) (isInitiatorRef r)
    (iceCandidatesQueueRef r) (hasRemoteDescriptionRef r) (mediaEnabledRef r)
    (socketRef r) (isConnected r) (connectionError r) (tracks r) (timers r)
    (trace r).
Definition set_localStreamRef (v : option MediaStream) (r : World) : World :=
  Build_World (state r) (chatMessages r) (peerConnectionRef r) v
    (cameraStreamRef r) (screenStreamRef r) (isInitiatorRef r)
    (iceCandidatesQueueRef r) (hasRemoteDescriptionRef r) (mediaEnabledRef r)
    (socketRef r) (isConnected r) (connectionError r) (tracks r) (timers r)
    (trace r).
Definition set_cameraStreamRef (v : option MediaStream) (r : World) : World :=
  Build_World (state r) (chatMessages r) (peerConnectionRef r)
    (localStreamRef r) v (screenStreamRef r) (isInitiatorRef r)
    (iceCandidatesQueueRef r) (hasRemoteDescriptionRef r) (mediaEnabledRef r)
    (socketRef r) (isConnected r) (connectionError r) (tracks r) (timers r)
    (trace r).
Definition set_screenStreamRef (v : option MediaStream) (r : World) : World :=
  Build_World (state r) (chatMessages r) (peerConnectionRef r)
    (localStreamRef r) (cameraStreamRef r) v (isInitiatorRef r)
    (iceCandidatesQueueRef r) (hasRemoteDescriptionRef r) (mediaEnabledRef r)
    (socketRef r) (isConnected r) (connectionError r) (tracks r) (timers r)
    (trace r).
Definition set_isInitiatorRef (v : bool) (r : World) : World :=
  Build_World (state r) (chatMessages r) (peerConnectionRef r)
    (localStreamRef r) (cameraStreamRef r) (screenStreamRef r) v
    (iceCandidatesQueueRef r) (hasRemoteDescriptionRef r) (mediaEnabledRef r)
    (socketRef r) (isConnected r) (connectionError r) (tracks r) (timers r)
    (trace r).
Definition set_iceCandidatesQueueRef (v : list Candidate) (r : World) : World :=
  Build_World (state r) (chatMessages r) (peerConnectionRef r)
    (localStreamRef r) (cameraStreamRef r) (screenStreamRef r)
    (isInitiatorRef r) v (hasRemoteDescriptionRef r) (mediaEnabledRef r)
    (socketRef r) (isConnected r) (connectionError r) (tracks r) (timers r)
    (trace r).
Definition set_hasRemoteDescriptionRef (v : bool) (r : World) : World :=
  Build_World (state r) (chatMessages r) (peerConnectionRef r)
    (localStreamRef r) (cameraStreamRef r) (screenStreamRef r)
    (isInitiatorRef r) (iceCandidatesQueueRef r) v (mediaEnabledRef r)
    (socketRef r) (isConnected r) (connectionError r) (tracks r) (timers r)
    (trace r).
Definition set_mediaEnabledRef (v : bool * bool) (r : World) : World :=
  Build_World (state r) (chatMessages r) (peerConnectionRef r)
    (localStreamRef r) (cameraStreamRef r) (screenStreamRef r)
    (isInitiatorRef r) (iceCandidatesQueueRef r) (hasRemoteDescriptionRef r) v
    (socketRef r) (isConnected r) (connectionError r) (tracks r) (timers r)
    (trace r).
Definition set_socketRef (v : option Socket) (r : World) : World :=
  Build_World (state r) (chatMessages r) (peerConnectionRef r)
    (localStreamRef r) (cameraStreamRef r) (screenStreamRef r)
    (isInitiatorRef r) (iceCandidatesQueueRef r) (hasRemoteDescriptionRef r)
    (mediaEnabledRef r) v (isConnected r) (connectionError r) (tracks r)
    (timers r) (trace r).
Definition set_isConnected (v : bool) (r : World) : World :=
  Build_World (state r) (chatMessages r) (peerConnectionRef r)
    (localStreamRef r) (cameraStreamRef r) (screenStreamRef r)
    (isInitiatorRef r) (iceCandidatesQueueRef r) (hasRemoteDescriptionRef r)
    (mediaEnabledRef r) (socketRef r) v (connectionError r) (tracks r)
    (timers r) (trace r).
Definition set_connectionError (v : option string) (r : World) : World :=
  Build_World (state r) (chatMessages r) (peerConnectionRef r)
    (localStreamRef r) (cameraStreamRef r) (screenStreamRef r)
    (isInitiatorRef r) (iceCandidatesQueueRef r) (hasRemoteDescriptionRef r)
    (mediaEnabledRef r) (socketRef r) (isConnected r) v (tracks r) (timers r)
    (trace r).
Definition set_tracks (v : list TrackState) (r : World) : World :=
  Build_World (state r) (chatMessages r) (peerConnectionRef r)
    (localStreamRef r) (cameraStreamRef r) (screenStreamRef r)
    (isInitiatorRef r) (iceCandidatesQueueRef r) (hasRemoteDescriptionRef r)
    (mediaEnabledRef r) (socketRef r) (isConnected r) (connectionError r) v
    (timers r) (trace r).
Definition set_timers (v : list (nat * Timer)) (r : World) : World :=
  Build_World (state r) (chatMessages r) (peerConnectionRef r)
    (localStreamRef r) (cameraStreamRef r) (screenStreamRef r)
    (isInitiatorRef r) (iceCandidatesQueueRef r) (hasRemoteDescriptionRef r)
    (mediaEnabledRef r) (socketRef r) (isConnected r) (connectionError r)
    (tracks r) v (trace r).
Definition set_trace (v : list Effect) (r : World) : World :=
  Build_World (state r) (chatMessages r) (peerConnectionRef r)
    (localStreamRef r) (cameraStreamRef r) (screenStreamRef r)
    (isInitiatorRef r) (iceCandidatesQueueRef r) (hasRemoteDescriptionRef r)
    (mediaEnabledRef r) (socketRef r) (isConnected r) (connectionError r)
    (tracks r) (timers r) v.

(** ** The browser and the media engine

    What the outside world answers.  The hook cannot know whether the user
    grants the camera, or whether the engine accepts a description or a
    candidate; these answers are the fields of [Browser].  The answer of the
    media devices may depend on all that was called before (the trace), the
    answer of the engine on the connection it is asked about.  A promise that
    rejects is an exception thrown at the [await]. *)

Inductive Exn := NotAllowedError | OtherError.

Record Browser := {
  getAuthToken : option string;          (* localStorage "jwt_token" *)
  isSecureContext : bool;                (* window.isSecureContext *)
  hasGetDisplayMedia : bool;             (* navigator.mediaDevices?.getDisplayMedia *)
  getUserMedia : list Effect → Exn + list TrackKind;
  getDisplayMedia : list Effect → Exn + list TrackKind;
  setRemoteDescription_ok : RTCPeerConnection → Descriptor → bool;
  addIceCandidate_ok : RTCPeerConnection → Candidate → bool;
  createOffer_result : RTCPeerConnection → option Descriptor;
  createAnswer_result : RTCPeerConnection → option Descriptor;
  setLocalDescription_ok : RTCPeerConnection → Descriptor → bool;
  replaceTrack_ok : RTCPeerConnection → nat → MediaStreamTrack → bool
}.

(** ** The monad of handlers

    A computation changes the world and either returns or throws; what it
    changed before throwing stays changed. *)

Inductive Completion (A : Type) :=
  | Normal (a : A)
  | Throw (e : Exn).
Arguments Normal {A} a.
Arguments Throw {A} e.

Definition Js (A : Type) : Type := World → Completion A * World.

#[global] Instance Js_ret : MRet Js := λ A a w, (Normal a, w).
#[global] Instance Js_bind : MBind Js := λ A B f m w,
  match m w with
  | (Normal a, w') => f a w'
  | (Throw e, w') => (Throw e, w')
  end.

Definition throw {A} (e : Exn) : Js A := λ w, (Throw e, w).

(** [try { body } catch (e) { handler e }] *)
Definition try_catch {A} (body : Js A) (handler : Exn → Js A) : Js A := λ w,
  match body w with
  | (Normal a, w') => (Normal a, w')
  | (Throw e, w') => handler e w'
  end.

(** [try { body } finally { final }] *)
Definition try_finally {A} (body : Js A) (final : Js unit) : Js A := λ w,
  match body w with
  | (c, w') =>
      match final w' with
      | (Normal _, w'') => (c, w'')
      | (Throw e, w'') => (Throw e, w'')
      end
  end.

Definition gets {A} (f : World → A) : Js A := λ w, (Normal (f w), w).
Definition modify (f : World → World) : Js unit := λ w, (Normal (), f w).
Definition log (e : Effect) : Js unit :=
  modify (λ w, set_trace (trace w ++ [e]) w).

(** [for (const x of l) { body x }] and [l.forEach(body)] *)
Fixpoint for_of {A} (l : list A) (body : A → Js unit) : Js unit :=
  match l with
  | [] => mret ()
  | x :: l' => body x;; for_of l' body
  end.

Definition when (b : bool) (m : Js unit) : Js unit := if b then m else mret ().

(** The world a computation leaves, and how it completed. *)
Definition exec {A} (m : Js A) (w : World) : World := (m w).2.
Definition completion {A} (m : Js A) (w : World) : Completion A := (m w).1.

(** [setState(prev => f prev)] *)
Definition setState (f : WebRTCState → WebRTCState) : Js unit :=
  modify (λ w, set_state (f (state w)) w).

(** React renders; the effect on [state.isAudioEnabled, state.isVideoEnabled]
    refreshes [mediaEnabledRef]. *)
Definition rerender : Js unit :=
  modify (λ w, set_mediaEnabledRef
                 (isAudioEnabled (state w), isVideoEnabled (state w)) w).

(** ** Tracks *)

Definition fresh_track : TrackState := {| enabled := true; live := true |}.

(** A new stream with one new live, enabled track per requested kind. *)
Definition new_stream (kinds : list TrackKind) : Js MediaStream := λ w,
  let n := length (tracks w) in
  (Normal (imap (λ i k, {| kind := k; track_no := n + i |}) kinds),
   set_tracks (tracks w ++ replicate (length kinds) fresh_track) w).

Definition track_enabled (w : World) (t : MediaStreamTrack) : bool :=
  default false (enabled <$> tracks w !! track_no t).
Definition track_live (w : World) (t : MediaStreamTrack) : bool :=
  default false (live <$> tracks w !! track_no t).

(** [t.enabled = b] on the state of a track. *)
Definition with_enabled (b : bool) (s : TrackState) : TrackState :=
  {| enabled := b; live := live s |}.

(** [t.enabled = b] *)
Definition set_track_enabled (t : MediaStreamTrack) (b : bool) : Js unit :=
  modify (λ w, set_tracks (alter (with_enabled b) (track_no t) (tracks w)) w).

(** [t.stop()] on the state of a track. *)
Definition stopped (s : TrackState) : TrackState :=
  {| enabled := enabled s; live := false |}.

(** [t.stop()] *)
Definition track_stop (t : MediaStreamTrack) : Js unit :=
  log (TrackStop t);;
  modify (λ w, set_tracks (alter stopped (track_no t) (tracks w)) w).

(** [stream.getTracks().forEach(track => track.stop())] *)
Definition stop_tracks (s : MediaStream) : Js unit := for_of s track_stop.

(** ** JavaScript strings *)

(** [WhiteSpace] and [LineTerminator] of ECMAScript: what [trim] removes. *)
Definition is_whitespace (c : N) : bool :=
  ((9 <=? c) && (c <=? 13) || (c =? 32) || (c =? 160) || (c =? 5760)
   || (8192 <=? c) && (c <=? 8202) || (c =? 8232) || (c =? 8233)
   || (c =? 8239) || (c =? 8287) || (c =? 12288) || (c =? 65279))%N.

Fixpoint trimStart (s : JsString) : JsString :=
  match s with
  | c :: s' => if is_whitespace c then trimStart s' else s
  | [] => []
  end.

(** [s.trim()] *)
Definition trim (s : JsString) : JsString :=
  reverse (trimStart (reverse (trimStart s))).

(** A string (or a missing one) used as a condition: [""] is false. *)
Definition truthy (o : option string) : option string :=
  match o with
  | Some s => if decide (s = "") then None else Some s
  | None => None
  end.

Section Hooks.

(** The arguments of [useWebRTC] and the browser the page runs in. *)
Variable env : Browser.
Variable sessionId : string.
Variable selfDisplayName : option string.

(** ** use-socket.ts *)

Definition connect : Js unit :=
  match truthy (getAuthToken env) with
  | None =>
      modify (set_connectionError (Some "No authentication token available"))
  | Some _ =>
      old ← gets socketRef;
      when (bool_decide (is_Some old)) (log SocketDisconnect);;
      log SocketOpen;;
      modify (set_socketRef (Some IoSocket))
  end.

Definition disconnect : Js unit :=
  s ← gets socketRef;
  match s with
  | Some _ =>
      log SocketDisconnect;;
      modify (set_socketRef None);;
      modify (set_isConnected false)
  | None => mret ()
  end.

(** [if (socketRef.current) socketRef.current.emit(...)] *)
Definition emit (e : OutEvent) : Js unit :=
  s ← gets socketRef;
  match s with
  | Some _ => log (Emit e)
  | None => mret ()
  end.

(** The socket's own events: "connect", "disconnect", "connect_error". *)
Definition on_connect : Js unit :=
  modify (set_isConnected true);;
  modify (set_connectionError None).

Definition on_disconnect : Js unit := modify (set_isConnected false).

Definition on_connect_error (msg : string) : Js unit :=
  modify (set_connectionError (Some msg));;
  modify (set_isConnected false).

Definition joinSession (sid : string) : Js unit := emit (JoinSession sid).
Definition leaveSession (sid : string) : Js unit := emit (LeaveSession sid).
Definition endSessionCall (sid : string) : Js unit := emit (EndSession sid).
Definition sendOffer (sid : string) (d : Descriptor) : Js unit :=
  emit (SendOffer sid d).
Definition sendAnswer (sid : string) (d : Descriptor) : Js unit :=
  emit (SendAnswer sid d).
Definition sendIceCandidate (sid : string) (c : Candidate) : Js unit :=
  emit (SendIceCandidate sid c).
Definition sendMediaState (sid : string) (audio video : bool) : Js unit :=
  emit (SendMediaState sid audio video).
(** [sendChatMessage] of the socket hook (the WebRTC hook has its own). *)
Definition socket_sendChatMessage (sid : string) (m : JsString) : Js unit :=
  emit (SendChatMessage sid m).

(** ** Calls on the peer connection

    The handlers hold [pc = peerConnectionRef.current] in a local; no other
    handler runs in between, so a call on [pc] is a call on the connection in
    the ref. *)

Definition on_pc {A} (k : RTCPeerConnection → Js A) : Js A :=
  pc ← gets peerConnectionRef;
  match pc with
  | Some p => k p
  | None => throw OtherError
  end.

Definition update_pc (f : RTCPeerConnection → RTCPeerConnection) : Js unit :=
  modify (λ w, set_peerConnectionRef (option_map f (peerConnectionRef w)) w).

Definition pc_setRemoteDescription (d : Descriptor) : Js unit :=
  on_pc (λ p,
    log (SetRemoteDescription d);;
    if setRemoteDescription_ok env p d
    then update_pc (set_remoteDescription (Some d))
    else throw OtherError).

Definition pc_addIceCandidate (c : Candidate) : Js unit :=
  on_pc (λ p,
    log (AddIceCandidate c);;
    if addIceCandidate_ok env p c
    then update_pc (λ p, set_remoteCandidates (remoteCandidates p ++ [c]) p)
    else throw OtherError).

Definition pc_createOffer : Js Descriptor :=
  on_pc (λ p,
    log CreateOffer;;
    match createOffer_result env p with
    | Some d => mret d
    | None => throw OtherError
    end).

Definition pc_createAnswer : Js Descriptor :=
  on_pc (λ p,
    log CreateAnswer;;
    match createAnswer_result env p with
    | Some d => mret d
    | None => throw OtherError
    end).

Definition pc_setLocalDescription (d : Descriptor) : Js unit :=
  on_pc (λ p,
    log (SetLocalDescription d);;
    if setLocalDescription_ok env p d
    then update_pc (set_localDescription (Some d))
    else throw OtherError).

(** [pc.addTrack(track, stream)] *)
Definition pc_addTrack (t : MediaStreamTrack) : Js unit :=
  log (AddTrack t);;
  update_pc (λ p, set_senders (senders p ++ [t]) p).

(** [sender.replaceTrack(track)], the sender given by its position. *)
Definition sender_replaceTrack (i : nat) (t : MediaStreamTrack) : Js unit :=
  on_pc (λ p,
    log (ReplaceTrack i t);;
    if replaceTrack_ok env p i t
    then update_pc (λ p, set_senders (<[i:=t]> (senders p)) p)
    else throw OtherError).

(** [pc.close(); peerConnectionRef.current = null] under
    [if (peerConnectionRef.current)] *)
Definition close_peer_connection : Js unit :=
  pc ← gets peerConnectionRef;
  match pc with
  | Some _ => log ClosePeerConnection;; modify (set_peerConnectionRef None)
  | None => mret ()
  end.

(** [onError?.(message)] *)
Definition onError (msg : string) : Js unit := log (OnError msg).

(** The socket's "error" event: [setConnectionError] in the socket hook, then
    the [onError] the WebRTC hook registered. *)
Definition on_socket_error (msg : string) : Js unit :=
  modify (set_connectionError (Some msg));;
  onError msg.

(** ** use-webrtc.ts: notifications of the peer connection *)

(** [pc.onicecandidate]: a discovered candidate is sent at once. *)
Definition onicecandidate (c : option Candidate) : Js unit :=
  match c with
  | Some c => sendIceCandidate sessionId c
  | None => mret ()
  end.

(** [pc.onconnectionstatechange] *)
Definition onconnectionstatechange (s : ConnectionState) : Js unit :=
  setState (set_connectionState s);;
  log (OnConnectionStateChange s).

(** [pc.ontrack], with [event.streams[0]] if there is one *)
Definition ontrack (stream : option RemoteStream) : Js unit :=
  match stream with
  | Some r => setState (set_remoteStream (Some r))
  | None => mret ()
  end.

(** ** use-webrtc.ts: signaling handlers *)

Definition handleOffer (data : OfferData) : Js unit :=
  try_catch
    (pc ← gets peerConnectionRef;
     match pc with
     | None => mret ()
     | Some _ =>
         pc_setRemoteDescription (offer data);;
         modify (set_hasRemoteDescriptionRef true);;
         queue ← gets iceCandidatesQueueRef;
         for_of queue pc_addIceCandidate;;
         modify (set_iceCandidatesQueueRef []);;
         answer ← pc_createAnswer;
         pc_setLocalDescription answer;;
         sendAnswer sessionId answer;;
         setState (set_peerDisplayName (Some (displayName (offer_from data))))
     end)
    (λ _, onError "Failed to handle incoming call").

Definition handleAnswer (data : AnswerData) : Js unit :=
  try_catch
    (pc ← gets peerConnectionRef;
     match pc with
     | None => mret ()
     | Some _ =>
         pc_setRemoteDescription (answer data);;
         modify (set_hasRemoteDescriptionRef true);;
         queue ← gets iceCandidatesQueueRef;
         for_of queue pc_addIceCandidate;;
         modify (set_iceCandidatesQueueRef []);;
         setState (set_peerDisplayName (Some (displayName (answer_from data))))
     end)
    (λ _, onError "Failed to establish connection").

Definition handleIceCandidate (data : IceCandidateData) : Js unit :=
  try_catch
    (pc ← gets peerConnectionRef;
     match pc with
     | None => mret ()
     | Some _ =>
         has ← gets hasRemoteDescriptionRef;
         if negb has
         then modify (λ w, set_iceCandidatesQueueRef
                             (iceCandidatesQueueRef w ++ [candidate data]) w)
         else pc_addIceCandidate (candidate data)
     end)
    (λ _, mret ()).

Definition handleMediaState (data : MediaStateData) : Js unit :=
  setState (set_peerMediaState (Some (ms_audio data, ms_video data))).

Definition handleChatMessage (fresh_id : string) (data : ChatMessageData) : Js unit :=
  modify (λ w, set_chatMessages
    (chatMessages w ++ [ {| id := fresh_id; message := cm_message data;
                            from := displayName (cm_from data);
                            timestamp := cm_timestamp data; isSelf := false |} ]) w).

(** The state [useState] starts with, and [endSession] and
    [handleSessionEnded] go back to. *)
Definition initial_state : WebRTCState := {|
  localStream := None; remoteStream := None;
  isAudioEnabled := true; isVideoEnabled := true; isScreenSharing := false;
  connectionState := StateNew; isInitiator := false;
  peerDisplayName := None; peerMediaState := None |}.

Definition setTimeout (delay : nat) (t : Timer) : Js unit :=
  log (SetTimeout delay);;
  modify (λ w, set_timers (timers w ++ [(delay, t)]) w).

(** [new RTCPeerConnection(ICE_SERVERS)], the local tracks added, stored in
    the ref.  (The source fills the new object before it stores it; nothing
    reads the ref in between.) *)
Definition createPeerConnection : Js unit :=
  log NewPeerConnection;;
  modify (set_peerConnectionRef
            (Some {| senders := []; remoteDescription := None;
                     localDescription := None; remoteCandidates := [] |}));;
  ls ← gets localStreamRef;
  match ls with
  | Some s => for_of s pc_addTrack
  | None => mret ()
  end.

Definition createOffer : Js unit :=
  try_catch
    (pc ← gets peerConnectionRef;
     when (bool_decide (pc = None)) createPeerConnection;;
     d ← pc_createOffer;
     pc_setLocalDescription d;;
     sendOffer sessionId d)
    (λ _, onError "Failed to start call").

Definition handleReadyToConnect : Js unit :=
  initiator ← gets isInitiatorRef;
  when initiator createOffer.

Definition handleUserLeft : Js unit :=
  close_peer_connection;;
  setState (λ prev, set_peerMediaState None (set_peerDisplayName None
             (set_connectionState StateNew (set_remoteStream None prev)))).

(** [if (ref.current) { ref.current.getTracks().forEach(t => t.stop());
    ref.current = null }] *)
Definition stop_and_clear (ref : World → option MediaStream)
    (clear : World → World) : Js unit :=
  s ← gets ref;
  match s with
  | Some s => stop_tracks s;; modify clear
  | None => mret ()
  end.

Definition handleSessionEnded (data : SessionEndedData) : Js unit :=
  close_peer_connection;;
  stop_and_clear screenStreamRef (set_screenStreamRef None);;
  stop_and_clear cameraStreamRef (set_cameraStreamRef None);;
  stop_and_clear localStreamRef (set_localStreamRef None);;
  modify (set_hasRemoteDescriptionRef false);;
  modify (set_iceCandidatesQueueRef []);;
  setState (λ _, initial_state);;
  log (OnSessionEnded (displayName (endedBy data))).

Definition handleUserJoined (data : Peer) : Js unit :=
  initiator ← gets isInitiatorRef;
  pc ← gets peerConnectionRef;
  when (initiator && bool_decide (is_Some pc)) (setTimeout 500 OfferForJoinedUser);;
  setState (set_peerDisplayName (Some (displayName data))).

(** The callback [handleUserJoined] gives to [setTimeout]. *)
Definition offer_for_joined_user : Js unit :=
  try_catch
    (pc ← gets peerConnectionRef;
     match pc with
     | None => mret ()
     | Some _ =>
         d ← pc_createOffer;
         pc_setLocalDescription d;;
         sendOffer sessionId d
     end)
    (λ _, mret ()).

Definition onSessionJoined (data : SessionJoinedData) : Js unit :=
  modify (set_isInitiatorRef (sj_isInitiator data));;
  setState (set_isInitiator (sj_isInitiator data)).

(** [fresh_id] and [now] stand for the [Date.now()]-[Math.random()] id and
    for [new Date().toISOString()]. *)
Definition sendChatMessage (fresh_id now : string) (text : JsString) : Js unit :=
  let trimmed := trim text in
  match trimmed with
  | [] => mret ()
  | _ =>
      modify (λ w, set_chatMessages
        (chatMessages w ++ [ {| id := fresh_id; message := trimmed;
                                from := default "You" (truthy selfDisplayName);
                                timestamp := now; isSelf := true |} ]) w);;
      socket_sendChatMessage sessionId trimmed
  end.

(** ** use-webrtc.ts: local media *)

Definition mediaDevices_getUserMedia : Js MediaStream :=
  h ← gets trace;
  log GetUserMedia;;
  match getUserMedia env h with
  | inr kinds => new_stream kinds
  | inl e => throw e
  end.

Definition mediaDevices_getDisplayMedia : Js MediaStream :=
  h ← gets trace;
  log GetDisplayMedia;;
  match getDisplayMedia env h with
  | inr kinds => new_stream kinds
  | inl e => throw e
  end.

Definition initializeMedia : Js MediaStream :=
  try_catch
    (stream ← mediaDevices_getUserMedia;
     modify (set_cameraStreamRef (Some stream));;
     modify (set_localStreamRef (Some stream));;
     setState (λ prev, set_isScreenSharing false (set_isVideoEnabled true
                 (set_isAudioEnabled true (set_localStream (Some stream) prev))));;
     mret stream)
    (λ e,
       onError "Failed to access camera/microphone. Please check permissions.";;
       throw e).

(** The position of the first sender whose track is a video track. *)
Definition getVideoSender : Js (option nat) :=
  pc ← gets peerConnectionRef;
  mret (p ← pc; fst <$> list_find (λ t, kind t = VideoKind) (senders p)).

Definition setLocalPreviewStream (videoTrack : option MediaStreamTrack) : Js unit :=
  cam ← gets cameraStreamRef;
  let audioTrack := s ← cam; head (getAudioTracks s) in
  let preview := option_list audioTrack ++ option_list videoTrack in
  media ← gets mediaEnabledRef;
  from_option (λ a, set_track_enabled a media.1) (mret ()) audioTrack;;
  from_option (λ v, set_track_enabled v media.2) (mret ()) videoTrack;;
  modify (set_localStreamRef (Some preview));;
  setState (set_localStream (Some preview)).

Definition stopScreenShare : Js unit :=
  sharing ← gets (λ w, isScreenSharing (state w));
  if negb sharing then mret () else
  cam ← gets cameraStreamRef;
  let cameraVideoTrack := s ← cam; head (getVideoTracks s) in
  stop_and_clear screenStreamRef (set_screenStreamRef None);;
  match cameraVideoTrack with
  | None => setState (set_isScreenSharing false)
  | Some cameraVideo =>
      try_finally
        (try_catch
           (sender ← getVideoSender;
            match sender with
            | Some i => sender_replaceTrack i cameraVideo
            | None => mret ()
            end)
           (λ _, mret ()))
        (setLocalPreviewStream (Some cameraVideo);;
         setState (set_isScreenSharing false))
  end.

Definition toggleScreenShare : Js unit :=
  sharing ← gets (λ w, isScreenSharing (state w));
  if (sharing : bool) then stopScreenShare else
  try_catch
    (if negb (isSecureContext env) then
       onError "Screen sharing requires HTTPS (or localhost). Open the app on https:// or http://localhost."
     else if negb (hasGetDisplayMedia env) then
       onError "Screen sharing is not supported in this browser."
     else
       cam ← gets cameraStreamRef;
       when (bool_decide (cam = None)) (initializeMedia;; mret ());;
       screenStream ← mediaDevices_getDisplayMedia;
       match head (getVideoTracks screenStream) with
       | None =>
           stop_tracks screenStream;;
           onError "Failed to start screen sharing"
       | Some screenVideo =>
           modify (set_screenStreamRef (Some screenStream));;
           sender ← getVideoSender;
           match sender with
           | None =>
               stop_tracks screenStream;;
               modify (set_screenStreamRef None);;
               onError "Start the call first, then try screen sharing."
           | Some i =>
               sender_replaceTrack i screenVideo;;
               setLocalPreviewStream (Some screenVideo);;
               setState (set_isScreenSharing true)
           end
       end)
    (λ e, onError
            match e with
            | NotAllowedError =>
                "Screen sharing was blocked. Please allow the permission and try again."
            | OtherError => "Failed to start screen sharing"
            end).

(** ** use-webrtc.ts: session start and end, toggles *)

Definition startSession : Js unit :=
  try_catch
    (initializeMedia;;
     createPeerConnection;;
     connect;;
     joinSession sessionId;;
     setTimeout 700 RetryJoin)
    (λ _, onError "Failed to start video session").

Definition endSession : Js unit :=
  stop_and_clear screenStreamRef (set_screenStreamRef None);;
  stop_and_clear cameraStreamRef (set_cameraStreamRef None);;
  stop_and_clear localStreamRef (set_localStreamRef None);;
  close_peer_connection;;
  endSessionCall sessionId;;
  leaveSession sessionId;;
  disconnect;;
  modify (set_hasRemoteDescriptionRef false);;
  modify (set_iceCandidatesQueueRef []);;
  setState (λ _, initial_state).

Definition toggleAudio : Js unit :=
  ls ← gets localStreamRef;
  match s ← ls; head (getAudioTracks s) with
  | Some audioTrack =>
      old ← gets (λ w, track_enabled w audioTrack);
      set_track_enabled audioTrack (negb old);;
      newState ← gets (λ w, track_enabled w audioTrack);
      setState (set_isAudioEnabled newState);;
      video ← gets (λ w, isVideoEnabled (state w));
      sendMediaState sessionId newState video
  | None => mret ()
  end.

Definition toggleVideo : Js unit :=
  ls ← gets localStreamRef;
  match s ← ls; head (getVideoTracks s) with
  | Some videoTrack =>
      old ← gets (λ w, track_enabled w videoTrack);
      set_track_enabled videoTrack (negb old);;
      newState ← gets (λ w, track_enabled w videoTrack);
      setState (set_isVideoEnabled newState);;
      audio ← gets (λ w, isAudioEnabled (state w));
      sendMediaState sessionId audio newState
  | None => mret ()
  end.

(** ** Timers *)

Definition run_timer (t : Timer) : Js unit :=
  match t with
  | RetryJoin => joinSession sessionId
  | OfferForJoinedUser => offer_for_joined_user
  end.

(** The [i]-th pending timer fires. *)
Definition fire_timer (i : nat) : Js unit :=
  ts ← gets timers;
  match ts !! i with
  | Some (_, t) => modify (set_timers (delete i ts));; run_timer t
  | None => mret ()
  end.

(** ** The event loop *)

Inductive Event :=
  (* the page calls an action *)
  | CallStartSession
  | CallEndSession
  | CallToggleAudio
  | CallToggleVideo
  | CallToggleScreenShare
  | CallSendChatMessage (fresh_id now : string) (text : JsString)
  (* the socket delivers an event *)
  | SessionJoined (data : SessionJoinedData)
  | UserJoined (data : Peer)
  | UserLeft
  | ReadyToConnect
  | Offer (data : OfferData)
  | Answer (data : AnswerData)
  | IceCandidate (data : IceCandidateData)
  | MediaState (data : MediaStateData)
  | ChatMessageReceived (fresh_id : string) (data : ChatMessageData)
  | SessionEnded (data : SessionEndedData)
  | SocketConnected
  | SocketDisconnected
  | SocketConnectError (message : string)
  | SocketError (message : string)
  (* the peer connection notifies *)
  | IceCandidateFound (c : option Candidate)
  | ConnectionStateChanged (s : ConnectionState)
  | TrackReceived (stream : option RemoteStream)
  (* a timer fires *)
  | TimerFired (i : nat).

Definition handler (e : Event) : Js unit :=
  match e with
  | CallStartSession => startSession
  | CallEndSession => endSession
  | CallToggleAudio => toggleAudio
  | CallToggleVideo => toggleVideo
  | CallToggleScreenShare => toggleScreenShare
  | CallSendChatMessage i n t => sendChatMessage i n t
  | SessionJoined d => onSessionJoined d
  | UserJoined d => handleUserJoined d
  | UserLeft => handleUserLeft
  | ReadyToConnect => handleReadyToConnect
  | Offer d => handleOffer d
  | Answer d => handleAnswer d
  | IceCandidate d => handleIceCandidate d
  | MediaState d => handleMediaState d
  | ChatMessageReceived i d => handleChatMessage i d
  | SessionEnded d => handleSessionEnded d
  | SocketConnected => on_connect
  | SocketDisconnected => on_disconnect
  | SocketConnectError m => on_connect_error m
  | SocketError m => on_socket_error m
  | IceCandidateFound c => onicecandidate c
  | ConnectionStateChanged s => onconnectionstatechange s
  | TrackReceived r => ontrack r
  | TimerFired i => fire_timer i
  end.

(** One turn of the event loop when nothing else is delivered before the
    promises of the handler have settled: the handler runs to its end, React
    renders. *)
Definition step (w : World) (e : Event) : World := exec (handler e;; rerender) w.

Definition run (es : list Event) (w : World) : World := foldl step w es.

End Hooks.

(** The world when the component has mounted and nothing has been called. *)
Definition mounted : World := {|
  state := initial_state; chatMessages := [];
  peerConnectionRef := None; localStreamRef := None; cameraStreamRef := None;
  screenStreamRef := None; isInitiatorRef := false;
  iceCandidatesQueueRef := []; hasRemoteDescriptionRef := false;
  mediaEnabledRef := (true, true);
  socketRef := None; isConnected := false; connectionError := None;
  tracks := []; timers := []; trace := [] |}.

(** ** Assumptions on the media engine, and reading the trace *)

Definition accepts_remote_descriptions (env : Browser) : Prop :=
  ∀ p d, setRemoteDescription_ok env p d = true.

(** The engine takes a candidate once the connection has a remote
    description (before that it is an error in the engine). *)
Definition accepts_candidates_after_description (env : Browser) : Prop :=
  ∀ p c, is_Some (remoteDescription p) → addIceCandidate_ok env p c = true.

(** The candidates handed to [pc.addIceCandidate], in call order. *)
Definition ice_calls (t : list Effect) : list Candidate :=
  omap (λ e, match e with AddIceCandidate c => Some c | _ => None end) t.

(** The events of the offer/answer and candidate exchange. *)
Definition negotiation_event (e : Event) : bool :=
  match e with
  | Offer _ | Answer _ | IceCandidate _ => true
  | _ => false
  end.

(** The candidates a sequence of events delivers, in arrival order. *)
Definition arrived (es : list Event) : list Candidate :=
  omap (λ e, match e with IceCandidate d => Some (candidate d) | _ => None end) es.

(** Whether a sequence of events delivers an offer or an answer. *)
Definition described (es : list Event) : bool :=
  existsb (λ e, match e with Offer _ | Answer _ => true | _ => false end) es.

(** The world after a remote description [d] was set on connection [p] and
    the queue was flushed into it. *)
Definition flushed (d : Descriptor) (p : RTCPeerConnection) (w : World) : World :=
  set_iceCandidatesQueueRef []
    (set_trace (trace w ++ SetRemoteDescription d
                           :: (AddIceCandidate <$> iceCandidatesQueueRef w))
       (set_peerConnectionRef
          (Some (set_remoteCandidates
                   (remoteCandidates p ++ iceCandidatesQueueRef w)
                   (set_remoteDescription (Some d) p)))
          (set_hasRemoteDescriptionRef true w))).

Definition creates_answer (env : Browser) (a : Descriptor) : Prop :=
  ∀ p, createAnswer_result env p = Some a.

Definition creates_offer (env : Browser) (o : Descriptor) : Prop :=
  ∀ p, createOffer_result env p = Some o.

Definition accepts_local_descriptions (env : Browser) : Prop :=
  ∀ p d, setLocalDescription_ok env p d = true.

(** ** What the specification says [handleOffer] does

    "apply it as the remote descriptor, mark remote-descriptor-present,
    create and send a local answer descriptor, then flush the Candidate
    Buffer in arrival order": the calls this order would leave in the trace
    when every call succeeds and the socket is there. *)
Definition offer_steps_as_specified (sid : string) (d a : Descriptor)
    (queue : list Candidate) : list Effect :=
  [SetRemoteDescription d; CreateAnswer; SetLocalDescription a;
   Emit (SendAnswer sid a)] ++ (AddIceCandidate <$> queue).

(** ** The signaling relay *)

(** Modelled from the spec: the relay's acknowledgment of a join request (the
    relay is a server that is not among the sources).  "Role ... assigned ...
    by the signaling layer's join acknowledgment (first-to-join session
    becomes Initiator)": the acknowledgment to a participant who finds nobody
    in the session carries [isInitiator = true], any later one [false]. *)
Definition relay_join_ack (sid : string) (present : list string)
    (joiner : string) : SessionJoinedData :=
  {| sj_sessionId := sid;
     sj_participants := present ++ [joiner];
     sj_isInitiator := bool_decide (present = []) |}.

(** ** A browser in which everything succeeds, and two peers

    The engine of this browser refuses a candidate offered before a remote
    description, as a real one does. *)
Definition ideal_browser : Browser := {|
  getAuthToken := Some "jwt";
  isSecureContext := true;
  hasGetDisplayMedia := true;
  getUserMedia := λ _, inr [AudioKind; VideoKind];
  getDisplayMedia := λ _, inr [VideoKind];
  setRemoteDescription_ok := λ _ _, true;
  addIceCandidate_ok := λ p _, bool_decide (is_Some (remoteDescription p));
  createOffer_result := λ _, Some 100;
  createAnswer_result := λ _, Some 200;
  setLocalDescription_ok := λ _ _, true;
  replaceTrack_ok := λ _ _ _, true |}.

(** The same browser, except that its engine refuses candidate 2. *)
Definition picky_browser : Browser := {|
  getAuthToken := Some "jwt";
  isSecureContext := true;
  hasGetDisplayMedia := true;
  getUserMedia := λ _, inr [AudioKind; VideoKind];
  getDisplayMedia := λ _, inr [VideoKind];
  setRemoteDescription_ok := λ _ _, true;
  addIceCandidate_ok := λ p c,
    bool_decide (is_Some (remoteDescription p)) && negb (c =? 2);
  createOffer_result := λ _, Some 100;
  createAnswer_result := λ _, Some 200;
  setLocalDescription_ok := λ _ _, true;
  replaceTrack_ok := λ _ _ _, true |}.

Definition ann : Peer := {| userId := "ann"; displayName := "Ann" |}.
Definition bob : Peer := {| userId := "bob"; displayName := "Bob" |}.

(** Ann's page after [startSession]. *)
Definition started : World :=
  run ideal_browser "session-1" (Some "Ann") [CallStartSession] mounted.

Definition candidate_from_bob (c : Candidate) : Event :=
  IceCandidate {| candidate := c; candidate_from := bob |}.
Definition offer_from_bob (d : Descriptor) : Event :=
  Offer {| offer := d; offer_from := bob |}.
Definition answer_from_bob (d : Descriptor) : Event :=
  Answer {| answer := d; answer_from := bob |}.

(** Ann's page with one candidate from Bob waiting in the queue. *)
Definition queued_one : World :=
  run ideal_browser "session-1" (Some "Ann") [candidate_from_bob 1] started.

(** ** Tearing a session down *)

(** The tracks after [stop()] was called on each track of [s]. *)
Definition stop_all (s : MediaStream) (h : list TrackState) : list TrackState :=
  foldl (λ h t, alter stopped (track_no t) h) h s.

Definition stream_tracks (s : option MediaStream) : list MediaStreamTrack :=
  default [] s.

(** The tracks of the screen, camera and preview streams. *)
Definition local_tracks (w : World) : list MediaStreamTrack :=
  stream_tracks (screenStreamRef w) ++ stream_tracks (cameraStreamRef w)
  ++ stream_tracks (localStreamRef w).

(** Every live track of the browser belongs to one of the three streams. *)
Definition live_tracks_are_local (w : World) : Prop :=
  ∀ i st, tracks w !! i = Some st → live st = true →
    ∃ t, t ∈ local_tracks w ∧ track_no t = i.

Definition stop_calls (w : World) : list Effect :=
  TrackStop <$> local_tracks w.

Definition close_calls (w : World) : list Effect :=
  if peerConnectionRef w is Some _ then [ClosePeerConnection] else [].

(** The calls of [endSession], in order. *)
Definition teardown_calls (sid : string) (w : World) : list Effect :=
  stop_calls w ++ close_calls w
  ++ (if socketRef w is Some _
      then [Emit (EndSession sid); Emit (LeaveSession sid); SocketDisconnect]
      else []).

Definition not_live (h : list TrackState) (i : nat) : Prop :=
  default false (live <$> h !! i) = false.

(** How many times an event was emitted on the socket. *)
Definition count_emitted (ev : OutEvent) (t : list Effect) : nat :=
  length (filter (λ e, e = Emit ev) t).

(** How many times the end-session notification was emitted. *)
Definition end_notifications (sid : string) (t : list Effect) : nat :=
  count_emitted (EndSession sid) t.

Definition torn_down (sid : string) (w : World) : World := {|
  state := initial_state;
  chatMessages := chatMessages w;
  peerConnectionRef := None;
  localStreamRef := None;
  cameraStreamRef := None;
  screenStreamRef := None;
  isInitiatorRef := isInitiatorRef w;
  iceCandidatesQueueRef := [];
  hasRemoteDescriptionRef := false;
  mediaEnabledRef := mediaEnabledRef w;
  socketRef := None;
  isConnected := if socketRef w is Some _ then false else isConnected w;
  connectionError := connectionError w;
  tracks := stop_all (local_tracks w) (tracks w);
  timers := timers w;
  trace := trace w ++ teardown_calls sid w |}.

(** The world [handleSessionEnded] leaves: the same teardown, the socket
    kept, and the page told who ended the session. *)
Definition ended_by_peer (name : string) (w : World) : World := {|
  state := initial_state;
  chatMessages := chatMessages w;
  peerConnectionRef := None;
  localStreamRef := None;
  cameraStreamRef := None;
  screenStreamRef := None;
  isInitiatorRef := isInitiatorRef w;
  iceCandidatesQueueRef := [];
  hasRemoteDescriptionRef := false;
  mediaEnabledRef := mediaEnabledRef w;
  socketRef := socketRef w;
  isConnected := isConnected w;
  connectionError := connectionError w;
  tracks := stop_all (local_tracks w) (tracks w);
  timers := timers w;
  trace := trace w ++ close_calls w ++ stop_calls w ++ [OnSessionEnded name] |}.

(** Ann's page after she has answered Bob's offer. *)
Definition answered : World :=
  run ideal_browser "session-1" (Some "Ann") [offer_from_bob 7] started.

(** Ann's page when she joined first, made the offer on ready-to-connect and
    got Bob's answer. *)
Definition negotiated : World :=
  run ideal_browser "session-1" (Some "Ann")
    [SessionJoined (relay_join_ack "session-1" [] "ann"); ReadyToConnect;
     answer_from_bob 9] started.

(** Ann's page while she shares her screen with Bob. *)
Definition sharing : World :=
  run ideal_browser "session-1" (Some "Ann") [CallToggleScreenShare] answered.

(** How many times the join request was emitted. *)
Definition join_requests (sid : string) (t : list Effect) : nat :=
  count_emitted (JoinSession sid) t.

(** The stream [new_stream kinds] returns in a browser with [n] tracks. *)
Definition stream_at (n : nat) (kinds : list TrackKind) : MediaStream :=
  imap (λ i k, {| kind := k; track_no := n + i |}) kinds.

(** ** Switching the video source *)

(** The calls of an offer/answer round trip. *)
Definition is_negotiation (e : Effect) : bool :=
  match e with
  | CreateOffer | CreateAnswer | SetLocalDescription _
  | SetRemoteDescription _ | Emit (SendOffer _ _) | Emit (SendAnswer _ _) =>
      true
  | _ => false
  end.

(** The tracks of the audio senders of the peer connection, in order. *)
Definition outgoing_audio (w : World) : list MediaStreamTrack :=
  from_option (λ p, getAudioTracks (senders p)) [] (peerConnectionRef w).

(** What a swap of the video track must leave alone in a connection: the
    audio senders, the number of senders, the descriptions, the candidates. *)
Definition pc_frame (p : RTCPeerConnection) :=
  (getAudioTracks (senders p), length (senders p), remoteDescription p,
   localDescription p, remoteCandidates p).

(** From [w] to [w'] at most the tracks of video senders were replaced, and
    no call of an offer/answer round trip was made. *)
Definition video_swap (w w' : World) : Prop :=
  pc_frame <$> peerConnectionRef w' = pc_frame <$> peerConnectionRef w ∧
  ∃ l, trace w' = trace w ++ l ∧ forallb (λ e, negb (is_negotiation e)) l = true.

(** A computation relates every world to the world it leaves. *)
Definition frames_at (R : relation World) {A} (m : Js A) (w : World) : Prop :=
  R w (m w).2.
Definition frames (R : relation World) {A} (m : Js A) : Prop :=
  ∀ w, frames_at R m w.

(** What [getVideoSender] finds in a world. *)
Definition video_sender (w : World) : option nat :=
  p ← peerConnectionRef w;
  fst <$> list_find (λ t, kind t = VideoKind) (senders p).

(** ** Exceptions that escape, calls on the socket, the chat log *)

(** A computation that lets no exception out, in whatever world it runs. *)
Definition never_throws {A} (m : Js A) : Prop :=
  ∀ w, ∃ a, completion m w = Normal a.

(** The calls on a socket: [io(...)], [socket.disconnect()], [socket.emit]. *)
Definition is_socket_call (e : Effect) : bool :=
  match e with
  | SocketOpen | SocketDisconnect | Emit _ => true
  | _ => false
  end.

Definition socket_calls (t : list Effect) : list Effect :=
  filter (λ e, is_socket_call e = true) t.

(** From [w] to [w'], if there was no socket, there is none and no call on a
    socket was made. *)
Definition silent (w w' : World) : Prop :=
  socketRef w = None →
  socketRef w' = None ∧ socket_calls (trace w') = socket_calls (trace w).

Definition count_calls (e : Effect) (t : list Effect) : nat :=
  length (filter (λ x, x = e) t).

(** Every socket that was opened was disconnected, but the one in
    [socketRef]. *)
Definition socket_balance (w : World) : Prop :=
  count_calls SocketOpen (trace w) =
    count_calls SocketDisconnect (trace w)
    + (if socketRef w is Some _ then 1 else 0).

Definition keeps_socket_balance (w w' : World) : Prop :=
  socket_balance w → socket_balance w'.

(** The page calls [startSession]. *)
Definition starts (e : Event) : bool :=
  match e with CallStartSession => true | _ => false end.

(** What an event adds to the chat log. *)
Definition chat_of_event (selfDisplayName : option string) (e : Event)
    : list ChatMessage :=
  match e with
  | CallSendChatMessage i now text =>
      match trim text with
      | [] => []
      | trimmed =>
          [ {| id := i; message := trimmed;
               from := default "You" (truthy selfDisplayName);
               timestamp := now; isSelf := true |} ]
      end
  | ChatMessageReceived i d =>
      [ {| id := i; message := cm_message d;
           from := displayName (cm_from d);
           timestamp := cm_timestamp d; isSelf := false |} ]
  | _ => []
  end.

Definition same_chat (w w' : World) : Prop := chatMessages w' = chatMessages w.

(** ** Browsers in which something fails *)

(** Nothing is granted: no stored token, an insecure context, the camera and
    the screen refused by the user, an engine that refuses every call. *)
Definition hostile_browser : Browser := {|
  getAuthToken := None;
  isSecureContext := false;
  hasGetDisplayMedia := true;
  getUserMedia := λ _, inl NotAllowedError;
  getDisplayMedia := λ _, inl NotAllowedError;
  setRemoteDescription_ok := λ _ _, false;
  addIceCandidate_ok := λ _ _, false;
  createOffer_result := λ _, None;
  createAnswer_result := λ _, None;
  setLocalDescription_ok := λ _ _, false;
  replaceTrack_ok := λ _ _ _, false |}.

(** [ideal_browser] with nothing under "jwt_token" in the local storage. *)
Definition signed_out_browser : Browser := {|
  getAuthToken := None;
  isSecureContext := true;
  hasGetDisplayMedia := true;
  getUserMedia := λ _, inr [AudioKind; VideoKind];
  getDisplayMedia := λ _, inr [VideoKind];
  setRemoteDescription_ok := λ _ _, true;
  addIceCandidate_ok := λ p _, bool_decide (is_Some (remoteDescription p));
  createOffer_result := λ _, Some 100;
  createAnswer_result := λ _, Some 200;
  setLocalDescription_ok := λ _ _, true;
  replaceTrack_ok := λ _ _ _, true |}.

(** [ideal_browser] with an engine that refuses to replace a track. *)
Definition fixed_senders_browser : Browser := {|
  getAuthToken := Some "jwt";
  isSecureContext := true;
  hasGetDisplayMedia := true;
  getUserMedia := λ _, inr [AudioKind; VideoKind];
  getDisplayMedia := λ _, inr [VideoKind];
  setRemoteDescription_ok := λ _ _, true;
  addIceCandidate_ok := λ p _, bool_decide (is_Some (remoteDescription p));
  createOffer_result := λ _, Some 100;
  createAnswer_result := λ _, Some 200;
  setLocalDescription_ok := λ _ _, true;
  replaceTrack_ok := λ _ _ _, false |}.

(** The connection [createPeerConnection] makes for a preview stream. *)
Definition new_connection (s : option MediaStream) : RTCPeerConnection :=
  {| senders := stream_tracks s; remoteDescription := None;
     localDescription := None; remoteCandidates := [] |}.

(** The world [createPeerConnection] leaves. *)
Definition with_new_connection (w : World) : World :=
  set_trace (trace w ++ NewPeerConnection
                        :: (AddTrack <$> stream_tracks (localStreamRef w)))
    (set_peerConnectionRef (Some (new_connection (localStreamRef w))) w).

(** The world in which [createOffer] asks for the offer. *)
Definition with_connection (w : World) : World :=
  if peerConnectionRef w is Some _ then w else with_new_connection w.

(** The candidates [pc.onicecandidate] is called with, one event each. *)
Definition candidates_found (cs : list (option Candidate)) : list Event :=
  IceCandidateFound <$> cs.

(** ** The flag and the description *)

(** If the connection in the ref has a remote description,
    [hasRemoteDescriptionRef] is true. *)
Definition flag_covers_description (w : World) : Prop :=
  ∀ p, peerConnectionRef w = Some p → is_Some (remoteDescription p) →
    hasRemoteDescriptionRef w = true.

Definition keeps_flag (w w' : World) : Prop :=
  flag_covers_description w → flag_covers_description w'.

(** ** Descriptions that are sent *)

(** The description an emission carries, if it is an offer or an answer. *)
Definition sent_description (e : Effect) : option Descriptor :=
  match e with
  | Emit (SendOffer _ d) | Emit (SendAnswer _ d) => Some d
  | _ => None
  end.

(** Every offer and answer sent in [t] comes right after the call that made
    it the local description; [prev] is the call before [t]. *)
Fixpoint installed_before_sent (prev : option Effect) (t : list Effect)
    : bool :=
  match t with
  | [] => true
  | e :: t' =>
      match sent_description e with
      | Some d => bool_decide (prev = Some (SetLocalDescription d))
      | None => true
      end && installed_before_sent (Some e) t'
  end.

Definition sends_installed (w w' : World) : Prop :=
  ∃ l, trace w' = trace w ++ l ∧ installed_before_sent None l = true.

(** ** What the page shows of the peer *)

(** The events that reset or rewrite what is known of the peer's microphone
    and camera: a media-state event, the peer leaving, the session ending. *)
Definition resets_peer_media (e : Event) : bool :=
  match e with
  | MediaState _ | UserLeft | SessionEnded _ | CallEndSession => true
  | _ => false
  end.

Definition same_peer_media (w w' : World) : Prop :=
  peerMediaState (state w') = peerMediaState (state w).

(** ** The signaling handlers, with their [await]s

    [handleOffer], [handleAnswer] and [handleIceCandidate] are [async]
    functions.  At an [await] the handler is suspended until the promise
    settles, and the socket may deliver the next signal before that; [step]
    is the course of events in which it does not.

    A handler that waits is a tree: a computation that is run at once and
    what follows its completion ([Sync]), a point where the handler is
    suspended ([Suspended]), the end of the handler ([Settled]). *)

Inductive Async (A : Type) : Type :=
  | Settled (c : Completion A)
  | Sync {B : Type} (m : Js B) (k : Completion B → Async A)
  | Suspended (k : Async A).
Arguments Settled {A} c.
Arguments Sync {A B} m k.
Arguments Suspended {A} k.

Fixpoint Async_then {A B} (f : A → Async B) (t : Async A) : Async B :=
  match t with
  | Settled (Normal a) => f a
  | Settled (Throw e) => Settled (Throw e)
  | Sync m k => Sync m (λ c, Async_then f (k c))
  | Suspended k => Suspended (Async_then f k)
  end.

#[global] Instance Async_ret : MRet Async := λ A a, Settled (Normal a).
#[global] Instance Async_bind : MBind Async := @Async_then.

(** A computation that does not wait. *)
Definition sync {A} (m : Js A) : Async A := Sync m Settled.

(** [await m]: the call [m] is made and the handler is suspended; when it is
    resumed it gets what the promise of the call settled with, a value or a
    rejection that is thrown at the [await].  As in [step], the engine's
    answer is fixed when the call is made, and what the call changes in the
    connection is there when the call returns. *)
Definition await {A} (m : Js A) : Async A :=
  Sync m (λ c, Suspended (Settled c)).

(** [try { body } catch (e) { handler e }] around [await]s *)
Fixpoint try_catch_async {A} (body : Async A) (handler : Exn → Async A)
    : Async A :=
  match body with
  | Settled (Normal a) => Settled (Normal a)
  | Settled (Throw e) => handler e
  | Sync m k => Sync m (λ c, try_catch_async (k c) handler)
  | Suspended k => Suspended (try_catch_async k handler)
  end.

(** [for (const x of l) { body x }] with [await]s in the body *)
Fixpoint for_of_async {A} (l : list A) (body : A → Async unit) : Async unit :=
  match l with
  | [] => mret ()
  | x :: l' => body x;; for_of_async l' body
  end.

(** Run a handler up to its next [await], or to its end. *)
Fixpoint advance {A} (t : Async A) (w : World) : Async A * World :=
  match t with
  | Sync m k => let (c, w') := m w in advance (k c) w'
  | _ => (t, w)
  end.

(** Run a handler to its end, every promise settling before anything else
    happens. *)
Fixpoint uninterrupted {A} (t : Async A) : Js A :=
  match t with
  | Settled c => λ w, (c, w)
  | Sync m k => λ w, let (c, w') := m w in uninterrupted (k c) w'
  | Suspended k => uninterrupted k
  end.

(** The three handlers, and the page on which they take turns.  No other
    event of the hook is a turn here, so that the connection in
    [peerConnectionRef] is the [pc] a suspended handler holds: none of the
    three handlers puts another one there.

    The loop of the flush runs over the array in [iceCandidatesQueueRef].
    The array is pushed to only while the flag is false, and the loop starts
    when the flag has been raised, which none of the three handlers undoes
    ([raised_flag_stays]): the array does not grow while the loop runs, and
    an array that another handler has replaced by an empty one meanwhile is
    still the one the loop runs over.  So the loop is over the queue as it is
    read when the loop starts. *)
Module Interleaved.
Section Hooks.

Variable env : Browser.
Variable sessionId : string.

Definition handleOffer (data : OfferData) : Async unit :=
  try_catch_async
    (pc ← sync (gets peerConnectionRef);
     match pc with
     | None => mret ()
     | Some _ =>
         await (pc_setRemoteDescription env (offer data));;
         sync (modify (set_hasRemoteDescriptionRef true));;
         queue ← sync (gets iceCandidatesQueueRef);
         for_of_async queue (λ c, await (pc_addIceCandidate env c));;
         sync (modify (set_iceCandidatesQueueRef []));;
         answer ← await (pc_createAnswer env);
         await (pc_setLocalDescription env answer);;
         sync (sendAnswer sessionId answer);;
         sync (setState
                 (set_peerDisplayName (Some (displayName (offer_from data)))))
     end)
    (λ _, sync (onError "Failed to handle incoming call")).

Definition handleAnswer (data : AnswerData) : Async unit :=
  try_catch_async
    (pc ← sync (gets peerConnectionRef);
     match pc with
     | None => mret ()
     | Some _ =>
         await (pc_setRemoteDescription env (answer data));;
         sync (modify (set_hasRemoteDescriptionRef true));;
         queue ← sync (gets iceCandidatesQueueRef);
         for_of_async queue (λ c, await (pc_addIceCandidate env c));;
         sync (modify (set_iceCandidatesQueueRef []));;
         sync (setState
                 (set_peerDisplayName (Some (displayName (answer_from data)))))
     end)
    (λ _, sync (onError "Failed to establish connection")).

Definition handleIceCandidate (data : IceCandidateData) : Async unit :=
  try_catch_async
    (pc ← sync (gets peerConnectionRef);
     match pc with
     | None => mret ()
     | Some _ =>
         has ← sync (gets hasRemoteDescriptionRef);
         if negb has
         then sync (modify (λ w, set_iceCandidatesQueueRef
                               (iceCandidatesQueueRef w ++ [candidate data]) w))
         else await (pc_addIceCandidate env (candidate data))
     end)
    (λ _, mret ()).

(** The page: the world, and the handlers that are suspended at an [await],
    in the order in which they were suspended. *)
Record Page := { world : World; suspended : list (Async unit) }.

(** What happens next on the page: the socket delivers a signal, or the
    promise settles that the [i]-th suspended handler waits for. *)
Inductive Turn :=
  | OfferArrives (data : OfferData)
  | AnswerArrives (data : AnswerData)
  | CandidateArrives (data : IceCandidateData)
  | PromiseSettles (i : nat).

(** A handler runs up to its next [await] and React renders. *)
Definition proceed (t : Async unit) (pg : Page) : Page :=
  match advance t (world pg) with
  | (Suspended k, w) =>
      {| world := exec rerender w; suspended := suspended pg ++ [k] |}
  | (_, w) => {| world := exec rerender w; suspended := suspended pg |}
  end.

Definition turn (pg : Page) (t : Turn) : Page :=
  match t with
  | OfferArrives data => proceed (handleOffer data) pg
  | AnswerArrives data => proceed (handleAnswer data) pg
  | CandidateArrives data => proceed (handleIceCandidate data) pg
  | PromiseSettles i =>
      match suspended pg !! i with
      | Some k =>
          proceed k
            {| world := world pg; suspended := delete i (suspended pg) |}
      | None => pg
      end
  end.

Definition play (ts : list Turn) (pg : Page) : Page := foldl turn pg ts.

End Hooks.
End Interleaved.

(** The page in world [w] with no handler under way. *)
Definition idle (w : World) : Interleaved.Page :=
  {| Interleaved.world := w; Interleaved.suspended := [] |}.

(** Ann's page when she joined first and made her offer on
    ready-to-connect. *)
Definition offered : World :=
  run ideal_browser "session-1" (Some "Ann")
    [SessionJoined (relay_join_ack "session-1" [] "ann"); ReadyToConnect]
    started.

Definition candidate_arrives (c : Candidate) : Interleaved.Turn :=
  Interleaved.CandidateArrives {| candidate := c; candidate_from := bob |}.
Definition offer_arrives (d : Descriptor) : Interleaved.Turn :=
  Interleaved.OfferArrives {| offer := d; offer_from := bob |}.
Definition answer_arrives (d : Descriptor) : Interleaved.Turn :=
  Interleaved.AnswerArrives {| answer := d; answer_from := bob |}.

(** ** The flush while other signals come in *)

(** A handler that waits changes the world only within [R], now and
    whenever it is resumed. *)
Fixpoint keeps (R : relation World) {A} (t : Async A) : Prop :=
  match t with
  | Settled _ => True
  | Sync m k => frames R m ∧ ∀ c, keeps R (k c)
  | Suspended k => keeps R k
  end.

(** From [w] to [w'] nothing happened to the candidates: the flag, the queue,
    the candidates and the remote description of the connection are the
    same, and no candidate was handed to the connection. *)
Definition beside_candidates (w w' : World) : Prop :=
  hasRemoteDescriptionRef w' = hasRemoteDescriptionRef w ∧
  iceCandidatesQueueRef w' = iceCandidatesQueueRef w ∧
  remoteCandidates <$> peerConnectionRef w'
    = remoteCandidates <$> peerConnectionRef w ∧
  remoteDescription <$> peerConnectionRef w'
    = remoteDescription <$> peerConnectionRef w ∧
  ∃ l, trace w' = trace w ++ l ∧ ice_calls l = [].





Section Flush.

Variable env : Browser.


(** What is left of them when the remote description is set. *)
Definition described_rest (fin : Async unit) (h : Exn → Async unit)
    : Async unit :=
  try_catch_async
    (sync (modify (set_hasRemoteDescriptionRef true));;
     queue ← sync (gets iceCandidatesQueueRef);
     for_of_async queue (λ c, await (pc_addIceCandidate env c));;
     sync (modify (set_iceCandidatesQueueRef []));;
     fin)
    h.

(** The exchange started in world [w0] with connection [p]. *)
Variable w0 : World.
Variable p : RTCPeerConnection.



End Flush.

(** Once raised the flag is not lowered. *)
Definition flag_stays_raised (w w' : World) : Prop :=
  hasRemoteDescriptionRef w = true → hasRemoteDescriptionRef w' = true.

(** From [w], where the connection has a remote description, to [w'], where
    it has one too, the connection has taken every candidate it was handed. *)
Definition candidates_taken (w w' : World) : Prop :=
  ∀ p, peerConnectionRef w = Some p → is_Some (remoteDescription p) →
    ∃ p' l,
      peerConnectionRef w' = Some p' ∧
      is_Some (remoteDescription p') ∧
      trace w' = trace w ++ l ∧
      remoteCandidates p' = remoteCandidates p ++ ice_calls l.

(** Where the exchange started in [w0] with connection [p] stands, whatever
    the engine answers: no description has been taken and no candidate
    handed over; or the connection has a remote description and has taken
    every candidate it was handed. *)
Inductive Safe (w0 : World) (p : RTCPeerConnection) (pg : Interleaved.Page)
    : Prop :=
  | Early p' l :
      hasRemoteDescriptionRef (Interleaved.world pg) = false →
      Forall (keeps beside_candidates) (Interleaved.suspended pg) →
      peerConnectionRef (Interleaved.world pg) = Some p' →
      trace (Interleaved.world pg) = trace w0 ++ l →
      ice_calls l = [] →
      remoteCandidates p' = remoteCandidates p →
      Safe w0 p pg
  | Late p' l :
      Forall (keeps candidates_taken) (Interleaved.suspended pg) →
      peerConnectionRef (Interleaved.world pg) = Some p' →
      is_Some (remoteDescription p') →
      trace (Interleaved.world pg) = trace w0 ++ l →
      remoteCandidates p' = remoteCandidates p ++ ice_calls l →
      Safe w0 p pg.

(** * The route guard ([src/middleware.ts]) *)

(** Routes that require authentication, and routes that send an
    authenticated user to the dashboard. *)
Definition protectedRoutes : list string :=
  ["/dashboard"; "/skills/create"; "/skills/my"; "/requests"; "/profile";
   "/session"].

Definition authRoutes : list string := ["/login"].

(** [s.startsWith(p)] *)
Definition startsWith (s p : string) : bool := String.prefix p s.

(** What the middleware answers: a redirect to a path of the same origin,
    with its query parameters, or [NextResponse.next()]. *)
Inductive NextResponse :=
  | Redirect (pathname : string) (searchParams : list (string * string))
  | Next.

(** [middleware(request)], with [request.nextUrl.pathname] and the value of
    the cookie "jwt_token" of the request, if it has one.  A cookie object is
    truthy whatever its value. *)
Definition middleware (pathname : string) (token : option string)
    : NextResponse :=
  let isAuthenticated := bool_decide (is_Some token) in
  let isProtectedRoute :=
    existsb (λ route, startsWith pathname route) protectedRoutes in
  let isAuthRoute :=
    existsb (λ route, startsWith pathname route) authRoutes in
  if isProtectedRoute && negb isAuthenticated
  then Redirect "/login" [("redirect", pathname)]
  else if isAuthRoute && isAuthenticated
  then Redirect "/dashboard" []
  else Next.

(** Symbolic execution on a world given by its fields: unfold the monad, the
    setters and the projections; lists and loops are left alone. *)
Ltac js_eval :=
  cbv beta iota zeta delta
    [mbind mret Js_bind Js_ret gets modify log when setState throw try_catch
     try_finally exec completion rerender fst snd
     set_state set_chatMessages set_peerConnectionRef set_localStreamRef
     set_cameraStreamRef set_screenStreamRef set_isInitiatorRef
     set_iceCandidatesQueueRef set_hasRemoteDescriptionRef set_mediaEnabledRef
     set_socketRef set_isConnected set_connectionError set_tracks set_timers
     set_trace
     state chatMessages peerConnectionRef localStreamRef cameraStreamRef
     screenStreamRef isInitiatorRef iceCandidatesQueueRef
     hasRemoteDescriptionRef mediaEnabledRef socketRef isConnected
     connectionError tracks timers trace
     set_senders set_remoteDescription set_localDescription
     set_remoteCandidates senders remoteDescription localDescription
     remoteCandidates
     set_localStream set_remoteStream set_isAudioEnabled set_isVideoEnabled
     set_isScreenSharing set_connectionState set_isInitiator
     set_peerDisplayName set_peerMediaState
     localStream remoteStream isAudioEnabled isVideoEnabled isScreenSharing
     connectionState isInitiator peerDisplayName peerMediaState
     on_pc update_pc emit option_map option_bind negb].

(** Read the fields of the worlds given by their fields, everywhere. *)
Ltac js_fields :=
  cbn beta iota delta
    [state chatMessages peerConnectionRef localStreamRef cameraStreamRef
     screenStreamRef isInitiatorRef iceCandidatesQueueRef
     hasRemoteDescriptionRef mediaEnabledRef socketRef isConnected
     connectionError tracks timers trace
     senders remoteDescription localDescription remoteCandidates
     localStream remoteStream isAudioEnabled isVideoEnabled isScreenSharing
     connectionState isInitiator peerDisplayName peerMediaState] in *.

(** Replace a world by its fields. *)
Ltac js_world w :=
  destruct w;
  repeat match goal with s : WebRTCState |- _ => destruct s end;
  js_fields; simplify_eq.

(** * Properties *)

(** ** Running the monad *)

Lemma run_bind {A B} (m : Js A) (f : A → Js B) w a w' :
  m w = (Normal a, w') → (m ≫= f) w = f a w'.
Proof. intros H. unfold mbind, Js_bind. by rewrite H. Qed.

Lemma run_gets {A B} (g : World → A) (f : A → Js B) w :
  (gets g ≫= f) w = f (g w) w.
Proof. done. Qed.

Lemma run_modify {B} (g : World → World) (f : unit → Js B) w :
  (modify g ≫= f) w = f () (g w).
Proof. done. Qed.

(** ** No peer connection: the negotiation handlers do nothing *)

(** C10. With no peer connection object in [peerConnectionRef], the offer,
    answer and ICE-candidate handlers return normally and leave the whole
    world as it was: the candidate is not enqueued, no answer is created or
    sent, and [hasRemoteDescriptionRef] keeps its value. *)
Theorem handlers_without_peer_connection
    (env : Browser) (sessionId : string) (w : World)
    (o : OfferData) (a : AnswerData) (c : IceCandidateData) :
  peerConnectionRef w = None →
  handleOffer env sessionId o w = (Normal (), w) ∧
  handleAnswer env a w = (Normal (), w) ∧
  handleIceCandidate env c w = (Normal (), w).
Proof.
  intros Hpc.
  unfold handleOffer, handleAnswer, handleIceCandidate, try_catch.
  rewrite !run_gets, Hpc. done.
Qed.

Lemma handlers_without_peer_connection_witness :
  let w := run ideal_browser "session-1" (Some "Ann") [UserLeft] started in
  let o := {| offer := 7; offer_from := bob |} in
  let a := {| answer := 8; answer_from := bob |} in
  let c := {| candidate := 1; candidate_from := bob |} in
  peerConnectionRef w = None ∧
  handleOffer ideal_browser "session-1" o w = (Normal (), w) ∧
  handleAnswer ideal_browser a w = (Normal (), w) ∧
  handleIceCandidate ideal_browser c w = (Normal (), w).
Proof.
  split; [reflexivity|].
  apply (handlers_without_peer_connection ideal_browser "session-1").
  reflexivity.
Defined.

(** ** The candidate buffer *)

Section CandidateBuffer.

Variable env : Browser.
Variable sessionId : string.
Variable selfDisplayName : option string.
Hypothesis remote_ok : accepts_remote_descriptions env.
Hypothesis candidates_ok : accepts_candidates_after_description env.

Lemma addIceCandidate_accepted c w p :
  peerConnectionRef w = Some p →
  is_Some (remoteDescription p) →
  pc_addIceCandidate env c w =
    (Normal (),
     set_trace (trace w ++ [AddIceCandidate c])
       (set_peerConnectionRef
          (Some (set_remoteCandidates (remoteCandidates p ++ [c]) p)) w)).
Proof using candidates_ok.
  intros Hpc Hrd. js_world w. unfold pc_addIceCandidate. js_eval.
  by rewrite (candidates_ok p c Hrd).
Qed.

Lemma flush_queue queue : ∀ w p,
  peerConnectionRef w = Some p →
  is_Some (remoteDescription p) →
  for_of queue (pc_addIceCandidate env) w =
    (Normal (),
     set_trace (trace w ++ (AddIceCandidate <$> queue))
       (set_peerConnectionRef
          (Some (set_remoteCandidates (remoteCandidates p ++ queue) p)) w)).
Proof using candidates_ok.
  induction queue as [|c queue IH]; intros w p Hpc Hrd.
  - js_world w. destruct p. cbn [for_of fmap list_fmap]. js_eval.
    by rewrite !app_nil_r.
  - cbn [for_of].
    erewrite run_bind by by apply addIceCandidate_accepted.
    erewrite IH; [|js_world w; reflexivity|done].
    js_world w. destruct p. js_eval. cbn [fmap list_fmap].
    by rewrite <-!app_assoc.
Qed.

Lemma ice_calls_app t1 t2 : ice_calls (t1 ++ t2) = ice_calls t1 ++ ice_calls t2.
Proof. apply omap_app. Qed.

Lemma ice_calls_AddIceCandidate cs : ice_calls (AddIceCandidate <$> cs) = cs.
Proof.
  induction cs as [|c cs IH]; [done|].
  unfold ice_calls in *. simpl. by f_equal.
Qed.

Lemma step_candidate_buffered w p data :
  peerConnectionRef w = Some p →
  hasRemoteDescriptionRef w = false →
  handleIceCandidate env data w =
    (Normal (),
     set_iceCandidatesQueueRef (iceCandidatesQueueRef w ++ [candidate data]) w).
Proof.
  intros Hpc Hflag. js_world w. unfold handleIceCandidate. by js_eval.
Qed.

Lemma step_candidate_applied w p data :
  peerConnectionRef w = Some p →
  hasRemoteDescriptionRef w = true →
  is_Some (remoteDescription p) →
  handleIceCandidate env data w =
    (Normal (),
     set_trace (trace w ++ [AddIceCandidate (candidate data)])
       (set_peerConnectionRef
          (Some (set_remoteCandidates
                   (remoteCandidates p ++ [candidate data]) p)) w)).
Proof using candidates_ok.
  intros Hpc Hflag Hrd. unfold handleIceCandidate, try_catch.
  rewrite run_gets, Hpc, run_gets, Hflag. cbn [negb].
  by rewrite (addIceCandidate_accepted _ _ p).
Qed.

Lemma setRemoteDescription_accepted d w p :
  peerConnectionRef w = Some p →
  pc_setRemoteDescription env d w =
    (Normal (),
     set_peerConnectionRef (Some (set_remoteDescription (Some d) p))
       (set_trace (trace w ++ [SetRemoteDescription d]) w)).
Proof using remote_ok.
  intros Hpc. js_world w. unfold pc_setRemoteDescription. js_eval.
  by rewrite (remote_ok p d).
Qed.

Lemma description_and_flush {A} d (k : Js A) w p :
  peerConnectionRef w = Some p →
  (pc_setRemoteDescription env d;;
   modify (set_hasRemoteDescriptionRef true);;
   queue ← gets iceCandidatesQueueRef;
   for_of queue (pc_addIceCandidate env);;
   modify (set_iceCandidatesQueueRef []);;
   k) w = k (flushed d p w).
Proof using remote_ok candidates_ok.
  intros Hpc.
  erewrite run_bind by by apply setRemoteDescription_accepted.
  rewrite !run_modify, run_gets.
  erewrite run_bind;
    [|apply flush_queue with (p := set_remoteDescription (Some d) p);
      [js_world w; reflexivity|by eexists]].
  rewrite run_modify. f_equal.
  js_world w. destruct p. unfold flushed. js_eval. by rewrite <-app_assoc.
Qed.

Lemma handleAnswer_flushes w p data :
  peerConnectionRef w = Some p →
  handleAnswer env data w =
    (Normal (),
     set_state (set_peerDisplayName (Some (displayName (answer_from data)))
                  (state w))
       (flushed (answer data) p w)).
Proof using remote_ok candidates_ok.
  intros Hpc. unfold handleAnswer, try_catch.
  rewrite run_gets, Hpc. cbn beta iota.
  by rewrite (description_and_flush _ _ _ p).
Qed.

(** After an offer: what is left of the handler once the queue is flushed
    (creating, storing and sending the answer) touches neither the queue, nor
    the flag, nor the candidates of the connection. *)
Lemma handleOffer_flushes w p data :
  peerConnectionRef w = Some p →
  ∃ w' p' l,
    handleOffer env sessionId data w = (Normal (), w') ∧
    peerConnectionRef w' = Some p' ∧
    remoteCandidates p' = remoteCandidates p ++ iceCandidatesQueueRef w ∧
    remoteDescription p' = Some (offer data) ∧
    iceCandidatesQueueRef w' = [] ∧
    hasRemoteDescriptionRef w' = true ∧
    trace w' = trace w ++ SetRemoteDescription (offer data)
                 :: (AddIceCandidate <$> iceCandidatesQueueRef w) ++ l ∧
    ice_calls l = [].
Proof using remote_ok candidates_ok.
  intros Hpc. unfold handleOffer, try_catch.
  rewrite run_gets, Hpc. cbn beta iota.
  rewrite (description_and_flush _ _ _ p) by done.
  js_world w. destruct p.
  unfold flushed, pc_createAnswer, pc_setLocalDescription, sendAnswer, onError.
  js_eval.
  destruct (createAnswer_result env _) as [a|].
  - destruct (setLocalDescription_ok env _ a).
    + destruct socketRef0.
      * eexists _, _, [CreateAnswer; SetLocalDescription a;
                       Emit (SendAnswer sessionId a)].
        split; [reflexivity|]. js_eval.
        repeat split; try done. by rewrite <-!app_assoc.
      * eexists _, _, [CreateAnswer; SetLocalDescription a].
        split; [reflexivity|]. js_eval.
        repeat split; try done. by rewrite <-!app_assoc.
    + eexists _, _, [CreateAnswer; SetLocalDescription a;
                     OnError "Failed to handle incoming call"].
      split; [reflexivity|]. js_eval.
      repeat split; try done. by rewrite <-!app_assoc.
  - eexists _, _, [CreateAnswer; OnError "Failed to handle incoming call"].
    split; [reflexivity|]. js_eval.
    repeat split; try done. by rewrite <-!app_assoc.
Qed.

Lemma step_handler e w w' :
  handler env sessionId selfDisplayName e w = (Normal (), w') →
  step env sessionId selfDisplayName w e =
    set_mediaEnabledRef (isAudioEnabled (state w'), isVideoEnabled (state w')) w'.
Proof. intros H. unfold step, exec. by rewrite (run_bind _ _ _ _ _ H). Qed.

Lemma run_snoc es e w :
  run env sessionId selfDisplayName (es ++ [e]) w =
  step env sessionId selfDisplayName (run env sessionId selfDisplayName es w) e.
Proof. unfold run. by rewrite foldl_app. Qed.

(** X28. The handlers running one at a time (every promise settles before the
    next signal is delivered): start from any world with a peer connection and
    [hasRemoteDescriptionRef] false, and let any sequence of offers, answers
    and ICE candidates arrive, the engine taking every remote description and
    every candidate offered after one. As long as no offer or answer has
    arrived, every candidate is appended to the queue in arrival order and
    nothing is handed to the connection (the trace does not grow). Once one
    has arrived, the queue is empty and stays empty, and the candidates handed
    to the connection are exactly the queued and the later ones, each once and
    in arrival order; the first call of the whole exchange is the
    [setRemoteDescription], so every candidate comes after it. *)
Theorem candidate_buffer_fifo w0 p es :
  peerConnectionRef w0 = Some p →
  hasRemoteDescriptionRef w0 = false →
  forallb negotiation_event es = true →
  ∃ p' l,
    let w := run env sessionId selfDisplayName es w0 in
    peerConnectionRef w = Some p' ∧
    trace w = trace w0 ++ l ∧
    hasRemoteDescriptionRef w = described es ∧
    if described es then
      iceCandidatesQueueRef w = [] ∧
      remoteCandidates p' =
        remoteCandidates p ++ iceCandidatesQueueRef w0 ++ arrived es ∧
      ice_calls l = iceCandidatesQueueRef w0 ++ arrived es ∧
      is_Some (remoteDescription p') ∧
      (∃ d l', l = SetRemoteDescription d :: l')
    else
      iceCandidatesQueueRef w = iceCandidatesQueueRef w0 ++ arrived es ∧
      p' = p ∧ l = [].
Proof using remote_ok candidates_ok.
  intros Hpc Hflag. induction es as [|e es IH] using rev_ind; intros Hes.
  { exists p, []. simpl. rewrite !app_nil_r. done. }
  rewrite forallb_app in Hes. apply andb_prop in Hes as [Hes He].
  destruct (IH Hes) as (p' & l & Hpc' & Htr & Hfl & Hrest). clear IH.
  cbn zeta in *.
  rewrite run_snoc. unfold described, arrived in *.
  rewrite existsb_app, omap_app.
  remember (run env sessionId selfDisplayName es w0) as W eqn:HW. clear HW.
  destruct e; try discriminate He; clear He; cbn [existsb omap].
  - (* offer *)
    destruct (handleOffer_flushes W p' data Hpc')
      as (w' & p'' & l2 & Hrun & Hpc'' & Hrc & Hrd & Hq & Hf & Htr2 & Hice).
    rewrite (step_handler (Offer data) _ _ Hrun).
    rewrite orb_true_r, app_nil_r.
    exists p'', (l ++ SetRemoteDescription (offer data)
                   :: (AddIceCandidate <$> iceCandidatesQueueRef W) ++ l2).
    clear Hrun Hpc' Hflag.
    assert (ice_calls (l ++ SetRemoteDescription (offer data)
              :: (AddIceCandidate <$> iceCandidatesQueueRef W) ++ l2)
            = ice_calls l ++ iceCandidatesQueueRef W) as Hcalls.
    { rewrite ice_calls_app. f_equal.
      change (ice_calls ((AddIceCandidate <$> iceCandidatesQueueRef W) ++ l2)
              = iceCandidatesQueueRef W).
      by rewrite ice_calls_app, ice_calls_AddIceCandidate, Hice, app_nil_r. }
    rewrite Hcalls. clear Hcalls Hice.
    destruct (existsb _ es).
    + destruct Hrest as (HqW & HrcW & HiceW & _ & d & l' & ->).
      js_world w'. js_world W. js_world w0. js_world p''. js_world p'.
      js_eval. rewrite HiceW, ?app_nil_r, <-?app_assoc.
      repeat split; eauto.
    + destruct Hrest as (HqW & -> & ->).
      js_world w'. js_world W. js_world w0. js_world p''. js_world p.
      js_eval. rewrite ?app_nil_r, <-?app_assoc.
      repeat split; eauto.
  - (* answer *)
    pose proof (handleAnswer_flushes W p' data Hpc') as Hrun.
    rewrite (step_handler (Answer data) _ _ Hrun).
    rewrite orb_true_r, app_nil_r.
    exists (set_remoteCandidates (remoteCandidates p' ++ iceCandidatesQueueRef W)
              (set_remoteDescription (Some (answer data)) p')),
           (l ++ SetRemoteDescription (answer data)
              :: (AddIceCandidate <$> iceCandidatesQueueRef W)).
    clear Hrun Hflag.
    assert (ice_calls (l ++ SetRemoteDescription (answer data)
              :: (AddIceCandidate <$> iceCandidatesQueueRef W))
            = ice_calls l ++ iceCandidatesQueueRef W) as Hcalls.
    { rewrite ice_calls_app. f_equal.
      change (ice_calls (AddIceCandidate <$> iceCandidatesQueueRef W)
              = iceCandidatesQueueRef W).
      by rewrite ice_calls_AddIceCandidate. }
    rewrite Hcalls. clear Hcalls.
    destruct (existsb _ es).
    + destruct Hrest as (HqW & HrcW & HiceW & _ & d & l' & ->).
      js_world W. js_world w0. js_world p'.
      unfold flushed. js_eval. rewrite HiceW, ?app_nil_r, <-?app_assoc.
      repeat split; eauto.
    + destruct Hrest as (HqW & -> & ->).
      js_world W. js_world w0. js_world p.
      unfold flushed. js_eval. rewrite ?app_nil_r, <-?app_assoc.
      repeat split; eauto.
  - (* candidate *)
    rewrite orb_false_r.
    destruct (existsb _ es).
    + destruct Hrest as (HqW & HrcW & HiceW & Hrd & d & l' & ->).
      pose proof (step_candidate_applied W p' data Hpc' Hfl Hrd) as Hrun.
      rewrite (step_handler (IceCandidate data) _ _ Hrun).
      exists (set_remoteCandidates (remoteCandidates p' ++ [candidate data]) p'),
             ((SetRemoteDescription d :: l') ++ [AddIceCandidate (candidate data)]).
      clear Hrun Hflag. rewrite ice_calls_app, HiceW.
      js_world W. js_world w0. js_world p'. js_eval.
      rewrite <-?app_assoc. repeat split; eauto.
    + destruct Hrest as (HqW & -> & ->).
      pose proof (step_candidate_buffered W p data Hpc' Hfl) as Hrun.
      rewrite (step_handler (IceCandidate data) _ _ Hrun).
      exists p, []. clear Hrun Hflag. js_world W. js_world w0. js_eval.
      rewrite <-?app_assoc, ?app_nil_r. done.
Qed.

End CandidateBuffer.

(** ** The ideal browser meets the assumptions *)

Lemma ideal_accepts_remote_descriptions :
  accepts_remote_descriptions ideal_browser.
Proof. by intros p d. Qed.

Lemma ideal_accepts_candidates :
  accepts_candidates_after_description ideal_browser.
Proof. intros p c Hrd. simpl. by apply bool_decide_eq_true_2. Qed.

Lemma ideal_creates_answer : creates_answer ideal_browser 200.
Proof. by intros p. Qed.

Lemma ideal_creates_offer : creates_offer ideal_browser 100.
Proof. by intros p. Qed.

Lemma ideal_accepts_local_descriptions :
  accepts_local_descriptions ideal_browser.
Proof. by intros p d. Qed.

(** Three candidates before the answer, one after. *)
Lemma candidate_buffer_fifo_witness :
  let es := [candidate_from_bob 1; candidate_from_bob 2; candidate_from_bob 3;
             answer_from_bob 9; candidate_from_bob 4] in
  let p := {| senders := [ {| kind := AudioKind; track_no := 0 |};
                           {| kind := VideoKind; track_no := 1 |} ];
              remoteDescription := None; localDescription := None;
              remoteCandidates := [] |} in
  peerConnectionRef started = Some p ∧
  hasRemoteDescriptionRef started = false ∧
  forallb negotiation_event es = true ∧
  ∃ p' l,
    let w := run ideal_browser "session-1" (Some "Ann") es started in
    peerConnectionRef w = Some p' ∧
    trace w = trace started ++ l ∧
    hasRemoteDescriptionRef w = described es ∧
    if described es then
      iceCandidatesQueueRef w = [] ∧
      remoteCandidates p' =
        remoteCandidates p ++ iceCandidatesQueueRef started ++ arrived es ∧
      ice_calls l = iceCandidatesQueueRef started ++ arrived es ∧
      is_Some (remoteDescription p') ∧
      (∃ d l', l = SetRemoteDescription d :: l')
    else
      iceCandidatesQueueRef w = iceCandidatesQueueRef started ++ arrived es ∧
      p' = p ∧ l = [].
Proof.
  intros es p.
  split; [reflexivity|]. split; [reflexivity|]. split; [reflexivity|].
  apply (candidate_buffer_fifo ideal_browser "session-1" (Some "Ann")
           ideal_accepts_remote_descriptions ideal_accepts_candidates
           started p es); reflexivity.
Defined.

(** Outside the assumption of [candidate_buffer_fifo]: when the engine
    refuses a queued candidate the flush stops at it, the handler reports the
    error, and the queue is kept as it was; a second offer hands the whole
    queue to the engine again. *)
Remark refused_candidate_keeps_queue :
  let w := run picky_browser "session-1" (Some "Ann")
             [candidate_from_bob 1; candidate_from_bob 2; offer_from_bob 7]
             started in
  let w' := run picky_browser "session-1" (Some "Ann") [offer_from_bob 8] w in
  iceCandidatesQueueRef w = [1; 2] ∧
  hasRemoteDescriptionRef w = true ∧
  ice_calls (trace w) = [1; 2] ∧
  (remoteCandidates <$> peerConnectionRef w) = Some [1] ∧
  ice_calls (trace w') = [1; 2; 1; 2] ∧
  (remoteCandidates <$> peerConnectionRef w') = Some [1; 1].
Proof. vm_compute. repeat split; reflexivity. Qed.

(** C2 (amended). [handleOffer] with a peer connection and a socket does,
    in this order: apply the offer as remote description, mark the flag,
    flush the queue in arrival order, then create, store and send the answer.
    If the engine refuses the offer, only [setRemoteDescription] is called,
    the error is reported, and the flag and the queue are as before.  If it
    takes the offer and refuses the first queued candidate, the flag is
    already true and no answer is created.  If the engine takes the offer
    and the candidates and makes the answer, the calls are
    [setRemoteDescription], [addIceCandidate] for every queued candidate in
    arrival order, [createAnswer], [setLocalDescription] and the emission of
    the answer; the flag is true, the queue empty, the offer the remote and
    the answer the local description. *)
Theorem handleOffer_steps
    (env : Browser) (sid : string) (w : World) (p : RTCPeerConnection)
    (s : Socket) (data : OfferData) :
  peerConnectionRef w = Some p →
  socketRef w = Some s →
  let d := offer data in
  let w' := exec (handleOffer env sid data) w in
  (setRemoteDescription_ok env p d = false →
     trace w' = trace w ++ [SetRemoteDescription d;
                            OnError "Failed to handle incoming call"] ∧
     hasRemoteDescriptionRef w' = hasRemoteDescriptionRef w ∧
     iceCandidatesQueueRef w' = iceCandidatesQueueRef w) ∧
  (∀ c q,
     setRemoteDescription_ok env p d = true →
     iceCandidatesQueueRef w = c :: q →
     addIceCandidate_ok env (set_remoteDescription (Some d) p) c = false →
     trace w' = trace w ++ [SetRemoteDescription d; AddIceCandidate c;
                            OnError "Failed to handle incoming call"] ∧
     hasRemoteDescriptionRef w' = true) ∧
  (∀ a,
     accepts_remote_descriptions env →
     accepts_candidates_after_description env →
     creates_answer env a →
     accepts_local_descriptions env →
     trace w' =
       trace w ++ SetRemoteDescription d
         :: (AddIceCandidate <$> iceCandidatesQueueRef w)
         ++ [CreateAnswer; SetLocalDescription a; Emit (SendAnswer sid a)] ∧
     hasRemoteDescriptionRef w' = true ∧
     iceCandidatesQueueRef w' = [] ∧
     peerConnectionRef w' =
       Some {| senders := senders p;
               remoteDescription := Some d;
               localDescription := Some a;
               remoteCandidates :=
                 remoteCandidates p ++ iceCandidatesQueueRef w |}).
Proof.
  intros Hpc Hsock d w'. subst d w'. split; [|split].
  - intros Hrefused. js_world w. destruct p. js_fields.
    unfold handleOffer, pc_setRemoteDescription, onError. js_eval.
    rewrite Hrefused. js_eval. by rewrite <-app_assoc.
  - intros c q Htaken Hqueue Hrefused. js_world w. destruct p.
    unfold set_remoteDescription in Hrefused. js_fields.
    unfold handleOffer, pc_setRemoteDescription, onError. js_eval.
    rewrite Htaken. js_eval. cbn [for_of]. unfold pc_addIceCandidate.
    js_eval. rewrite Hrefused. js_eval. by rewrite <-!app_assoc.
  - intros a Hremote Hcand Hans Hloc. unfold exec, handleOffer, try_catch.
    rewrite run_gets, Hpc. cbn beta iota.
    rewrite (description_and_flush env Hremote Hcand _ _ _ p) by done.
    js_world w. destruct p.
    unfold flushed, pc_createAnswer, pc_setLocalDescription, sendAnswer.
    js_eval. rewrite Hans, Hloc. by rewrite <-!app_assoc.
Qed.

(** C2, as stated, fails: with one candidate queued, the answer is not sent
    before the queue is flushed; the calls are not those of
    [offer_steps_as_specified]. *)
Lemma handleOffer_order_counterexample :
  let data := {| offer := 7; offer_from := bob |} in
  trace (exec (handleOffer ideal_browser "session-1" data) queued_one) ≠
  trace queued_one
    ++ offer_steps_as_specified "session-1" 7 200
         (iceCandidatesQueueRef queued_one).
Proof. vm_compute. intros H. discriminate H. Qed.

Lemma handleOffer_steps_witness :
  let data := {| offer := 7; offer_from := bob |} in
  let p := {| senders := [ {| kind := AudioKind; track_no := 0 |};
                           {| kind := VideoKind; track_no := 1 |} ];
              remoteDescription := None; localDescription := None;
              remoteCandidates := [] |} in
  let w' := exec (handleOffer ideal_browser "session-1" data) queued_one in
  peerConnectionRef queued_one = Some p ∧
  socketRef queued_one = Some IoSocket ∧
  trace w' =
    trace queued_one ++ SetRemoteDescription 7
      :: (AddIceCandidate <$> iceCandidatesQueueRef queued_one)
      ++ [CreateAnswer; SetLocalDescription 200;
          Emit (SendAnswer "session-1" 200)] ∧
  hasRemoteDescriptionRef w' = true ∧
  iceCandidatesQueueRef w' = [] ∧
  peerConnectionRef w' =
    Some {| senders := senders p;
            remoteDescription := Some 7;
            localDescription := Some 200;
            remoteCandidates :=
              remoteCandidates p ++ iceCandidatesQueueRef queued_one |}.
Proof.
  intros data p w'.
  split; [reflexivity|]. split; [reflexivity|].
  destruct (handleOffer_steps ideal_browser "session-1" queued_one p IoSocket
              data eq_refl eq_refl) as (_ & _ & Hok).
  exact (Hok 200 ideal_accepts_remote_descriptions ideal_accepts_candidates
           ideal_creates_answer ideal_accepts_local_descriptions).
Defined.

(** ** Ending the session *)

Lemma track_stop_run t w :
  track_stop t w =
    (Normal (),
     set_tracks (alter stopped (track_no t) (tracks w))
       (set_trace (trace w ++ [TrackStop t]) w)).
Proof. js_world w. reflexivity. Qed.

Lemma stop_tracks_run s : ∀ w,
  stop_tracks s w =
    (Normal (),
     set_tracks (stop_all s (tracks w))
       (set_trace (trace w ++ (TrackStop <$> s)) w)).
Proof.
  unfold stop_tracks. induction s as [|t s IH]; intros w.
  - js_world w. cbn [for_of fmap list_fmap stop_all foldl]. js_eval.
    by rewrite app_nil_r.
  - cbn [for_of]. erewrite run_bind by apply track_stop_run. rewrite IH.
    js_world w. js_eval. cbn [fmap list_fmap]. by rewrite <-app_assoc.
Qed.

Lemma stop_all_app s1 s2 h : stop_all (s1 ++ s2) h = stop_all s2 (stop_all s1 h).
Proof. unfold stop_all. by rewrite foldl_app. Qed.

Lemma endSession_run sid w : endSession sid w = (Normal (), torn_down sid w).
Proof.
  js_world w.
  unfold endSession, stop_and_clear, close_peer_connection, endSessionCall,
    leaveSession, disconnect, torn_down, teardown_calls, stop_calls,
    close_calls, local_tracks, stream_tracks.
  destruct screenStreamRef0 as [scr|], cameraStreamRef0 as [cam|],
    localStreamRef0 as [loc|], peerConnectionRef0 as [pc|],
    socketRef0 as [so|];
  repeat (js_eval; rewrite ?stop_tracks_run);
  cbn [default];
  rewrite ?fmap_app, ?stop_all_app, ?app_nil_r, <-?app_assoc;
  reflexivity.
Qed.

Lemma handleSessionEnded_run data w :
  handleSessionEnded data w =
    (Normal (), ended_by_peer (displayName (endedBy data)) w).
Proof.
  js_world w.
  unfold handleSessionEnded, stop_and_clear, close_peer_connection,
    ended_by_peer, stop_calls, close_calls, local_tracks, stream_tracks.
  destruct screenStreamRef0 as [scr|], cameraStreamRef0 as [cam|],
    localStreamRef0 as [loc|], peerConnectionRef0 as [pc|];
  repeat (js_eval; rewrite ?stop_tracks_run);
  cbn [default];
  rewrite ?fmap_app, ?stop_all_app, ?app_nil_r, <-?app_assoc;
  reflexivity.
Qed.

Lemma torn_down_twice sid w : torn_down sid (torn_down sid w) = torn_down sid w.
Proof.
  unfold torn_down, teardown_calls, stop_calls, close_calls, local_tracks.
  simpl. by rewrite app_nil_r.
Qed.

Lemma alter_stopped_not_live h i j :
  not_live h j → not_live (alter stopped i h) j.
Proof.
  unfold not_live. intros H. destruct (decide (i = j)) as [->|Hne].
  - rewrite list_lookup_alter_eq. by destruct (h !! j).
  - by rewrite list_lookup_alter_ne.
Qed.

Lemma alter_stopped_self h i : not_live (alter stopped i h) i.
Proof. unfold not_live. rewrite list_lookup_alter_eq. by destruct (h !! i). Qed.

Lemma stop_all_cons t s h :
  stop_all (t :: s) h = stop_all s (alter stopped (track_no t) h).
Proof. reflexivity. Qed.

Lemma stop_all_not_live s : ∀ h j, not_live h j → not_live (stop_all s h) j.
Proof.
  induction s as [|t s IH]; intros h j H; [done|].
  rewrite stop_all_cons. apply IH. by apply alter_stopped_not_live.
Qed.

Lemma stop_all_stops s : ∀ h t, t ∈ s → not_live (stop_all s h) (track_no t).
Proof.
  induction s as [|t' s IH]; intros h t Hin.
  - by apply elem_of_nil in Hin.
  - rewrite stop_all_cons. apply elem_of_cons in Hin as [->|Hin].
    + apply stop_all_not_live, alter_stopped_self.
    + by apply IH.
Qed.

Lemma count_emitted_app ev t1 t2 :
  count_emitted ev (t1 ++ t2) = count_emitted ev t1 + count_emitted ev t2.
Proof. unfold count_emitted. by rewrite list.filter_app, length_app. Qed.

Lemma count_emitted_cons ev e t :
  count_emitted ev (e :: t) =
  (if decide (e = Emit ev) then 1 else 0) + count_emitted ev t.
Proof.
  unfold count_emitted. destruct (decide (e = Emit ev)).
  - by rewrite filter_cons_True.
  - by rewrite filter_cons_False.
Qed.

(** Calls that are not emissions do not count. *)
Lemma count_emitted_fmap {A} ev (f : A → Effect) (l : list A) :
  (∀ x, f x ≠ Emit ev) → count_emitted ev (f <$> l) = 0.
Proof.
  intros Hf. induction l as [|x l IH]; [done|].
  rewrite fmap_cons, count_emitted_cons, IH.
  by destruct (decide (f x = Emit ev)); [destruct (Hf x)|].
Qed.

Lemma end_notifications_app sid t1 t2 :
  end_notifications sid (t1 ++ t2) =
  end_notifications sid t1 + end_notifications sid t2.
Proof. apply count_emitted_app. Qed.

Lemma end_notifications_stop_calls sid w :
  end_notifications sid (stop_calls w) = 0.
Proof. by apply count_emitted_fmap. Qed.

Lemma end_notifications_close_calls sid w :
  end_notifications sid (close_calls w) = 0.
Proof. unfold close_calls. by destruct (peerConnectionRef w). Qed.

Lemma end_notifications_callback sid name :
  end_notifications sid [OnSessionEnded name] = 0.
Proof. reflexivity. Qed.

Lemma end_notifications_teardown sid w :
  end_notifications sid (teardown_calls sid w) =
  if socketRef w is Some _ then 1 else 0.
Proof.
  unfold teardown_calls.
  rewrite !end_notifications_app, end_notifications_stop_calls,
    end_notifications_close_calls.
  destruct (socketRef w); [|done].
  unfold end_notifications. rewrite !count_emitted_cons.
  rewrite decide_True by done. by rewrite !decide_False by done.
Qed.

(** C3. [endSession] returns normally and calls, in this order: [stop()] on
    every track of the screen, camera and preview streams, [close()] on the
    peer connection, then on the socket the end-session and the leave-session
    emission and the disconnect.  A second call changes nothing at all.  With
    a socket at the start, the end-session notification is emitted exactly
    once by two calls in a row, and exactly once when a remote session-ended
    signal is handled after or before the local call.  Afterwards no track of
    the three streams is live, the three stream refs, the peer connection and
    the socket are gone and the candidate queue is empty; if every live track
    belonged to one of the three streams, no track at all is live. *)
Theorem endSession_idempotent (sid : string) (w : World) (data : SessionEndedData) :
  let w1 := exec (endSession sid) w in
  let raced := exec (endSession sid) (exec (handleSessionEnded data) w) in
  completion (endSession sid) w = Normal () ∧
  trace w1 = trace w ++ teardown_calls sid w ∧
  endSession sid w1 = (Normal (), w1) ∧
  (is_Some (socketRef w) →
     end_notifications sid (trace (exec (endSession sid) w1))
       = S (end_notifications sid (trace w)) ∧
     end_notifications sid (trace (exec (handleSessionEnded data) w1))
       = S (end_notifications sid (trace w)) ∧
     end_notifications sid (trace raced)
       = S (end_notifications sid (trace w))) ∧
  (∀ t, t ∈ local_tracks w → track_live w1 t = false ∧ track_live raced t = false) ∧
  local_tracks w1 = [] ∧ local_tracks raced = [] ∧
  peerConnectionRef w1 = None ∧ socketRef w1 = None ∧
  iceCandidatesQueueRef w1 = [] ∧ iceCandidatesQueueRef raced = [] ∧
  (live_tracks_are_local w →
     ∀ i st, tracks w1 !! i = Some st → live st = false).
Proof.
  intros w1 raced. subst w1 raced. unfold exec, completion.
  rewrite !endSession_run, !handleSessionEnded_run. simpl.
  rewrite ?endSession_run. simpl. rewrite torn_down_twice.
  split; [done|]. split; [done|]. split; [done|]. split.
  { intros [s Hs]. rewrite !end_notifications_app.
    rewrite !end_notifications_teardown, !end_notifications_stop_calls,
      !end_notifications_close_calls, ?end_notifications_callback.
    simpl. rewrite Hs. repeat split; lia. }
  split.
  { intros t Ht. unfold track_live. simpl. split; by apply stop_all_stops. }
  repeat (split; [done|]).
  intros Hlocal i st Hi.
  assert (not_live (stop_all (local_tracks w) (tracks w)) i) as Hn.
  { destruct (tracks w !! i) as [st0|] eqn:Hst0.
    - destruct (live st0) eqn:Hlive.
      + destruct (Hlocal i st0 Hst0 Hlive) as (t & Ht & <-).
        by apply stop_all_stops.
      + apply stop_all_not_live. unfold not_live. by rewrite Hst0.
    - apply stop_all_not_live. unfold not_live. by rewrite Hst0. }
  unfold not_live in Hn. by rewrite Hi in Hn.
Qed.

Lemma endSession_idempotent_witness :
  let w1 := exec (endSession "session-1") sharing in
  is_Some (socketRef sharing) ∧
  live_tracks_are_local sharing ∧
  end_notifications "session-1" (trace (exec (endSession "session-1") w1))
    = S (end_notifications "session-1" (trace sharing)) ∧
  (∀ i st, tracks w1 !! i = Some st → live st = false).
Proof.
  intros w1.
  assert (is_Some (socketRef sharing)) as Hs by (by eexists).
  assert (live_tracks_are_local sharing) as Hl.
  { intros i st Hi _.
    destruct i as [|[|[|i]]]; [| | |discriminate Hi].
    - exists {| kind := AudioKind; track_no := 0 |}.
      split; [|reflexivity]. vm_compute.
      repeat first [apply list_elem_of_here | apply list_elem_of_further].
    - exists {| kind := VideoKind; track_no := 1 |}.
      split; [|reflexivity]. vm_compute.
      repeat first [apply list_elem_of_here | apply list_elem_of_further].
    - exists {| kind := VideoKind; track_no := 2 |}.
      split; [|reflexivity]. vm_compute.
      repeat first [apply list_elem_of_here | apply list_elem_of_further]. }
  destruct (endSession_idempotent "session-1" sharing
              {| se_sessionId := "session-1"; endedBy := bob |})
    as (_ & _ & _ & Hcount & _ & _ & _ & _ & _ & _ & _ & Hlive).
  split; [exact Hs|]. split; [exact Hl|].
  split; [exact (proj1 (Hcount Hs))|exact (Hlive Hl)].
Defined.

(** ** The remote peer leaves *)

Lemma handleUserLeft_run w :
  handleUserLeft w =
    (Normal (),
     set_state (set_peerMediaState None (set_peerDisplayName None
                  (set_connectionState StateNew
                     (set_remoteStream None (state w)))))
       (set_trace (trace w ++ close_calls w)
          (set_peerConnectionRef None w))).
Proof.
  js_world w. unfold handleUserLeft, close_peer_connection, close_calls.
  destruct peerConnectionRef0; js_eval; by rewrite ?app_nil_r.
Qed.

(** C4. On user-left the specification has the candidate buffer cleared and
    the remote-descriptor flag reset; [handleUserLeft] does neither.  A
    candidate from Bob is waiting in Ann's queue when Bob leaves: after
    [handleUserLeft] it is still there.  Ann, the initiator, has applied
    Bob's answer when he leaves: after [handleUserLeft] the flag is still
    true, though the connection is gone.  And then, when Bob is back and Ann
    on ready-to-connect makes a new connection and offer, a candidate that
    arrives before Bob's answer is handed to the connection that has no
    remote description, refused by the engine, and lost: it is neither among
    the connection's candidates nor in the queue.  (As specified, the
    connection is closed, no track is stopped, and the page is not told that
    the session ended.) *)
Theorem handleUserLeft_keeps_queue_and_flag :
  let left_queued := exec handleUserLeft queued_one in
  let left_negotiated := exec handleUserLeft negotiated in
  let again :=
    run ideal_browser "session-1" (Some "Ann")
      [ReadyToConnect; candidate_from_bob 5] left_negotiated in
  iceCandidatesQueueRef left_queued = [1] ∧
  peerConnectionRef left_queued = None ∧
  hasRemoteDescriptionRef left_negotiated = true ∧
  peerConnectionRef left_negotiated = None ∧
  tracks left_negotiated = tracks negotiated ∧
  trace left_negotiated = trace negotiated ++ [ClosePeerConnection] ∧
  (remoteDescription <$> peerConnectionRef again) = Some None ∧
  trace again =
    trace left_negotiated
      ++ [NewPeerConnection;
          AddTrack {| kind := AudioKind; track_no := 0 |};
          AddTrack {| kind := VideoKind; track_no := 1 |};
          CreateOffer; SetLocalDescription 100;
          Emit (SendOffer "session-1" 100); AddIceCandidate 5] ∧
  (remoteCandidates <$> peerConnectionRef again) = Some [] ∧
  iceCandidatesQueueRef again = [].
Proof. vm_compute. repeat split; reflexivity. Qed.

(** ** Roles and the first offer *)

(** C5. Two participants join in the order A then B; the relay's
    acknowledgments (modelled from the specification) tell A that it is the
    initiator and B that it is not, and each page stores what it is told.  On
    ready-to-connect A, which has a peer connection and a socket, creates an
    offer, stores it as its local description and sends it, and does nothing
    else; B's handler leaves B's world as it is: no description is created
    and nothing is sent. *)
Theorem ready_to_connect_initiator_only
    (env : Browser) (sid a b : string) (wA wB : World)
    (p : RTCPeerConnection) (s : Socket) (o : Descriptor) :
  creates_offer env o →
  accepts_local_descriptions env →
  peerConnectionRef wA = Some p →
  socketRef wA = Some s →
  let wA' := exec (onSessionJoined (relay_join_ack sid [] a)) wA in
  let wB' := exec (onSessionJoined (relay_join_ack sid [a] b)) wB in
  let offered := exec (handleReadyToConnect env sid) wA' in
  isInitiatorRef wA' = true ∧ isInitiator (state wA') = true ∧
  isInitiatorRef wB' = false ∧ isInitiator (state wB') = false ∧
  trace offered =
    trace wA ++ [CreateOffer; SetLocalDescription o; Emit (SendOffer sid o)] ∧
  peerConnectionRef offered = Some (set_localDescription (Some o) p) ∧
  handleReadyToConnect env sid wB' = (Normal (), wB').
Proof.
  intros Hoffer Hlocal Hpc Hsock. js_world wA. js_world wB. destruct p.
  unfold handleReadyToConnect, createOffer, pc_createOffer,
    pc_setLocalDescription, sendOffer, onSessionJoined, relay_join_ack.
  js_eval. cbn [bool_decide decide_rel sj_isInitiator].
  rewrite !bool_decide_eq_true_2 by done.
  rewrite (bool_decide_eq_false_2 ([a] = [])) by done.
  rewrite (bool_decide_eq_false_2 (Some _ = None)) by done.
  js_eval. rewrite Hoffer, Hlocal. by rewrite <-!app_assoc.
Qed.

Lemma ready_to_connect_initiator_only_witness :
  let p := {| senders := [ {| kind := AudioKind; track_no := 0 |};
                           {| kind := VideoKind; track_no := 1 |} ];
              remoteDescription := None; localDescription := None;
              remoteCandidates := [] |} in
  let wA' := exec (onSessionJoined (relay_join_ack "session-1" [] "ann")) started in
  let wB' := exec (onSessionJoined (relay_join_ack "session-1" ["ann"] "bob")) started in
  let offered := exec (handleReadyToConnect ideal_browser "session-1") wA' in
  peerConnectionRef started = Some p ∧
  socketRef started = Some IoSocket ∧
  isInitiatorRef wA' = true ∧ isInitiator (state wA') = true ∧
  isInitiatorRef wB' = false ∧ isInitiator (state wB') = false ∧
  trace offered =
    trace started ++ [CreateOffer; SetLocalDescription 100;
                      Emit (SendOffer "session-1" 100)] ∧
  peerConnectionRef offered = Some (set_localDescription (Some 100) p) ∧
  handleReadyToConnect ideal_browser "session-1" wB' = (Normal (), wB').
Proof.
  intros p wA' wB' offered.
  split; [reflexivity|]. split; [reflexivity|].
  apply (ready_to_connect_initiator_only ideal_browser "session-1" "ann" "bob"
           started started p IoSocket 100
           ideal_creates_offer ideal_accepts_local_descriptions);
    reflexivity.
Defined.

(** ** Starting the session *)

Lemma pc_addTrack_run t w p :
  peerConnectionRef w = Some p →
  pc_addTrack t w =
    (Normal (),
     set_peerConnectionRef (Some (set_senders (senders p ++ [t]) p))
       (set_trace (trace w ++ [AddTrack t]) w)).
Proof. intros Hpc. js_world w. reflexivity. Qed.

Lemma addTracks_run s : ∀ w p,
  peerConnectionRef w = Some p →
  for_of s pc_addTrack w =
    (Normal (),
     set_trace (trace w ++ (AddTrack <$> s))
       (set_peerConnectionRef (Some (set_senders (senders p ++ s) p)) w)).
Proof.
  induction s as [|t s IH]; intros w p Hpc.
  - js_world w. destruct p. cbn [for_of fmap list_fmap]. js_eval.
    by rewrite !app_nil_r.
  - cbn [for_of]. erewrite run_bind by by apply pc_addTrack_run.
    erewrite IH by (js_world w; reflexivity).
    js_world w. destruct p. js_eval. cbn [fmap list_fmap].
    by rewrite <-!app_assoc.
Qed.

Lemma join_requests_app sid t1 t2 :
  join_requests sid (t1 ++ t2) = join_requests sid t1 + join_requests sid t2.
Proof. apply count_emitted_app. Qed.

(** C9. When the camera and microphone are granted and a token is stored,
    [startSession] calls, in this order: [getUserMedia], the creation of the
    peer connection with the new tracks added, the opening of the socket
    (after disconnecting an old one, if any), the emission of the join
    request, and [setTimeout] with 700 ms.  One timer is pending afterwards;
    when it fires it emits the join request once more and nothing else.  So
    the join request is emitted once by [startSession] and twice in all. *)
Theorem startSession_joins_twice
    (env : Browser) (sid : string) (w : World)
    (kinds : list TrackKind) (tok : string) :
  getUserMedia env (trace w) = inr kinds →
  truthy (getAuthToken env) = Some tok →
  let w1 := exec (startSession env sid) w in
  let w2 := exec (fire_timer env sid (length (timers w))) w1 in
  let stream := stream_at (length (tracks w)) kinds in
  completion (startSession env sid) w = Normal () ∧
  trace w1 =
    trace w ++ [GetUserMedia; NewPeerConnection] ++ (AddTrack <$> stream)
      ++ (if socketRef w is Some _ then [SocketDisconnect] else [])
      ++ [SocketOpen; Emit (JoinSession sid); SetTimeout 700] ∧
  timers w1 = timers w ++ [(700, RetryJoin)] ∧
  trace w2 = trace w1 ++ [Emit (JoinSession sid)] ∧
  timers w2 = timers w ∧
  join_requests sid (trace w1) = 1 + join_requests sid (trace w) ∧
  join_requests sid (trace w2) = 2 + join_requests sid (trace w).
Proof.
  intros Hmedia Htoken w1 w2 stream.
  assert (startSession env sid w =
    (Normal (),
     set_timers (timers w ++ [(700, RetryJoin)])
       (set_socketRef (Some IoSocket)
          (set_trace
             (trace w ++ [GetUserMedia; NewPeerConnection]
                ++ (AddTrack <$> stream)
                ++ (if socketRef w is Some _ then [SocketDisconnect] else [])
                ++ [SocketOpen; Emit (JoinSession sid); SetTimeout 700])
             (set_peerConnectionRef
                (Some {| senders := stream; remoteDescription := None;
                         localDescription := None; remoteCandidates := [] |})
                (set_state (set_isScreenSharing false (set_isVideoEnabled true
                              (set_isAudioEnabled true
                                 (set_localStream (Some stream) (state w)))))
                   (set_localStreamRef (Some stream)
                      (set_cameraStreamRef (Some stream)
                         (set_tracks
                            (tracks w ++ replicate (length kinds) fresh_track)
                            w))))))))) as Hrun.
  { subst w1 w2 stream. js_world w.
    unfold startSession, initializeMedia, mediaDevices_getUserMedia,
      new_stream, createPeerConnection, connect, joinSession, setTimeout.
    js_eval. rewrite Hmedia, Htoken. js_eval.
    erewrite addTracks_run by reflexivity. js_eval.
    unfold stream_at.
    destruct socketRef0 as [so|].
    - rewrite bool_decide_eq_true_2 by (by eexists).
      js_eval. by rewrite <-?app_assoc.
    - rewrite bool_decide_eq_false_2 by (by intros [? ?]).
      js_eval. by rewrite <-?app_assoc. }
  subst w1 w2. unfold exec, completion. rewrite Hrun. cbn [fst snd].
  clear Hrun Hmedia. js_world w. unfold fire_timer. js_eval.
  rewrite list_lookup_middle by done. js_eval.
  unfold run_timer, joinSession. js_eval.
  rewrite (delete_middle timers0 []), app_nil_r.
  rewrite !join_requests_app.
  assert (join_requests sid (AddTrack <$> stream) = 0) as ->
    by by apply count_emitted_fmap.
  destruct socketRef0; repeat split; try reflexivity;
    unfold join_requests; rewrite ?count_emitted_cons;
    repeat case_decide; try done;
    change (count_emitted (JoinSession sid) []) with 0; lia.
Qed.

Lemma startSession_joins_twice_witness :
  let w1 := exec (startSession ideal_browser "session-1") mounted in
  let w2 := exec (fire_timer ideal_browser "session-1" 0) w1 in
  getUserMedia ideal_browser (trace mounted) = inr [AudioKind; VideoKind] ∧
  truthy (getAuthToken ideal_browser) = Some "jwt" ∧
  trace w1 =
    [GetUserMedia; NewPeerConnection;
     AddTrack {| kind := AudioKind; track_no := 0 |};
     AddTrack {| kind := VideoKind; track_no := 1 |};
     SocketOpen; Emit (JoinSession "session-1"); SetTimeout 700] ∧
  trace w2 = trace w1 ++ [Emit (JoinSession "session-1")] ∧
  join_requests "session-1" (trace w2) = 2.
Proof.
  intros w1 w2.
  split; [reflexivity|]. split; [reflexivity|].
  destruct (startSession_joins_twice ideal_browser "session-1" mounted
              [AudioKind; VideoKind] "jwt" eq_refl eq_refl)
    as (_ & Htrace & _ & Hfire & _ & _ & Htwice).
  split; [exact Htrace|]. split; [exact Hfire|exact Htwice].
Defined.

(** ** Chat *)

Lemma trimStart_nil s : trimStart s = [] ↔ forallb is_whitespace s = true.
Proof.
  induction s as [|c s IH]; [done|]. simpl.
  destruct (is_whitespace c); [done|]. split; discriminate.
Qed.

(** What is left after [trimStart] does not start with white space. *)
Lemma trimStart_all_whitespace s :
  forallb is_whitespace (trimStart s) = true → trimStart s = [].
Proof.
  induction s as [|c s IH]; [done|]. simpl.
  destruct (is_whitespace c) eqn:Hc; [done|].
  simpl. by rewrite Hc.
Qed.

Lemma forallb_reverse {A} (f : A → bool) l :
  forallb f (reverse l) = forallb f l.
Proof.
  induction l as [|x l IH]; [done|].
  rewrite reverse_cons, forallb_app, IH. simpl.
  rewrite andb_true_r. apply andb_comm.
Qed.

Lemma trim_nil s : trim s = [] ↔ forallb is_whitespace s = true.
Proof.
  unfold trim. split.
  - intros H. apply (f_equal reverse) in H.
    rewrite reverse_involutive in H. change (reverse []) with (@nil N) in H.
    apply trimStart_nil in H. rewrite forallb_reverse in H.
    apply trimStart_all_whitespace in H. by apply trimStart_nil.
  - intros H. apply trimStart_nil in H. by rewrite H.
Qed.

(** C8. Text that is empty or only white space: [sendChatMessage] returns
    normally and the world is as before (nothing appended, nothing emitted).
    Any other text: the message, trimmed and marked [isSelf], is appended to
    the log whether or not there is a socket; the emission is what the
    socket's [sendChatMessage] does in the world that already has the message
    in its log, so it comes after the append, and it is the only call: one
    chat-message event with the trimmed text if there is a socket, nothing
    otherwise. *)
Theorem sendChatMessage_local_echo
    (sid : string) (name : option string) (fresh_id now : string)
    (text : JsString) (w : World) :
  let m := {| id := fresh_id; message := trim text;
              from := default "You" (truthy name);
              timestamp := now; isSelf := true |} in
  let appended := set_chatMessages (chatMessages w ++ [m]) w in
  let w' := exec (sendChatMessage sid name fresh_id now text) w in
  completion (sendChatMessage sid name fresh_id now text) w = Normal () ∧
  (forallb is_whitespace text = true → w' = w) ∧
  (forallb is_whitespace text = false →
     trim text ≠ [] ∧
     sendChatMessage sid name fresh_id now text w
       = socket_sendChatMessage sid (trim text) appended ∧
     chatMessages w' = chatMessages w ++ [m] ∧
     trace w' =
       trace w ++ (if socketRef w is Some _
                   then [Emit (SendChatMessage sid (trim text))] else [])).
Proof.
  intros m appended w'. subst m appended w'.
  unfold sendChatMessage, socket_sendChatMessage, exec, completion.
  destruct (trim text) as [|c t] eqn:Htrim.
  - apply trim_nil in Htrim. rewrite Htrim.
    split; [done|]. split; [done|discriminate].
  - assert (forallb is_whitespace text = false) as Hne.
    { destruct (forallb is_whitespace text) eqn:Hws; [|done].
      apply trim_nil in Hws. congruence. }
    rewrite Hne. js_world w. js_eval.
    destruct socketRef0; js_eval;
      (split; [done|]); (split; [discriminate|]); intros _;
      rewrite ?app_nil_r; done.
Qed.

Lemma sendChatMessage_local_echo_witness :
  let blank := [32; 9; 10; 160]%N in
  let hi := [32; 104; 105; 32]%N in
  let w' := exec (sendChatMessage "session-1" (Some "Ann") "id-1" "t-1" hi)
              started in
  forallb is_whitespace blank = true ∧
  forallb is_whitespace hi = false ∧
  exec (sendChatMessage "session-1" (Some "Ann") "id-0" "t-0" blank) started
    = started ∧
  chatMessages w' =
    [ {| id := "id-1"; message := [104; 105]%N; from := "Ann";
         timestamp := "t-1"; isSelf := true |} ] ∧
  trace w' = trace started ++ [Emit (SendChatMessage "session-1" [104; 105]%N)].
Proof.
  intros blank hi w'.
  split; [reflexivity|]. split; [reflexivity|].
  destruct (sendChatMessage_local_echo "session-1" (Some "Ann") "id-0" "t-0"
              blank started) as (_ & Hblank & _).
  destruct (sendChatMessage_local_echo "session-1" (Some "Ann") "id-1" "t-1"
              hi started) as (_ & _ & Hhi).
  destruct (Hhi eq_refl) as (_ & _ & Hlog & Htrace).
  split; [exact (Hblank eq_refl)|]. split; [exact Hlog|exact Htrace].
Defined.

(** ** Mute and camera off *)

Lemma toggleAudio_run sid w s a st so :
  localStreamRef w = Some s →
  head (getAudioTracks s) = Some a →
  tracks w !! track_no a = Some st →
  socketRef w = Some so →
  toggleAudio sid w =
    (Normal (),
     set_trace (trace w ++ [Emit (SendMediaState sid (negb (enabled st))
                                     (isVideoEnabled (state w)))])
       (set_state (set_isAudioEnabled (negb (enabled st)) (state w))
          (set_tracks (alter (with_enabled (negb (enabled st))) (track_no a)
                         (tracks w)) w))).
Proof.
  intros Hls Ha Hst Hso. js_world w.
  unfold toggleAudio, set_track_enabled, sendMediaState. js_eval.
  rewrite Ha. unfold track_enabled. js_eval.
  rewrite list_lookup_alter_eq, Hst. reflexivity.
Qed.

Lemma toggleVideo_run sid w s v st so :
  localStreamRef w = Some s →
  head (getVideoTracks s) = Some v →
  tracks w !! track_no v = Some st →
  socketRef w = Some so →
  toggleVideo sid w =
    (Normal (),
     set_trace (trace w ++ [Emit (SendMediaState sid
                                     (isAudioEnabled (state w))
                                     (negb (enabled st)))])
       (set_state (set_isVideoEnabled (negb (enabled st)) (state w))
          (set_tracks (alter (with_enabled (negb (enabled st))) (track_no v)
                         (tracks w)) w))).
Proof.
  intros Hls Hv Hst Hso. js_world w.
  unfold toggleVideo, set_track_enabled, sendMediaState. js_eval.
  rewrite Hv. unfold track_enabled. js_eval.
  rewrite list_lookup_alter_eq, Hst. reflexivity.
Qed.

Lemma live_alter_with_enabled b (i : nat) (h : list TrackState) (j : nat) :
  live <$> alter (with_enabled b) i h !! j = live <$> h !! j.
Proof.
  destruct (decide (i = j)) as [->|Hne].
  - rewrite list_lookup_alter_eq. by destruct (h !! j).
  - by rewrite list_lookup_alter_ne.
Qed.

(** C7. The preview stream has an audio track and a video track (two
    different tracks of the browser) and there is a socket.  [toggleAudio]
    and then [toggleVideo], with a render after each: the first writes only
    the enabled flag of the audio track, the second only that of the video
    track, each the negation of what it was; the other track's flag, the
    liveness of every track, the peer connection with its senders and the
    three streams are as before.  Each toggle emits one media-state event and
    makes no other call; the first carries the new audio flag (and the video
    flag of the React state), the second the new audio and the new video
    flag. *)
Theorem toggleAudio_then_toggleVideo
    (env : Browser) (sid : string) (name : option string) (w : World)
    (s : MediaStream) (a v : MediaStreamTrack) (so : Socket) :
  localStreamRef w = Some s →
  head (getAudioTracks s) = Some a →
  head (getVideoTracks s) = Some v →
  track_no a ≠ track_no v →
  track_no a < length (tracks w) →
  track_no v < length (tracks w) →
  socketRef w = Some so →
  let w1 := step env sid name w CallToggleAudio in
  let w2 := step env sid name w1 CallToggleVideo in
  let audio' := negb (track_enabled w a) in
  let video' := negb (track_enabled w v) in
  tracks w1 = alter (with_enabled audio') (track_no a) (tracks w) ∧
  tracks w2 = alter (with_enabled video') (track_no v) (tracks w1) ∧
  track_enabled w1 a = audio' ∧ track_enabled w1 v = track_enabled w v ∧
  track_enabled w2 v = video' ∧ track_enabled w2 a = audio' ∧
  (∀ t, track_live w1 t = track_live w t ∧ track_live w2 t = track_live w t) ∧
  peerConnectionRef w2 = peerConnectionRef w ∧
  localStreamRef w2 = localStreamRef w ∧
  cameraStreamRef w2 = cameraStreamRef w ∧
  screenStreamRef w2 = screenStreamRef w ∧
  trace w1 =
    trace w ++ [Emit (SendMediaState sid audio' (isVideoEnabled (state w)))] ∧
  trace w2 = trace w1 ++ [Emit (SendMediaState sid audio' video')].
Proof.
  intros Hls Ha Hv Hav Hla Hlv Hso w1 w2 audio' video'.
  destruct (lookup_lt_is_Some_2 _ _ Hla) as [sta Hsta].
  destruct (lookup_lt_is_Some_2 _ _ Hlv) as [stv Hstv].
  assert (audio' = negb (enabled sta)) as ->
    by (subst audio'; unfold track_enabled; by rewrite Hsta).
  assert (video' = negb (enabled stv)) as ->
    by (subst video'; unfold track_enabled; by rewrite Hstv).
  pose proof (toggleAudio_run sid w s a sta so Hls Ha Hsta Hso) as H1.
  apply (step_handler env sid name CallToggleAudio) in H1.
  fold w1 in H1.
  assert (localStreamRef w1 = Some s) as Hls1
    by (rewrite H1; js_world w; reflexivity).
  assert (tracks w1 !! track_no v = Some stv) as Hstv1.
  { rewrite H1. js_world w. js_eval. by rewrite list_lookup_alter_ne. }
  assert (socketRef w1 = Some so) as Hso1
    by (rewrite H1; js_world w; reflexivity).
  pose proof (toggleVideo_run sid w1 s v stv so Hls1 Hv Hstv1 Hso1) as H2.
  apply (step_handler env sid name CallToggleVideo) in H2.
  fold w2 in H2. rewrite H2. clear H2 Hls1 Hstv1 Hso1. rewrite H1.
  clear H1 w1 w2. unfold track_enabled, track_live.
  js_world w. js_eval.
  repeat split; try reflexivity;
    rewrite ?live_alter_with_enabled;
    repeat first [rewrite list_lookup_alter_eq
                 |rewrite list_lookup_alter_ne by congruence];
    rewrite ?Hsta, ?Hstv; reflexivity.
Qed.

Lemma toggleAudio_then_toggleVideo_witness :
  let a := {| kind := AudioKind; track_no := 0 |} in
  let v := {| kind := VideoKind; track_no := 1 |} in
  let w1 := step ideal_browser "session-1" (Some "Ann") started CallToggleAudio in
  let w2 := step ideal_browser "session-1" (Some "Ann") w1 CallToggleVideo in
  localStreamRef started = Some [a; v] ∧
  socketRef started = Some IoSocket ∧
  track_enabled w1 a = false ∧ track_enabled w1 v = true ∧
  track_enabled w2 v = false ∧ track_enabled w2 a = false ∧
  trace w2 =
    trace started ++ [Emit (SendMediaState "session-1" false true);
                      Emit (SendMediaState "session-1" false false)].
Proof.
  intros a v w1 w2.
  split; [reflexivity|]. split; [reflexivity|].
  destruct (toggleAudio_then_toggleVideo ideal_browser "session-1" (Some "Ann")
              started [a; v] a v IoSocket)
    as (_ & _ & H1a & H1v & H2v & H2a & _ & _ & _ & _ & _ & Ht1 & Ht2);
    [reflexivity|reflexivity|reflexivity|discriminate| | |reflexivity|].
  - vm_compute. lia.
  - vm_compute. lia.
  - split; [exact H1a|]. split; [exact H1v|].
    split; [exact H2v|]. split; [exact H2a|].
    fold w1 w2 in Ht2. rewrite Ht2. fold w1 in Ht1. rewrite Ht1.
    by rewrite <-app_assoc.
Defined.

(** ** Screen sharing *)

Section Frames.

Context (R : relation World) `{!PreOrder R}.

Lemma frames_ret {A} (a : A) : frames R (mret a).
Proof. intros w. unfold frames_at. simpl. reflexivity. Qed.

Lemma frames_throw {A} (e : Exn) : frames R (@throw A e).
Proof. intros w. unfold frames_at. simpl. reflexivity. Qed.

Lemma frames_gets {A} (g : World → A) : frames R (gets g).
Proof. intros w. unfold frames_at. simpl. reflexivity. Qed.

Lemma frames_at_bind {A B} (m : Js A) (f : A → Js B) w :
  frames_at R m w → (∀ a, frames R (f a)) → frames_at R (m ≫= f) w.
Proof.
  unfold frames, frames_at, mbind, Js_bind. intros Hm Hf.
  destruct (m w) as [[a|e] w'] eqn:Hmw; simpl in *; [|done].
  etrans; [exact Hm|]. apply Hf.
Qed.

Lemma frames_bind {A B} (m : Js A) (f : A → Js B) :
  frames R m → (∀ a, frames R (f a)) → frames R (m ≫= f).
Proof. intros Hm Hf w. by apply frames_at_bind. Qed.

(** After a read the rest may use what was read. *)
Lemma frames_gets_bind {A B} (g : World → A) (f : A → Js B) :
  (∀ w, frames_at R (f (g w)) w) → frames R (gets g ≫= f).
Proof. intros Hf w. unfold frames_at. rewrite run_gets. apply Hf. Qed.

Lemma frames_try_catch {A} (body : Js A) (h : Exn → Js A) :
  frames R body → (∀ e, frames R (h e)) → frames R (try_catch body h).
Proof.
  unfold frames, frames_at, try_catch. intros Hb Hh w.
  specialize (Hb w). destruct (body w) as [[a|e] w']; simpl in *; [done|].
  etrans; [exact Hb|]. apply Hh.
Qed.

Lemma frames_try_finally {A} (body : Js A) (final : Js unit) :
  frames R body → frames R final → frames R (try_finally body final).
Proof.
  unfold frames, frames_at, try_finally. intros Hb Hf w.
  specialize (Hb w). destruct (body w) as [c w']. simpl in Hb.
  specialize (Hf w'). destruct (final w') as [[u|e] w'']; simpl in *;
    by etrans.
Qed.

Lemma frames_for_of {A} (l : list A) (body : A → Js unit) :
  (∀ x, frames R (body x)) → frames R (for_of l body).
Proof.
  intros Hb. induction l as [|x l IH]; simpl.
  - apply frames_ret.
  - apply frames_bind; [apply Hb|by intros _].
Qed.

Lemma frames_when (b : bool) (m : Js unit) :
  frames R m → frames R (when b m).
Proof. destruct b; [done|]. intros _. apply frames_ret. Qed.

Lemma frames_modify (g : World → World) :
  (∀ w, R w (g w)) → frames R (modify g).
Proof. intros Hg w. apply Hg. Qed.

End Frames.

#[global] Instance video_swap_preorder : PreOrder video_swap.
Proof.
  split.
  - intros w. split; [done|]. exists []. by rewrite app_nil_r.
  - intros w1 w2 w3 [Hpc1 (l1 & Ht1 & Hl1)] [Hpc2 (l2 & Ht2 & Hl2)].
    split; [congruence|]. exists (l1 ++ l2).
    rewrite Ht2, Ht1, <-app_assoc, forallb_app, Hl1, Hl2. done.
Qed.

(** Whatever leaves the connection and the trace alone is a swap. *)
Lemma video_swap_keep w w' :
  peerConnectionRef w' = peerConnectionRef w →
  trace w' = trace w →
  video_swap w w'.
Proof.
  intros Hpc Ht. split; [by rewrite Hpc|]. exists []. by rewrite app_nil_r.
Qed.

Lemma video_swap_log e w :
  is_negotiation e = false → video_swap w (set_trace (trace w ++ [e]) w).
Proof.
  intros He. split; [by destruct w|]. exists [e]. split; [by destruct w|].
  simpl. by rewrite He.
Qed.

Lemma frames_log e : is_negotiation e = false → frames video_swap (log e).
Proof. intros He w. unfold frames_at. simpl. by apply video_swap_log. Qed.

Lemma frames_keep (g : World → World) :
  (∀ w, peerConnectionRef (g w) = peerConnectionRef w) →
  (∀ w, trace (g w) = trace w) →
  frames video_swap (modify g).
Proof. intros Hpc Ht w. unfold frames_at. simpl. by apply video_swap_keep. Qed.

Lemma frames_setState f : frames video_swap (setState f).
Proof. unfold setState. apply frames_keep; by intros []. Qed.

Lemma frames_new_stream kinds : frames video_swap (new_stream kinds).
Proof. intros w. unfold frames_at. simpl. apply video_swap_keep; by destruct w. Qed.

Lemma getVideoSender_bind {B} (f : option nat → Js B) w :
  (getVideoSender ≫= f) w = f (video_sender w) w.
Proof. reflexivity. Qed.

Lemma frames_always {A} (m : Js A) w :
  frames video_swap m → frames_at video_swap m w.
Proof. intros H. apply H. Qed.

(** One step of a proof that a computation is a swap. *)
Ltac frames_step :=
  lazymatch goal with
  | |- frames ?R (mret _) => apply (frames_ret R)
  | |- frames ?R (throw _) => apply (frames_throw R)
  | |- frames ?R (gets _) => apply (frames_gets R)
  | |- frames _ (log _) => apply frames_log; reflexivity
  | |- frames _ (modify _) => apply frames_keep; intros []; reflexivity
  | |- frames _ (setState _) => apply frames_setState
  | |- frames _ (new_stream _) => apply frames_new_stream
  | |- frames ?R (when _ _) => apply (frames_when R)
  | |- frames ?R (for_of _ _) => apply (frames_for_of R); intros ?; cbv beta
  | |- frames ?R (try_catch _ _) => apply (frames_try_catch R); [|intros ?]
  | |- frames ?R (try_finally _ _) => apply (frames_try_finally R)
  | |- frames ?R (mbind _ _) => apply (frames_bind R); [|intros ?]
  | |- frames _ (from_option _ _ ?x) => destruct x; cbn [from_option]
  | |- frames _ (if ?b then _ else _) => destruct b
  | |- frames _ (match ?x with _ => _ end) => destruct x eqn:?
  end.

Create HintDb frames.

Ltac frames_auto := repeat first [frames_step | solve [auto with frames]].

Lemma frames_onError msg : frames video_swap (onError msg).
Proof. unfold onError. frames_auto. Qed.

Lemma frames_stop_tracks s : frames video_swap (stop_tracks s).
Proof. unfold stop_tracks, track_stop. frames_auto. Qed.

#[global] Hint Resolve frames_onError frames_stop_tracks : frames.

Lemma frames_stop_and_clear ref clear :
  (∀ w, peerConnectionRef (clear w) = peerConnectionRef w) →
  (∀ w, trace (clear w) = trace w) →
  frames video_swap (stop_and_clear ref clear).
Proof.
  intros Hpc Ht. unfold stop_and_clear.
  apply (frames_bind video_swap); [apply (frames_gets video_swap)|]. intros [s|]; [|apply (frames_ret video_swap)].
  apply (frames_bind video_swap); [apply frames_stop_tracks|]. intros _.
  by apply frames_keep.
Qed.

Lemma frames_getUserMedia env : frames video_swap (mediaDevices_getUserMedia env).
Proof. unfold mediaDevices_getUserMedia. frames_auto. Qed.

Lemma frames_getDisplayMedia env :
  frames video_swap (mediaDevices_getDisplayMedia env).
Proof. unfold mediaDevices_getDisplayMedia. frames_auto. Qed.

#[global] Hint Resolve frames_getUserMedia frames_getDisplayMedia : frames.

Lemma frames_initializeMedia env : frames video_swap (initializeMedia env).
Proof. unfold initializeMedia. frames_auto. Qed.

Lemma frames_setLocalPreviewStream v :
  frames video_swap (setLocalPreviewStream v).
Proof. unfold setLocalPreviewStream, set_track_enabled. frames_auto. Qed.

#[global] Hint Resolve frames_initializeMedia frames_setLocalPreviewStream : frames.

Lemma getAudioTracks_insert_video l : ∀ i t t0,
  l !! i = Some t0 → kind t0 = VideoKind → kind t = VideoKind →
  getAudioTracks (<[i:=t]> l) = getAudioTracks l.
Proof.
  unfold getAudioTracks.
  induction l as [|x l IH]; intros i t t0 Hi Ht0 Ht; [done|].
  destruct i as [|i].
  - injection Hi as ->. change (<[0:=t]> (t0 :: l)) with (t :: l).
    by rewrite !filter_cons_False by congruence.
  - change (<[S i:=t]> (x :: l)) with (x :: <[i:=t]> l).
    change ((x :: l) !! S i) with (l !! i) in Hi.
    destruct (decide (kind x = AudioKind)).
    + rewrite !filter_cons_True by done. by rewrite (IH i t t0).
    + rewrite !filter_cons_False by done. by rewrite (IH i t t0).
Qed.

(** Replacing the track of a video sender by a video track is a swap. *)
Lemma frames_at_replaceTrack env i t w :
  kind t = VideoKind →
  (∀ p, peerConnectionRef w = Some p →
        ∃ t0, senders p !! i = Some t0 ∧ kind t0 = VideoKind) →
  frames_at video_swap (sender_replaceTrack env i t) w.
Proof.
  intros Ht Hi. unfold frames_at, sender_replaceTrack.
  js_world w. js_eval. destruct peerConnectionRef0 as [p|]; [|reflexivity].
  destruct (Hi p eq_refl) as (t0 & Hi0 & Ht0). destruct p.
  js_fields. js_eval.
  destruct (replaceTrack_ok env _ i t).
  - split.
    + cbn [fmap option_fmap option_map peerConnectionRef]. f_equal.
      unfold pc_frame. cbn [senders remoteDescription localDescription
        remoteCandidates].
      by rewrite (getAudioTracks_insert_video _ _ _ t0), length_insert.
    + by exists [ReplaceTrack i t].
  - split; [done|]. by exists [ReplaceTrack i t].
Qed.

Lemma video_sender_Some w i p :
  video_sender w = Some i →
  peerConnectionRef w = Some p →
  ∃ t0, senders p !! i = Some t0 ∧ kind t0 = VideoKind.
Proof.
  unfold video_sender. intros Hvs Hpc. rewrite Hpc in Hvs. simpl in Hvs.
  destruct (list_find _ (senders p)) as [[j t0]|] eqn:Hfind; [|done].
  simpl in Hvs. simplify_eq.
  apply list_find_Some in Hfind as (Hj & Hk & _). eauto.
Qed.

Lemma head_getVideoTracks s t :
  head (getVideoTracks s) = Some t → kind t = VideoKind.
Proof.
  unfold getVideoTracks. intros H.
  assert (t ∈ filter (λ t, kind t = VideoKind) s) as Hin.
  { destruct (filter _ s); simplify_eq/=. apply list_elem_of_here. }
  by apply list_elem_of_filter in Hin as [? _].
Qed.

Lemma frames_stopScreenShare env : frames video_swap (stopScreenShare env).
Proof.
  unfold stopScreenShare.
  apply (frames_bind video_swap); [apply (frames_gets video_swap)|]. intros sharing.
  destruct (negb sharing); [apply (frames_ret video_swap)|].
  apply (frames_bind video_swap); [apply (frames_gets video_swap)|]. intros cam.
  apply (frames_bind video_swap); [by apply frames_stop_and_clear; intros []|]. intros _.
  destruct (cam ≫= _) as [cameraVideo|] eqn:Hcam; [|apply frames_setState].
  assert (kind cameraVideo = VideoKind) as Hkind.
  { destruct cam as [s|]; [|done]. by apply (head_getVideoTracks s). }
  apply (frames_try_finally video_swap); [|frames_auto].
  apply (frames_try_catch video_swap); [|intros _; apply (frames_ret video_swap)].
  intros w. unfold frames_at. rewrite getVideoSender_bind.
  destruct (video_sender w) as [i|] eqn:Hvs; [|reflexivity].
  apply frames_at_replaceTrack; [done|].
  intros p Hpc. by apply (video_sender_Some w).
Qed.

Lemma frames_toggleScreenShare env : frames video_swap (toggleScreenShare env).
Proof.
  unfold toggleScreenShare.
  apply (frames_bind video_swap); [apply (frames_gets video_swap)|]. intros sharing.
  destruct sharing; [apply frames_stopScreenShare|].
  apply (frames_try_catch video_swap); [|intros e; apply frames_onError].
  destruct (negb (isSecureContext env)); [apply frames_onError|].
  destruct (negb (hasGetDisplayMedia env)); [apply frames_onError|].
  apply (frames_bind video_swap); [apply (frames_gets video_swap)|]. intros cam.
  apply (frames_bind video_swap); [frames_auto|]. intros _.
  apply (frames_bind video_swap); [apply frames_getDisplayMedia|]. intros screenStream.
  destruct (head (getVideoTracks screenStream)) as [screenVideo|] eqn:Hsv;
    [|frames_auto].
  apply head_getVideoTracks in Hsv.
  apply (frames_bind video_swap); [frames_auto|]. intros _.
  intros w. unfold frames_at. rewrite getVideoSender_bind.
  destruct (video_sender w) as [i|] eqn:Hvs.
  - apply (frames_at_bind video_swap); [|intros _; frames_auto].
    apply frames_at_replaceTrack; [done|].
    intros p Hpc. by apply (video_sender_Some w).
  - apply frames_always. frames_auto.
Qed.

(** A turn of the event loop in which the page calls [toggleScreenShare]. *)
Lemma step_toggleScreenShare_swap env sid name w :
  video_swap w (step env sid name w CallToggleScreenShare).
Proof.
  unfold step. apply (frames_bind video_swap).
  - apply frames_toggleScreenShare.
  - intros _. unfold rerender. apply frames_keep; by intros [].
Qed.

Lemma video_swap_outgoing_audio w w' :
  video_swap w w' → outgoing_audio w' = outgoing_audio w.
Proof.
  intros [Hpc _]. unfold outgoing_audio.
  destruct (peerConnectionRef w') as [p'|], (peerConnectionRef w) as [p|];
    simplify_eq/=; [|done]. unfold pc_frame in Hpc. by simplify_eq.
Qed.

Lemma list_find_insert {A} (P : A → Prop) `{∀ x, Decision (P x)}
    (l : list A) i x y :
  list_find P l = Some (i, x) → P y →
  list_find P (<[i:=y]> l) = Some (i, y).
Proof.
  intros Hfind Hy. apply list_find_Some in Hfind as (Hi & Hx & Hbefore).
  apply list_find_Some. split; [|split; [done|]].
  - apply list_lookup_insert_eq. by eapply lookup_lt_Some.
  - intros j z Hj Hlt. rewrite list_lookup_insert_ne in Hj by lia. eauto.
Qed.

(** The first toggle, when everything succeeds. *)
Lemma startScreenShare_run env sid name w cam p i t0 :
  isScreenSharing (state w) = false →
  isSecureContext env = true →
  hasGetDisplayMedia env = true →
  cameraStreamRef w = Some cam →
  peerConnectionRef w = Some p →
  list_find (λ t, kind t = VideoKind) (senders p) = Some (i, t0) →
  getDisplayMedia env (trace w) = inr [VideoKind] →
  (∀ p i t, replaceTrack_ok env p i t = true) →
  let sv := {| kind := VideoKind; track_no := length (tracks w) |} in
  let w1 := step env sid name w CallToggleScreenShare in
  peerConnectionRef w1 = Some (set_senders (<[i:=sv]> (senders p)) p) ∧
  isScreenSharing (state w1) = true ∧
  screenStreamRef w1 = Some [sv] ∧
  cameraStreamRef w1 = Some cam ∧
  trace w1 = trace w ++ [GetDisplayMedia; ReplaceTrack i sv].
Proof.
  intros Hsh Hsec Hgdm Hcam Hpc Hfind Hdisplay Hreplace.
  js_world w. destruct p. js_fields.
  unfold step, handler, toggleScreenShare, mediaDevices_getDisplayMedia, new_stream,
    getVideoSender, sender_replaceTrack, setLocalPreviewStream,
    set_track_enabled.
  rewrite Hsec, Hgdm. js_eval.
  rewrite bool_decide_eq_false_2 by done. js_eval.
  rewrite Hdisplay. js_eval.
  change (list.head (getVideoTracks (imap _ [VideoKind])))
    with (Some {| kind := VideoKind; track_no := length tracks0 + 0 |}).
  rewrite Nat.add_0_r. js_eval. rewrite Hfind.
  cbn [fmap option_fmap option_map]. js_eval. rewrite Hreplace. js_eval.
  cbn [imap]. rewrite Nat.add_0_r.
  destruct (list.head (getAudioTracks cam)); cbn [from_option]; js_eval;
    rewrite <-?app_assoc; repeat split; reflexivity.
Qed.

(** The second toggle, when everything succeeds. *)
Lemma stopScreenShare_run env sid name w cam cv scr p i t0 :
  isScreenSharing (state w) = true →
  cameraStreamRef w = Some cam →
  head (getVideoTracks cam) = Some cv →
  screenStreamRef w = Some scr →
  peerConnectionRef w = Some p →
  list_find (λ t, kind t = VideoKind) (senders p) = Some (i, t0) →
  (∀ p i t, replaceTrack_ok env p i t = true) →
  let w2 := step env sid name w CallToggleScreenShare in
  peerConnectionRef w2 = Some (set_senders (<[i:=cv]> (senders p)) p) ∧
  isScreenSharing (state w2) = false ∧
  screenStreamRef w2 = None ∧
  cameraStreamRef w2 = Some cam ∧
  trace w2 = trace w ++ (TrackStop <$> scr) ++ [ReplaceTrack i cv].
Proof.
  intros Hsh Hcam Hcv Hscr Hpc Hfind Hreplace.
  js_world w. destruct p. js_fields.
  unfold step, handler, toggleScreenShare, stopScreenShare, stop_and_clear,
    getVideoSender, sender_replaceTrack, setLocalPreviewStream,
    set_track_enabled.
  js_eval. rewrite Hcv, stop_tracks_run. js_eval. rewrite Hfind.
  cbn [fmap option_fmap option_map]. js_eval. rewrite Hreplace. js_eval.
  destruct (list.head (getAudioTracks cam)); cbn [from_option]; js_eval;
    rewrite <-?app_assoc; repeat split; reflexivity.
Qed.


(** C6. Two calls of [toggleScreenShare], a render after each (camera to
    screen and back).  Whatever the browser answers, across the three worlds
    the audio senders of the peer connection carry the same tracks, the
    number of senders, the two descriptions and the candidates are the same,
    and no call of an offer/answer round trip is made ([createOffer],
    [createAnswer], [setLocalDescription], [setRemoteDescription], emission
    of an offer or an answer).  When the page is not sharing, the context is
    secure, the screen is granted with one video track and the engine takes
    the replacements: the first call replaces in place the track of the first
    video sender by the screen track, the second replaces it by the camera's
    video track and stops the screen track; the calls are exactly
    [getDisplayMedia], [replaceTrack], then [stop], [replaceTrack]. *)
Theorem screen_share_round_trip
    (env : Browser) (sid : string) (name : option string) (w : World) :
  let w1 := step env sid name w CallToggleScreenShare in
  let w2 := step env sid name w1 CallToggleScreenShare in
  video_swap w w1 ∧ video_swap w1 w2 ∧
  outgoing_audio w1 = outgoing_audio w ∧
  outgoing_audio w2 = outgoing_audio w ∧
  ∀ cam cv p i t0,
    isScreenSharing (state w) = false →
    isSecureContext env = true →
    hasGetDisplayMedia env = true →
    cameraStreamRef w = Some cam →
    head (getVideoTracks cam) = Some cv →
    peerConnectionRef w = Some p →
    list_find (λ t, kind t = VideoKind) (senders p) = Some (i, t0) →
    getDisplayMedia env (trace w) = inr [VideoKind] →
    (∀ p i t, replaceTrack_ok env p i t = true) →
    let sv := {| kind := VideoKind; track_no := length (tracks w) |} in
    peerConnectionRef w1 = Some (set_senders (<[i:=sv]> (senders p)) p) ∧
    isScreenSharing (state w1) = true ∧
    trace w1 = trace w ++ [GetDisplayMedia; ReplaceTrack i sv] ∧
    peerConnectionRef w2 = Some (set_senders (<[i:=cv]> (senders p)) p) ∧
    isScreenSharing (state w2) = false ∧
    trace w2 = trace w1 ++ [TrackStop sv; ReplaceTrack i cv].
Proof.
  intros w1 w2.
  assert (video_swap w w1) as H1 by apply step_toggleScreenShare_swap.
  assert (video_swap w1 w2) as H2 by apply step_toggleScreenShare_swap.
  split; [done|]. split; [done|].
  split; [by apply video_swap_outgoing_audio|].
  split.
  { rewrite (video_swap_outgoing_audio w1 w2 H2).
    by apply video_swap_outgoing_audio. }
  intros cam cv p i t0 Hsh Hsec Hgdm Hcam Hcv Hpc Hfind Hdisplay Hreplace sv.
  destruct (startScreenShare_run env sid name w cam p i t0
              Hsh Hsec Hgdm Hcam Hpc Hfind Hdisplay Hreplace)
    as (Hpc1 & Hsh1 & Hscr1 & Hcam1 & Htr1).
  fold w1 sv in Hpc1, Hsh1, Hscr1, Hcam1, Htr1.
  assert (list_find (λ t, kind t = VideoKind)
            (senders (set_senders (<[i:=sv]> (senders p)) p)) = Some (i, sv))
    as Hfind1 by by apply (list_find_insert _ _ _ t0).
  destruct (stopScreenShare_run env sid name w1 cam cv [sv] _ i sv
              Hsh1 Hcam1 Hcv Hscr1 Hpc1 Hfind1 Hreplace)
    as (Hpc2 & Hsh2 & _ & _ & Htr2).
  fold w2 in Hpc2, Hsh2, Htr2.
  repeat split; try done.
  rewrite Hpc2. destruct p. unfold set_senders. simpl.
  by rewrite list_insert_insert_eq.
Qed.

Lemma screen_share_round_trip_witness :
  let a := {| kind := AudioKind; track_no := 0 |} in
  let v := {| kind := VideoKind; track_no := 1 |} in
  let sv := {| kind := VideoKind; track_no := 2 |} in
  let w1 := step ideal_browser "session-1" (Some "Ann") answered
              CallToggleScreenShare in
  let w2 := step ideal_browser "session-1" (Some "Ann") w1
              CallToggleScreenShare in
  isScreenSharing (state answered) = false ∧
  cameraStreamRef answered = Some [a; v] ∧
  (senders <$> peerConnectionRef answered) = Some [a; v] ∧
  (senders <$> peerConnectionRef w1) = Some [a; sv] ∧
  (senders <$> peerConnectionRef w2) = Some [a; v] ∧
  trace w2 = trace answered ++ [GetDisplayMedia; ReplaceTrack 1 sv;
                                TrackStop sv; ReplaceTrack 1 v].
Proof.
  intros a v sv w1 w2.
  split; [reflexivity|]. split; [reflexivity|]. split; [reflexivity|].
  destruct (screen_share_round_trip ideal_browser "session-1" (Some "Ann")
              answered) as (_ & _ & _ & _ & Hpath).
  destruct (Hpath [a; v] v
              {| senders := [a; v]; remoteDescription := Some 7;
                 localDescription := Some 200; remoteCandidates := [] |}
              1 v eq_refl eq_refl eq_refl eq_refl eq_refl eq_refl eq_refl
              eq_refl (λ _ _ _, eq_refl))
    as (Hpc1 & _ & Htr1 & Hpc2 & _ & Htr2).
  fold w1 in Hpc1, Htr1. fold w1 w2 in Hpc2, Htr2.
  split; [by rewrite Hpc1|]. split; [by rewrite Hpc2|].
  rewrite Htr2, Htr1. by rewrite <-app_assoc.
Defined.

(** * More of the hooks, and the route guard

    What the handlers keep along every sequence of events, the paths on
    which something fails, and [src/middleware.ts]. *)

(** The definitions of the hooks that are made of other computations. *)
Create HintDb hooks.
#[global] Hint Unfold
  on_connect on_disconnect on_connect_error joinSession leaveSession
  endSessionCall sendOffer sendAnswer sendIceCandidate sendMediaState
  socket_sendChatMessage on_pc update_pc pc_setRemoteDescription
  pc_addIceCandidate pc_createOffer pc_createAnswer pc_setLocalDescription
  pc_addTrack sender_replaceTrack close_peer_connection onError
  on_socket_error onicecandidate onconnectionstatechange ontrack handleOffer
  handleAnswer handleIceCandidate handleMediaState handleChatMessage
  setTimeout createPeerConnection createOffer handleReadyToConnect
  handleUserLeft stop_and_clear handleSessionEnded handleUserJoined
  offer_for_joined_user onSessionJoined sendChatMessage
  mediaDevices_getUserMedia mediaDevices_getDisplayMedia initializeMedia
  getVideoSender setLocalPreviewStream stopScreenShare toggleScreenShare
  startSession endSession toggleAudio toggleVideo run_timer fire_timer
  log setState rerender set_track_enabled track_stop stop_tracks : hooks.

(** The same without the calls on the peer connection, the sending of
    descriptions and the two teardowns: what is left when these are taken as
    a whole. *)
Create HintDb handlers.
#[global] Hint Unfold
  on_connect on_disconnect on_connect_error joinSession leaveSession
  endSessionCall sendIceCandidate sendMediaState socket_sendChatMessage
  close_peer_connection onError on_socket_error onicecandidate
  onconnectionstatechange ontrack handleOffer handleAnswer handleIceCandidate
  handleMediaState handleChatMessage setTimeout createPeerConnection
  createOffer handleReadyToConnect handleUserLeft stop_and_clear
  handleUserJoined offer_for_joined_user onSessionJoined sendChatMessage
  mediaDevices_getUserMedia mediaDevices_getDisplayMedia initializeMedia
  getVideoSender setLocalPreviewStream stopScreenShare toggleScreenShare
  startSession toggleAudio toggleVideo run_timer fire_timer
  log setState rerender set_track_enabled track_stop stop_tracks : handlers.

(** Walk down a computation, case by case on what it is made of; [leaf]
    settles what the walk does not open, and a definition is unfolded when
    nothing else applies. *)
Ltac never_throws_walk leaf :=
  repeat first
    [ lazymatch goal with
      | |- never_throws (let _ := _ in _) => cbv zeta
      | |- never_throws (from_option _ _ ?x) => destruct x; cbn [from_option]
      | |- never_throws (if ?b then _ else _) => destruct b
      | |- never_throws (match ?x with _ => _ end) => destruct x eqn:?
      end
    | leaf
    | progress autounfold with hooks ].

Ltac frames_walk_with unfolding leaf :=
  repeat first
    [ leaf
    | lazymatch goal with
      | |- frames ?R (mret _) => apply (frames_ret R)
      | |- frames ?R (throw _) => apply (frames_throw R)
      | |- frames ?R (gets _) => apply (frames_gets R)
      | |- frames ?R (when _ _) => apply (frames_when R)
      | |- frames ?R (for_of _ _) => apply (frames_for_of R); intros ?; cbv beta
      | |- frames ?R (try_catch _ _) => apply (frames_try_catch R); [|intros ?]
      | |- frames ?R (try_finally _ _) => apply (frames_try_finally R)
      | |- frames ?R (mbind _ _) => apply (frames_bind R); [|intros ?]
      | |- frames _ (let _ := _ in _) => cbv zeta
      | |- frames _ (from_option _ _ ?x) => destruct x; cbn [from_option]
      | |- frames _ (if ?b then _ else _) => destruct b
      | |- frames _ (match ?x with _ => _ end) => destruct x eqn:?
      end
    | progress unfolding ].

Ltac unfold_hooks := idtac; autounfold with hooks.
Ltac unfold_handlers := idtac; autounfold with handlers.

Ltac frames_walk leaf := frames_walk_with unfold_hooks leaf.

(** ** No handler lets an exception out *)

Lemma never_throws_ret {A} (a : A) : never_throws (mret a).
Proof. intros w. by exists a. Qed.

Lemma never_throws_gets {A} (g : World → A) : never_throws (gets g).
Proof. intros w. by exists (g w). Qed.

Lemma never_throws_modify (g : World → World) : never_throws (modify g).
Proof. intros w. by exists (). Qed.

Lemma never_throws_new_stream kinds : never_throws (new_stream kinds).
Proof. intros w. by eexists. Qed.

Lemma never_throws_bind {A B} (m : Js A) (f : A → Js B) :
  never_throws m → (∀ a, never_throws (f a)) → never_throws (m ≫= f).
Proof.
  intros Hm Hf w. destruct (Hm w) as [a Ha].
  unfold completion, mbind, Js_bind in *.
  destruct (m w) as [c w']. simpl in Ha. rewrite Ha. apply Hf.
Qed.

(** What the body of a [try] throws is caught: the handler decides. *)
Lemma never_throws_try_catch {A} (body : Js A) (h : Exn → Js A) :
  (∀ e, never_throws (h e)) → never_throws (try_catch body h).
Proof.
  intros Hh w. unfold completion, try_catch.
  destruct (body w) as [[a|e] w']; [by exists a|]. apply Hh.
Qed.

Lemma never_throws_try_finally {A} (body : Js A) (final : Js unit) :
  never_throws body → never_throws final →
  never_throws (try_finally body final).
Proof.
  intros Hb Hf w. destruct (Hb w) as [a Ha].
  unfold completion, try_finally in *.
  destruct (body w) as [c w']. simpl in Ha. rewrite Ha.
  destruct (Hf w') as [u Hu]. unfold completion in Hu.
  destruct (final w') as [c' w'']. simpl in Hu. rewrite Hu. by exists a.
Qed.

Lemma never_throws_for_of {A} (l : list A) (body : A → Js unit) :
  (∀ x, never_throws (body x)) → never_throws (for_of l body).
Proof.
  intros Hb. induction l as [|x l IH]; simpl.
  - apply never_throws_ret.
  - apply never_throws_bind; [apply Hb|by intros _].
Qed.

Lemma never_throws_when (b : bool) (m : Js unit) :
  never_throws m → never_throws (when b m).
Proof. destruct b; [done|]. intros _. apply never_throws_ret. Qed.

Ltac never_throws_leaf :=
  idtac;
  lazymatch goal with
  | |- never_throws (mret _) => apply never_throws_ret
  | |- never_throws (gets _) => apply never_throws_gets
  | |- never_throws (modify _) => apply never_throws_modify
  | |- never_throws (new_stream _) => apply never_throws_new_stream
  | |- never_throws (when _ _) => apply never_throws_when
  | |- never_throws (for_of _ _) => apply never_throws_for_of; intros ?; cbv beta
  | |- never_throws (try_catch _ _) => apply never_throws_try_catch; intros ?
  | |- never_throws (try_finally _ _) => apply never_throws_try_finally
  | |- never_throws (mbind _ _) => apply never_throws_bind; [|intros ?]
  | |- never_throws (emit _) => unfold emit
  | |- never_throws (connect _) => unfold connect
  | |- never_throws disconnect => unfold disconnect
  end.

(** X1. No handler lets an exception out. Whatever the browser answers (camera
    or screen refused, any call on the peer connection rejected) and in
    whatever world it runs, each page action, socket handler, peer-connection
    notification and timer callback of the hook completes normally: what is
    thrown inside is caught, and reported through [onError] or dropped. *)
Theorem handlers_never_throw
    (env : Browser) (sid : string) (name : option string)
    (e : Event) (w : World) :
  completion (handler env sid name e) w = Normal ().
Proof.
  assert (never_throws (handler env sid name e)) as H.
  { destruct e; cbn [handler]; never_throws_walk never_throws_leaf. }
  destruct (H w) as [[] Hw]. exact Hw.
Qed.

(** ** Events one after the other *)

Lemma frames_rerender (R : relation World) :
  (∀ w, R w (exec rerender w)) → frames R rerender.
Proof. intros H w. apply H. Qed.

(** What every handler but those of [P] and the rendering keep, a run
    without an event of [P] keeps. *)
Lemma frames_run (R : relation World) `{!PreOrder R}
    env sid name (P : Event → bool) :
  (∀ e, P e = false → frames R (handler env sid name e)) →
  frames R rerender →
  ∀ es w, existsb P es = false → R w (run env sid name es w).
Proof.
  intros Hh Hr es. induction es as [|e es IH]; intros w Hes.
  - reflexivity.
  - cbn [existsb] in Hes. apply orb_false_iff in Hes as [He Hes].
    change (run env sid name (e :: es) w)
      with (run env sid name es (step env sid name w e)).
    etrans; [|by apply IH].
    unfold step. apply (frames_bind R); [by apply Hh|by intros _].
Qed.

(** ** Without a socket nothing is sent *)

#[global] Instance silent_preorder : PreOrder silent.
Proof.
  split.
  - intros w Hw. done.
  - intros w1 w2 w3 H12 H23 H1. destruct (H12 H1) as [H2 Ht2].
    destruct (H23 H2) as [H3 Ht3]. split; [done|congruence].
Qed.

Lemma silent_keep w w' :
  socketRef w' = socketRef w →
  socket_calls (trace w') = socket_calls (trace w) →
  silent w w'.
Proof. intros Hs Ht Hw. split; [congruence|done]. Qed.

Lemma socket_calls_snoc t e :
  is_socket_call e = false → socket_calls (t ++ [e]) = socket_calls t.
Proof.
  intros He. unfold socket_calls. rewrite list.filter_app.
  rewrite filter_cons_False by (by rewrite He). by rewrite filter_nil, app_nil_r.
Qed.

Ltac silent_leaf :=
  idtac;
  lazymatch goal with
  | |- frames _ (modify _) =>
      let x := fresh "w" in
      apply frames_modify; intros x; apply silent_keep; destruct x;
      first [reflexivity | js_eval; apply socket_calls_snoc; reflexivity]
  | |- frames _ (new_stream _) =>
      let x := fresh "w" in
      intros x; apply silent_keep; destruct x; reflexivity
  | |- frames _ (emit _) =>
      let x := fresh "w" in let H := fresh "H" in
      intros x H; destruct x; simpl in H; subst; done
  | |- frames _ disconnect =>
      let x := fresh "w" in let H := fresh "H" in
      intros x H; destruct x; simpl in H; subst; done
  end.

Lemma handler_silent env sid name e :
  starts e = false → frames silent (handler env sid name e).
Proof.
  intros He. destruct e; try done; cbn [handler]; frames_walk silent_leaf.
Qed.

(** X2. Without a socket the hook sends nothing. From a world whose
    [socketRef] is null, any sequence of events in which the page does not
    call [startSession] leaves [socketRef] null and makes no call on a socket:
    no socket is opened or disconnected and nothing is emitted (every sender
    of the socket hook is guarded by [if (socketRef.current)], and only
    [connect] makes a socket). *)
Theorem no_socket_no_socket_call
    (env : Browser) (sid : string) (name : option string)
    (es : list Event) (w : World) :
  socketRef w = None →
  existsb starts es = false →
  socketRef (run env sid name es w) = None ∧
  socket_calls (trace (run env sid name es w)) = socket_calls (trace w).
Proof.
  intros Hw Hes.
  assert (silent w (run env sid name es w)) as H.
  { apply (frames_run silent env sid name starts); [apply handler_silent| |done].
    unfold rerender. frames_walk silent_leaf. }
  exact (H Hw).
Qed.

Lemma no_socket_no_socket_call_witness :
  let w := run ideal_browser "session-1" (Some "Ann")
             [CallStartSession; CallEndSession] mounted in
  let es := [TimerFired 0; ReadyToConnect; offer_from_bob 7;
             IceCandidateFound (Some 3); CallToggleAudio;
             CallSendChatMessage "m1" "t1" [104%N; 105%N]] in
  socketRef w = None ∧
  socketRef (run ideal_browser "session-1" (Some "Ann") es w) = None ∧
  socket_calls (trace (run ideal_browser "session-1" (Some "Ann") es w))
    = [SocketOpen; Emit (JoinSession "session-1");
       Emit (EndSession "session-1"); Emit (LeaveSession "session-1");
       SocketDisconnect].
Proof.
  intros w es. split; [reflexivity|].
  destruct (no_socket_no_socket_call ideal_browser "session-1" (Some "Ann")
              es w eq_refl eq_refl) as [Hs Ht].
  split; [exact Hs|]. rewrite Ht. reflexivity.
Defined.

(** ** One socket at a time *)

#[global] Instance keeps_socket_balance_preorder : PreOrder keeps_socket_balance.
Proof.
  split.
  - intros w Hw. done.
  - intros w1 w2 w3 H12 H23 H1. by apply H23, H12.
Qed.

Lemma count_calls_app e t1 t2 :
  count_calls e (t1 ++ t2) = count_calls e t1 + count_calls e t2.
Proof. unfold count_calls. by rewrite list.filter_app, length_app. Qed.

Lemma count_calls_nil e : count_calls e [] = 0.
Proof. reflexivity. Qed.

Lemma count_calls_cons e x t :
  count_calls e (x :: t) = (if decide (x = e) then 1 else 0) + count_calls e t.
Proof.
  unfold count_calls. destruct (decide (x = e)).
  - by rewrite filter_cons_True.
  - by rewrite filter_cons_False.
Qed.

Lemma count_calls_snoc e t x :
  x ≠ e → count_calls e (t ++ [x]) = count_calls e t.
Proof.
  intros Hx. rewrite count_calls_app, count_calls_cons.
  rewrite decide_False by done. unfold count_calls. simpl. lia.
Qed.

Lemma keeps_socket_balance_keep w w' :
  socketRef w' = socketRef w →
  count_calls SocketOpen (trace w') = count_calls SocketOpen (trace w) →
  count_calls SocketDisconnect (trace w')
    = count_calls SocketDisconnect (trace w) →
  keeps_socket_balance w w'.
Proof.
  unfold keeps_socket_balance, socket_balance. intros -> -> ->. done.
Qed.

Lemma connect_keeps_socket_balance env :
  frames keeps_socket_balance (connect env).
Proof.
  intros w. unfold frames_at, keeps_socket_balance, socket_balance, connect.
  destruct (truthy (getAuthToken env)); [|by destruct w].
  destruct (socketRef w) as [so|] eqn:Hso; js_world w.
  - js_eval. rewrite bool_decide_eq_true_2 by (by eexists). js_eval.
    rewrite <-!app_assoc, !count_calls_app, !count_calls_cons.
    repeat case_decide; try done. rewrite !count_calls_nil. lia.
  - js_eval. rewrite bool_decide_eq_false_2 by (by intros [? ?]). js_eval.
    rewrite !count_calls_app, !count_calls_cons.
    repeat case_decide; try done. rewrite !count_calls_nil. lia.
Qed.

Lemma disconnect_keeps_socket_balance :
  frames keeps_socket_balance disconnect.
Proof.
  intros w. unfold frames_at, keeps_socket_balance, socket_balance, disconnect.
  destruct (socketRef w) as [so|] eqn:Hso; js_world w; [|done]. js_eval.
  rewrite !count_calls_app, !count_calls_cons.
  repeat case_decide; try done. rewrite !count_calls_nil. lia.
Qed.

Ltac socket_balance_leaf :=
  idtac;
  lazymatch goal with
  | |- frames _ (modify _) =>
      let x := fresh "w" in
      apply frames_modify; intros x; apply keeps_socket_balance_keep;
      destruct x;
      first [reflexivity | js_eval; apply count_calls_snoc; done]
  | |- frames _ (new_stream _) =>
      let x := fresh "w" in
      intros x; apply keeps_socket_balance_keep; destruct x; reflexivity
  | |- frames _ (emit _) => unfold emit
  | |- frames _ (connect _) => apply connect_keeps_socket_balance
  | |- frames _ disconnect => apply disconnect_keeps_socket_balance
  end.

Lemma handler_keeps_socket_balance env sid name e :
  frames keeps_socket_balance (handler env sid name e).
Proof. destruct e; cbn [handler]; frames_walk socket_balance_leaf. Qed.

(** X3. The socket hook holds at most one socket. Along every sequence of
    events the number of sockets opened is the number of sockets disconnected,
    plus one when [socketRef] holds a socket: [connect] disconnects the socket
    it replaces, [disconnect] forgets the one it disconnects. *)
Theorem one_socket_at_a_time
    (env : Browser) (sid : string) (name : option string)
    (es : list Event) (w : World) :
  socket_balance w → socket_balance (run env sid name es w).
Proof.
  apply (frames_run keeps_socket_balance env sid name (λ _, false)).
  - intros e _. apply handler_keeps_socket_balance.
  - unfold rerender. frames_walk socket_balance_leaf.
  - by induction es.
Qed.

Lemma one_socket_at_a_time_witness :
  let es := [CallStartSession; CallStartSession; SocketConnected;
             CallEndSession; CallStartSession] in
  socket_balance mounted ∧
  socket_balance (run ideal_browser "session-1" (Some "Ann") es mounted).
Proof.
  intros es. split; [reflexivity|].
  apply (one_socket_at_a_time ideal_browser "session-1" (Some "Ann")).
  reflexivity.
Defined.

(** ** The chat log *)

#[global] Instance same_chat_preorder : PreOrder same_chat.
Proof.
  split.
  - intros w. done.
  - intros w1 w2 w3 H12 H23. unfold same_chat in *. congruence.
Qed.

Ltac same_chat_leaf :=
  idtac;
  lazymatch goal with
  | |- frames _ (modify _) =>
      let x := fresh "w" in
      apply frames_modify; intros x; destruct x; reflexivity
  | |- frames _ (new_stream _) =>
      let x := fresh "w" in intros x; destruct x; reflexivity
  | |- frames _ (emit _) => unfold emit
  | |- frames _ (connect _) => unfold connect
  | |- frames _ disconnect => unfold disconnect
  end.

Lemma step_chat env sid name w e :
  chatMessages (step env sid name w e)
    = chatMessages w ++ chat_of_event name e.
Proof.
  assert (frames same_chat rerender) as Hr
    by (unfold rerender; frames_walk same_chat_leaf).
  destruct e;
    try (cbn [chat_of_event]; rewrite app_nil_r;
         apply (frames_bind same_chat); [|by intros _];
         cbn [handler]; by frames_walk same_chat_leaf).
  - unfold step. cbn [handler chat_of_event]. unfold sendChatMessage.
    destruct (socketRef w) as [so|] eqn:Hso; js_world w;
      destruct (trim text) as [|c s]; unfold socket_sendChatMessage;
      js_eval; by rewrite ?app_nil_r.
  - js_world w. reflexivity.
Qed.

(** X4. The chat log is the record of the chat events, in their order. After
    any sequence of events the log is the log before, followed by one entry
    for each [sendChatMessage] whose text is not only white space (trimmed,
    [isSelf] true, from the own display name or "You") and one for each chat
    message received (as received, not trimmed, [isSelf] false, from the
    sender's display name). No other event changes the log: [endSession] and
    session-ended do not clear it. *)
Theorem chat_log_of_events
    (env : Browser) (sid : string) (name : option string)
    (es : list Event) (w : World) :
  chatMessages (run env sid name es w)
    = chatMessages w ++ flat_map (chat_of_event name) es.
Proof.
  revert w. induction es as [|e es IH]; intros w.
  - by rewrite app_nil_r.
  - change (run env sid name (e :: es) w)
      with (run env sid name es (step env sid name w e)).
    rewrite IH, step_chat. cbn [flat_map]. by rewrite app_assoc.
Qed.

(** ** Starting without camera or without token *)

(** X5. When [getUserMedia] is refused, [startSession] reports two errors
    through [onError], first that of [initializeMedia], then its own, and
    returns normally. Nothing else happens: no peer connection, no socket, no
    join request, no timer; but for the trace the world is as before. *)
Theorem startSession_media_denied
    (env : Browser) (sid : string) (w : World) (e : Exn) :
  getUserMedia env (trace w) = inl e →
  startSession env sid w =
    (Normal (),
     set_trace
       (trace w ++
        [GetUserMedia;
         OnError "Failed to access camera/microphone. Please check permissions.";
         OnError "Failed to start video session"]) w).
Proof.
  intros Hmedia. js_world w.
  unfold startSession, initializeMedia, mediaDevices_getUserMedia, onError.
  js_eval. rewrite Hmedia. js_eval. by rewrite <-!app_assoc.
Qed.

Lemma startSession_media_denied_witness :
  getUserMedia hostile_browser (trace mounted) = inl NotAllowedError ∧
  startSession hostile_browser "session-1" mounted =
    (Normal (),
     set_trace
       [GetUserMedia;
        OnError "Failed to access camera/microphone. Please check permissions.";
        OnError "Failed to start video session"] mounted).
Proof.
  split; [reflexivity|].
  apply (startSession_media_denied hostile_browser "session-1" mounted
           NotAllowedError).
  reflexivity.
Defined.

Lemma createPeerConnection_run w :
  createPeerConnection w = (Normal (), with_new_connection w).
Proof.
  unfold createPeerConnection, with_new_connection, new_connection.
  destruct (localStreamRef w) as [s|] eqn:Hs; js_world w; js_eval.
  - erewrite addTracks_run by reflexivity. js_eval.
    cbn [stream_tracks default]. by rewrite <-app_assoc.
  - reflexivity.
Qed.

(** X6. [createPeerConnection] makes a connection with one sender per track of
    the stream in [localStreamRef], in the order of the stream (none when
    there is no stream), with no description and no candidate, and stores it
    in [peerConnectionRef]. A connection that was there is replaced without
    being closed. Only the ref and the trace change. *)
Theorem createPeerConnection_senders (w : World) :
  let w' := exec createPeerConnection w in
  completion createPeerConnection w = Normal () ∧
  peerConnectionRef w' =
    Some {| senders := stream_tracks (localStreamRef w);
            remoteDescription := None; localDescription := None;
            remoteCandidates := [] |} ∧
  trace w' =
    trace w ++ NewPeerConnection
               :: (AddTrack <$> stream_tracks (localStreamRef w)) ∧
  w' = set_trace (trace w') (set_peerConnectionRef (peerConnectionRef w') w).
Proof.
  unfold exec, completion. rewrite createPeerConnection_run.
  unfold with_new_connection, new_connection. js_world w. done.
Qed.

(** X7. With no token (or an empty one) in the local storage and no socket
    yet, [startSession] gets the media and creates the peer connection with
    the new tracks, but [connect] opens no socket and sets [connectionError]
    to "No authentication token available". The join request is not emitted,
    neither at once nor when the retry timer fires, and [onError] is not
    called. *)
Theorem startSession_without_token
    (env : Browser) (sid : string) (name : option string) (w : World)
    (kinds : list TrackKind) :
  truthy (getAuthToken env) = None →
  getUserMedia env (trace w) = inr kinds →
  socketRef w = None →
  let w1 := step env sid name w CallStartSession in
  let w2 := step env sid name w1 (TimerFired (length (timers w))) in
  let stream := stream_at (length (tracks w)) kinds in
  socketRef w1 = None ∧
  connectionError w1 = Some "No authentication token available" ∧
  (senders <$> peerConnectionRef w1) = Some stream ∧
  trace w1 =
    trace w ++ [GetUserMedia; NewPeerConnection] ++ (AddTrack <$> stream)
      ++ [SetTimeout 700] ∧
  timers w1 = timers w ++ [(700, RetryJoin)] ∧
  trace w2 = trace w1 ∧
  timers w2 = timers w.
Proof.
  intros Htoken Hmedia Hsock w1 w2 stream. subst w1 w2 stream.
  js_world w.
  unfold step, handler, startSession, initializeMedia,
    mediaDevices_getUserMedia, new_stream, connect, joinSession, setTimeout.
  js_eval. rewrite Hmedia. js_eval. rewrite createPeerConnection_run.
  unfold with_new_connection, new_connection. js_eval. rewrite Htoken.
  js_eval. unfold fire_timer. js_eval.
  rewrite list_lookup_middle by done. js_eval.
  unfold run_timer, joinSession. js_eval.
  rewrite (delete_middle _ []), app_nil_r. cbn [stream_tracks default].
  unfold stream_at. rewrite <-!app_assoc. done.
Qed.

Lemma startSession_without_token_witness :
  let w1 := step signed_out_browser "session-1" (Some "Ann") mounted
              CallStartSession in
  let w2 := step signed_out_browser "session-1" (Some "Ann") w1
              (TimerFired 0) in
  socketRef w1 = None ∧
  connectionError w1 = Some "No authentication token available" ∧
  trace w1 =
    [GetUserMedia; NewPeerConnection;
     AddTrack {| kind := AudioKind; track_no := 0 |};
     AddTrack {| kind := VideoKind; track_no := 1 |}; SetTimeout 700] ∧
  trace w2 = trace w1.
Proof.
  intros w1 w2.
  destruct (startSession_without_token signed_out_browser "session-1"
              (Some "Ann") mounted [AudioKind; VideoKind]
              eq_refl eq_refl eq_refl)
    as (Hs & He & _ & Ht & _ & Ht2 & _).
  split; [exact Hs|]. split; [exact He|]. split; [exact Ht|exact Ht2].
Defined.

(** ** Offers *)

(** X8. When the engine fails to create the offer, or refuses it as local
    description, [createOffer] reports "Failed to start call" through
    [onError] and returns normally, and no offer is emitted. The peer
    connection (made on the way, with the local tracks, if there was none)
    stays in [peerConnectionRef]; nothing else changes. *)
Theorem createOffer_failure
    (env : Browser) (sid : string) (w : World) :
  (∀ p, createOffer_result env p = None ∨
        ∃ d, createOffer_result env p = Some d ∧
             setLocalDescription_ok env p d = false) →
  let w0 := with_connection w in
  let w' := exec (createOffer env sid) w in
  completion (createOffer env sid) w = Normal () ∧
  (∃ calls, trace w' = trace w0 ++ CreateOffer :: calls
                         ++ [OnError "Failed to start call"] ∧
            (calls = [] ∨ ∃ d, calls = [SetLocalDescription d])) ∧
  w' = set_trace (trace w') w0.
Proof.
  intros Hfail w0 w'. subst w0 w'. unfold with_connection, createOffer.
  unfold exec, completion, try_catch. rewrite run_gets.
  destruct (peerConnectionRef w) as [p|] eqn:Hpc.
  - rewrite bool_decide_eq_false_2 by done.
    destruct (Hfail p) as [Hnone|(d & Hd & Hrefused)];
      js_world w; destruct p;
      unfold pc_createOffer, pc_setLocalDescription, sendOffer, onError;
      js_eval.
    + rewrite Hnone. js_eval. split; [done|]. split; [|done].
      exists []. split; [by rewrite <-app_assoc|by left].
    + rewrite Hd. js_eval. rewrite Hrefused. js_eval.
      split; [done|]. split; [|done].
      exists [SetLocalDescription d]. split; [by rewrite <-!app_assoc|eauto].
  - rewrite bool_decide_eq_true_2 by done. cbn [when].
    erewrite run_bind by apply createPeerConnection_run.
    destruct (Hfail (new_connection (localStreamRef w)))
      as [Hnone|(d & Hd & Hrefused)];
      unfold with_new_connection, new_connection in *;
      js_world w;
      unfold pc_createOffer, pc_setLocalDescription, sendOffer, onError;
      js_eval.
    + rewrite Hnone. js_eval. split; [done|]. split; [|done].
      exists []. split; [by rewrite <-app_assoc|by left].
    + rewrite Hd. js_eval. rewrite Hrefused. js_eval.
      split; [done|]. split; [|done].
      exists [SetLocalDescription d]. split; [by rewrite <-!app_assoc|eauto].
Qed.

Lemma createOffer_failure_witness :
  let w' := exec (createOffer hostile_browser "session-1") started in
  trace w' = trace started ++ [CreateOffer; OnError "Failed to start call"] ∧
  w' = set_trace (trace w') (with_connection started).
Proof.
  intros w'.
  destruct (createOffer_failure hostile_browser "session-1" started
              (λ p, or_introl eq_refl)) as (_ & _ & Hw).
  split; [by vm_compute|exact Hw].
Defined.

(** ** A user joins *)

(** X9. On user-joined the initiator that has a peer connection schedules an
    offer 500 ms later and stores the display name of the peer; when that
    timer fires (the engine cooperating, a socket there) the offer is created,
    made the local description and sent, and the timer is gone. A page that is
    not the initiator schedules nothing and only stores the name. *)
Theorem user_joined_offer_after_delay
    (env : Browser) (sid : string) (wA wB : World)
    (p : RTCPeerConnection) (s : Socket) (o : Descriptor) (data : Peer) :
  creates_offer env o →
  accepts_local_descriptions env →
  isInitiatorRef wA = true →
  peerConnectionRef wA = Some p →
  socketRef wA = Some s →
  isInitiatorRef wB = false →
  let wA1 := exec (handleUserJoined data) wA in
  let wA2 := exec (fire_timer env sid (length (timers wA))) wA1 in
  wA1 = set_state (set_peerDisplayName (Some (displayName data)) (state wA))
          (set_timers (timers wA ++ [(500, OfferForJoinedUser)])
             (set_trace (trace wA ++ [SetTimeout 500]) wA)) ∧
  trace wA2 =
    trace wA1 ++ [CreateOffer; SetLocalDescription o; Emit (SendOffer sid o)] ∧
  peerConnectionRef wA2 = Some (set_localDescription (Some o) p) ∧
  timers wA2 = timers wA ∧
  handleUserJoined data wB =
    (Normal (),
     set_state (set_peerDisplayName (Some (displayName data)) (state wB)) wB).
Proof.
  intros Hoffer Hlocal HiA Hpc Hsock HiB wA1 wA2. subst wA1 wA2.
  assert (handleUserJoined data wA =
    (Normal (),
     set_state (set_peerDisplayName (Some (displayName data)) (state wA))
       (set_timers (timers wA ++ [(500, OfferForJoinedUser)])
          (set_trace (trace wA ++ [SetTimeout 500]) wA)))) as HA.
  { unfold handleUserJoined. rewrite !run_gets, HiA, Hpc.
    rewrite bool_decide_eq_true_2 by (by eexists). cbn [andb when].
    unfold setTimeout. js_world wA. reflexivity. }
  unfold exec. rewrite HA. cbn [snd]. split; [done|].
  split; [|split; [|split]].
  - js_world wA. destruct p. unfold fire_timer. js_eval.
    rewrite list_lookup_middle by done. js_eval.
    unfold run_timer, offer_for_joined_user, pc_createOffer,
      pc_setLocalDescription, sendOffer. js_eval.
    rewrite Hoffer. js_eval. rewrite Hlocal. js_eval.
    by rewrite <-!app_assoc.
  - js_world wA. destruct p. unfold fire_timer. js_eval.
    rewrite list_lookup_middle by done. js_eval.
    unfold run_timer, offer_for_joined_user, pc_createOffer,
      pc_setLocalDescription, sendOffer. js_eval.
    rewrite Hoffer. js_eval. rewrite Hlocal. js_eval. done.
  - js_world wA. destruct p. unfold fire_timer. js_eval.
    rewrite list_lookup_middle by done. js_eval.
    unfold run_timer, offer_for_joined_user, pc_createOffer,
      pc_setLocalDescription, sendOffer. js_eval.
    rewrite Hoffer. js_eval. rewrite Hlocal. js_eval.
    by rewrite (delete_middle _ []), app_nil_r.
  - unfold handleUserJoined. rewrite !run_gets, HiB. cbn [andb when].
    js_world wB. reflexivity.
Qed.

Lemma user_joined_offer_after_delay_witness :
  let wA := exec (onSessionJoined (relay_join_ack "session-1" [] "ann"))
              started in
  let wA1 := exec (handleUserJoined bob) wA in
  let wA2 := exec (fire_timer ideal_browser "session-1" 1) wA1 in
  timers wA = [(700, RetryJoin)] ∧
  timers wA1 = [(700, RetryJoin); (500, OfferForJoinedUser)] ∧
  trace wA2 =
    trace wA ++ [SetTimeout 500; CreateOffer; SetLocalDescription 100;
                 Emit (SendOffer "session-1" 100)] ∧
  timers wA2 = [(700, RetryJoin)] ∧
  exec (handleUserJoined bob) started
    = set_state (set_peerDisplayName (Some "Bob") (state started)) started.
Proof.
  intros wA wA1 wA2.
  destruct (user_joined_offer_after_delay ideal_browser "session-1"
              wA started
              {| senders := [ {| kind := AudioKind; track_no := 0 |};
                              {| kind := VideoKind; track_no := 1 |} ];
                 remoteDescription := None; localDescription := None;
                 remoteCandidates := [] |}
              IoSocket 100 bob
              ideal_creates_offer ideal_accepts_local_descriptions
              eq_refl eq_refl eq_refl eq_refl)
    as (H1 & H2 & _ & H4 & H5).
  split; [by vm_compute|]. split; [by vm_compute|].
  split; [by vm_compute|]. split; [exact H4|].
  unfold exec. by rewrite H5.
Defined.

Lemma delete_beyond {A} (l : list A) : ∀ i, l !! i = None → delete i l = l.
Proof.
  induction l as [|x l IH]; intros [|i] Hi; try done.
  cbn [delete list_delete]. f_equal. by apply IH.
Qed.

(** X10. [endSession] cancels no timer, and a timer that fires after
    [endSession] has no effect: the join retry finds no socket, the delayed
    offer no peer connection. The timer leaves the pending ones; the world is
    otherwise as [endSession] left it. *)
Theorem timers_after_endSession
    (env : Browser) (sid : string) (name : option string)
    (w : World) (i : nat) :
  let w1 := step env sid name w CallEndSession in
  timers w1 = timers w ∧
  step env sid name w1 (TimerFired i) = set_timers (delete i (timers w)) w1.
Proof.
  intros w1. subst w1. unfold step. cbn [handler].
  unfold exec. erewrite run_bind by apply endSession_run.
  unfold torn_down. js_world w. js_eval. split; [done|].
  unfold fire_timer. js_eval.
  destruct (_ !! i) as [[delay [|]]|] eqn:Hi.
  - js_eval. unfold run_timer, joinSession. js_eval. done.
  - js_eval. unfold run_timer, offer_for_joined_user. js_eval. done.
  - js_eval. by rewrite delete_beyond.
Qed.

(** ** The peer ends the session, the engine refuses an answer *)

Lemma socket_calls_app t1 t2 :
  socket_calls (t1 ++ t2) = socket_calls t1 ++ socket_calls t2.
Proof. apply list.filter_app. Qed.

Lemma socket_calls_fmap {A} (f : A → Effect) (l : list A) :
  (∀ x, is_socket_call (f x) = false) → socket_calls (f <$> l) = [].
Proof.
  intros Hf. unfold socket_calls. induction l as [|x l IH]; [done|].
  cbn [fmap list_fmap]. rewrite filter_cons_False by (by rewrite Hf). exact IH.
Qed.

Lemma track_live_stop_all w s h t :
  tracks w = stop_all s h → t ∈ s → track_live w t = false.
Proof. intros Hw Hin. unfold track_live. rewrite Hw. by apply stop_all_stops. Qed.

(** X11. On session-ended the hook tears down as [endSession] does, but sends
    nothing: the connection is closed and forgotten, every track of the
    screen, camera and preview streams is stopped and the three refs are
    cleared, the candidate queue is emptied, the flag lowered, the React state
    reset. The socket is kept and no call is made on it. Last the page's
    [onSessionEnded] is called with the display name of the peer who ended.
    The chat log and the timers are kept. *)
Theorem session_ended_by_peer (data : SessionEndedData) (w : World) :
  let w' := exec (handleSessionEnded data) w in
  completion (handleSessionEnded data) w = Normal () ∧
  (∀ t, t ∈ local_tracks w → track_live w' t = false) ∧
  peerConnectionRef w' = None ∧
  local_tracks w' = [] ∧
  iceCandidatesQueueRef w' = [] ∧
  hasRemoteDescriptionRef w' = false ∧
  state w' = initial_state ∧
  socketRef w' = socketRef w ∧
  socket_calls (trace w') = socket_calls (trace w) ∧
  trace w' =
    trace w ++ close_calls w ++ stop_calls w
      ++ [OnSessionEnded (displayName (endedBy data))] ∧
  chatMessages w' = chatMessages w ∧
  timers w' = timers w.
Proof.
  unfold exec, completion. rewrite handleSessionEnded_run. cbn [fst snd].
  unfold ended_by_peer. cbn.
  split; [done|]. split.
  { intros t Ht. by eapply track_live_stop_all. }
  repeat split.
  rewrite !socket_calls_app. unfold stop_calls.
  rewrite socket_calls_fmap by done.
  unfold close_calls. destruct (peerConnectionRef w); by rewrite ?app_nil_r.
Qed.

(** X12. When the engine refuses the answer, [handleAnswer] reports "Failed to
    establish connection" and changes nothing else: the flag is not raised,
    the queue is neither flushed nor cleared, the display name of the peer is
    not stored. *)
Theorem handleAnswer_refused
    (env : Browser) (data : AnswerData) (w : World) (p : RTCPeerConnection) :
  peerConnectionRef w = Some p →
  setRemoteDescription_ok env p (answer data) = false →
  handleAnswer env data w =
    (Normal (),
     set_trace (trace w ++ [SetRemoteDescription (answer data);
                            OnError "Failed to establish connection"]) w).
Proof.
  intros Hpc Hrefused. js_world w. destruct p.
  unfold handleAnswer, pc_setRemoteDescription, onError. js_eval.
  rewrite Hrefused. js_eval. by rewrite <-app_assoc.
Qed.

Lemma handleAnswer_refused_witness :
  let data := {| answer := 9; answer_from := bob |} in
  handleAnswer hostile_browser data queued_one =
    (Normal (),
     set_trace (trace queued_one ++ [SetRemoteDescription 9;
                  OnError "Failed to establish connection"]) queued_one) ∧
  iceCandidatesQueueRef (exec (handleAnswer hostile_browser data) queued_one)
    = [1] ∧
  hasRemoteDescriptionRef (exec (handleAnswer hostile_browser data) queued_one)
    = false.
Proof.
  intros data.
  pose proof (handleAnswer_refused hostile_browser data queued_one
    {| senders := [ {| kind := AudioKind; track_no := 0 |};
                    {| kind := VideoKind; track_no := 1 |} ];
       remoteDescription := None; localDescription := None;
       remoteCandidates := [] |} eq_refl eq_refl) as H.
  split; [exact H|]. unfold exec. rewrite H. by vm_compute.
Defined.

(** ** Screen sharing that does not start *)

(** X13. When the page is not in a secure context, or the browser has no
    [getDisplayMedia], [toggleScreenShare] (while not sharing) only reports
    the matching error through [onError]: neither the camera nor the screen is
    asked for, and but for the trace the world is unchanged. The secure
    context is tested first. *)
Theorem toggleScreenShare_unavailable (env : Browser) (w : World) :
  isScreenSharing (state w) = false →
  isSecureContext env = false ∨ hasGetDisplayMedia env = false →
  toggleScreenShare env w =
    (Normal (),
     set_trace
       (trace w ++
        [OnError
           (if isSecureContext env
            then "Screen sharing is not supported in this browser."
            else "Screen sharing requires HTTPS (or localhost). Open the app on https:// or http://localhost.")])
       w).
Proof.
  intros Hsh Hno. unfold toggleScreenShare. rewrite run_gets, Hsh.
  unfold try_catch, onError.
  destruct (isSecureContext env); cbn [negb].
  - destruct Hno as [H|H]; [done|]. rewrite H. cbn [negb]. by js_world w.
  - by js_world w.
Qed.

Lemma toggleScreenShare_unavailable_witness :
  toggleScreenShare hostile_browser started =
    (Normal (),
     set_trace
       (trace started ++
        [OnError "Screen sharing requires HTTPS (or localhost). Open the app on https:// or http://localhost."])
       started).
Proof.
  apply (toggleScreenShare_unavailable hostile_browser started eq_refl).
  left. reflexivity.
Defined.

Lemma getDisplayMedia_run env w kinds :
  getDisplayMedia env (trace w) = inr kinds →
  mediaDevices_getDisplayMedia env w =
    (Normal (stream_at (length (tracks w)) kinds),
     set_tracks (tracks w ++ replicate (length kinds) fresh_track)
       (set_trace (trace w ++ [GetDisplayMedia]) w)).
Proof.
  intros Hgrant. unfold mediaDevices_getDisplayMedia.
  rewrite run_gets. js_world w. js_eval. rewrite Hgrant. reflexivity.
Qed.

Lemma stream_at_beyond n kinds :
  Forall (λ t, n ≤ track_no t) (stream_at n kinds).
Proof.
  apply list.Forall_forall. intros t Ht. unfold stream_at in Ht.
  apply elem_of_lookup_imap_1 in Ht as (i & k & -> & _). simpl. lia.
Qed.

(** Stopping tracks leaves the tracks before them as they are. *)
Lemma stop_all_take n s : ∀ h,
  Forall (λ t, n ≤ track_no t) s → take n (stop_all s h) = take n h.
Proof.
  induction s as [|t s IH]; intros h Hs; [done|].
  apply Forall_cons_1 in Hs as [Ht Hs].
  rewrite stop_all_cons, IH by done. by apply take_alter_ge.
Qed.

(** X14. Screen sharing asked for when no video sender exists (no call yet):
    the screen is captured, then every captured track is stopped,
    [screenStreamRef] is cleared and "Start the call first, then try screen
    sharing." is reported (when the capture has no video track: "Failed to
    start screen sharing", and the ref is not touched). No captured track
    stays live, the tracks that existed are as before, and [isScreenSharing]
    stays false. *)
Theorem toggleScreenShare_before_call
    (env : Browser) (w : World) (cam : MediaStream) (kinds : list TrackKind) :
  isScreenSharing (state w) = false →
  isSecureContext env = true →
  hasGetDisplayMedia env = true →
  cameraStreamRef w = Some cam →
  video_sender w = None →
  getDisplayMedia env (trace w) = inr kinds →
  let stream := stream_at (length (tracks w)) kinds in
  let w1 := exec (toggleScreenShare env) w in
  completion (toggleScreenShare env) w = Normal () ∧
  trace w1 =
    trace w ++ [GetDisplayMedia] ++ (TrackStop <$> stream)
      ++ [OnError (if head (getVideoTracks stream) is Some _
                   then "Start the call first, then try screen sharing."
                   else "Failed to start screen sharing")] ∧
  (∀ t, t ∈ stream → track_live w1 t = false) ∧
  take (length (tracks w)) (tracks w1) = tracks w ∧
  w1 = set_screenStreamRef
         (if head (getVideoTracks stream) is Some _ then None
          else screenStreamRef w)
         (set_tracks (tracks w1) (set_trace (trace w1) w)).
Proof.
  intros Hsh Hsec Hgdm Hcam Hvs Hgrant stream w1. subst stream w1.
  unfold exec, completion, toggleScreenShare.
  rewrite run_gets, Hsh, Hsec, Hgdm. cbn [negb]. unfold try_catch.
  rewrite run_gets, Hcam, bool_decide_eq_false_2 by done. cbn [when].
  erewrite run_bind by reflexivity.
  erewrite run_bind by by apply getDisplayMedia_run.
  assert (∀ t, t ∈ stream_at (length (tracks w)) kinds →
            default false (live <$> stop_all (stream_at (length (tracks w)) kinds)
                             (tracks w ++ replicate (length kinds) fresh_track)
                           !! track_no t) = false) as Hstopped.
  { intros t Ht. by apply stop_all_stops. }
  assert (take (length (tracks w))
            (stop_all (stream_at (length (tracks w)) kinds)
               (tracks w ++ replicate (length kinds) fresh_track)) = tracks w)
    as Hkept.
  { rewrite stop_all_take by apply stream_at_beyond. apply take_app_length. }
  destruct (head (getVideoTracks (stream_at _ kinds))) as [sv|] eqn:Hsv.
  - rewrite run_modify, getVideoSender_bind.
    replace (video_sender _) with (@None nat)
      by (rewrite <-Hvs; by destruct w).
    erewrite run_bind by apply stop_tracks_run.
    unfold onError, track_live. js_world w. js_eval.
    rewrite <-!app_assoc. done.
  - erewrite run_bind by apply stop_tracks_run.
    unfold onError, track_live. js_world w. js_eval.
    rewrite <-!app_assoc. done.
Qed.

Lemma toggleScreenShare_before_call_witness :
  let w := exec (handleUserLeft) started in
  let sv := {| kind := VideoKind; track_no := 2 |} in
  let w1 := exec (toggleScreenShare ideal_browser) w in
  video_sender w = None ∧
  trace w1 =
    trace w ++ [GetDisplayMedia; TrackStop sv;
                OnError "Start the call first, then try screen sharing."] ∧
  track_live w1 sv = false ∧
  screenStreamRef w1 = None ∧
  isScreenSharing (state w1) = false.
Proof.
  intros w sv w1.
  destruct (toggleScreenShare_before_call ideal_browser w
              [ {| kind := AudioKind; track_no := 0 |};
                {| kind := VideoKind; track_no := 1 |} ] [VideoKind]
              eq_refl eq_refl eq_refl eq_refl eq_refl eq_refl)
    as (_ & Ht & Hlive & _ & _).
  split; [reflexivity|]. split; [exact Ht|].
  split; [apply Hlive, list_elem_of_here|]. by vm_compute.
Defined.

(** X15. When the engine refuses [replaceTrack] at the start of a screen
    share, "Failed to start screen sharing" is reported and [isScreenSharing]
    stays false, but the captured screen stream is neither stopped nor
    forgotten: it stays live in [screenStreamRef]. The senders, the preview
    stream and all the rest are as before. *)
Theorem toggleScreenShare_replace_refused
    (env : Browser) (w : World) (cam : MediaStream) (p : RTCPeerConnection)
    (i : nat) (t0 : MediaStreamTrack) :
  isScreenSharing (state w) = false →
  isSecureContext env = true →
  hasGetDisplayMedia env = true →
  cameraStreamRef w = Some cam →
  peerConnectionRef w = Some p →
  list_find (λ t, kind t = VideoKind) (senders p) = Some (i, t0) →
  getDisplayMedia env (trace w) = inr [VideoKind] →
  let sv := {| kind := VideoKind; track_no := length (tracks w) |} in
  replaceTrack_ok env p i sv = false →
  let w1 := exec (toggleScreenShare env) w in
  completion (toggleScreenShare env) w = Normal () ∧
  w1 = set_screenStreamRef (Some [sv])
         (set_tracks (tracks w ++ [fresh_track])
            (set_trace
               (trace w ++ [GetDisplayMedia; ReplaceTrack i sv;
                            OnError "Failed to start screen sharing"]) w)) ∧
  track_live w1 sv = true.
Proof.
  intros Hsh Hsec Hgdm Hcam Hpc Hfind Hgrant sv Hrefused w1. subst sv w1.
  unfold exec, completion, toggleScreenShare.
  rewrite run_gets, Hsh, Hsec, Hgdm. cbn [negb]. unfold try_catch.
  rewrite run_gets, Hcam, bool_decide_eq_false_2 by done. cbn [when].
  erewrite run_bind by reflexivity.
  erewrite run_bind by by apply getDisplayMedia_run.
  change (head (getVideoTracks (stream_at (length (tracks w)) [VideoKind])))
    with (Some {| kind := VideoKind; track_no := length (tracks w) + 0 |}).
  cbn [stream_at imap]. rewrite Nat.add_0_r.
  rewrite run_modify, getVideoSender_bind.
  replace (video_sender _) with (Some i)
    by (unfold video_sender; destruct w; simpl in *; subst; simpl;
        by rewrite Hfind).
  unfold sender_replaceTrack, onError, track_live.
  js_world w. destruct p. js_eval. rewrite Hrefused. js_eval.
  rewrite <-!app_assoc. split; [done|]. split; [done|].
  by rewrite lookup_app_r, Nat.sub_diag by done.
Qed.

Lemma toggleScreenShare_replace_refused_witness :
  let sv := {| kind := VideoKind; track_no := 2 |} in
  let w1 := exec (toggleScreenShare fixed_senders_browser) answered in
  isScreenSharing (state w1) = false ∧
  screenStreamRef w1 = Some [sv] ∧
  track_live w1 sv = true ∧
  trace w1 = trace answered ++ [GetDisplayMedia; ReplaceTrack 1 sv;
                                OnError "Failed to start screen sharing"].
Proof.
  intros sv w1.
  destruct (toggleScreenShare_replace_refused fixed_senders_browser answered
              [ {| kind := AudioKind; track_no := 0 |};
                {| kind := VideoKind; track_no := 1 |} ]
              {| senders := [ {| kind := AudioKind; track_no := 0 |};
                              {| kind := VideoKind; track_no := 1 |} ];
                 remoteDescription := Some 7; localDescription := Some 200;
                 remoteCandidates := [] |}
              1 {| kind := VideoKind; track_no := 1 |}
              eq_refl eq_refl eq_refl eq_refl eq_refl eq_refl eq_refl eq_refl)
    as (_ & Hw & Hlive).
  split; [by vm_compute|]. split; [by vm_compute|].
  split; [exact Hlive|]. by vm_compute.
Defined.

(** ** The preview stream and the switches *)

(** X16. Starting a screen share builds the preview stream from the first
    audio track of the camera stream and the screen track, and writes the
    current mute and camera switches ([mediaEnabledRef]) onto the two tracks:
    with the camera switched off, the screen track is disabled. No track that
    existed changes its liveness, and the two switches of the React state are
    as before. *)
Theorem screen_share_inherits_switches
    (env : Browser) (w : World) (cam : MediaStream) (a : MediaStreamTrack)
    (p : RTCPeerConnection) (i : nat) (t0 : MediaStreamTrack) :
  isScreenSharing (state w) = false →
  isSecureContext env = true →
  hasGetDisplayMedia env = true →
  cameraStreamRef w = Some cam →
  head (getAudioTracks cam) = Some a →
  track_no a < length (tracks w) →
  peerConnectionRef w = Some p →
  list_find (λ t, kind t = VideoKind) (senders p) = Some (i, t0) →
  getDisplayMedia env (trace w) = inr [VideoKind] →
  (∀ p i t, replaceTrack_ok env p i t = true) →
  let sv := {| kind := VideoKind; track_no := length (tracks w) |} in
  let w1 := exec (toggleScreenShare env) w in
  localStreamRef w1 = Some [a; sv] ∧
  localStream (state w1) = Some [a; sv] ∧
  track_enabled w1 a = (mediaEnabledRef w).1 ∧
  track_enabled w1 sv = (mediaEnabledRef w).2 ∧
  track_live w1 sv = true ∧
  (∀ t, track_no t < length (tracks w) → track_live w1 t = track_live w t) ∧
  isAudioEnabled (state w1) = isAudioEnabled (state w) ∧
  isVideoEnabled (state w1) = isVideoEnabled (state w).
Proof.
  intros Hsh Hsec Hgdm Hcam Ha Hlt Hpc Hfind Hgrant Hreplace sv w1.
  subst sv w1.
  unfold exec, toggleScreenShare.
  rewrite run_gets, Hsh, Hsec, Hgdm. cbn [negb]. unfold try_catch.
  rewrite run_gets, Hcam, bool_decide_eq_false_2 by done. cbn [when].
  erewrite run_bind by reflexivity.
  erewrite run_bind by by apply getDisplayMedia_run.
  change (head (getVideoTracks (stream_at (length (tracks w)) [VideoKind])))
    with (Some {| kind := VideoKind; track_no := length (tracks w) + 0 |}).
  cbn [stream_at imap]. rewrite Nat.add_0_r.
  rewrite run_modify, getVideoSender_bind.
  replace (video_sender _) with (Some i)
    by (unfold video_sender; destruct w; simpl in *; subst; simpl;
        by rewrite Hfind).
  unfold sender_replaceTrack, setLocalPreviewStream, set_track_enabled,
    track_enabled, track_live.
  destruct (mediaEnabledRef w) as [ma mv] eqn:Hmedia.
  js_world w. destruct p.
  js_eval. rewrite Hreplace. js_eval. rewrite Ha.
  cbn [from_option option_list app]. js_eval.
  split; [done|]. split; [done|].
  split.
  { rewrite list_lookup_alter_ne by (simpl; lia).
    rewrite list_lookup_alter_eq, lookup_app_l by done.
    destruct (lookup_lt_is_Some_2 _ _ Hlt) as [st ->]. done. }
  split.
  { rewrite list_lookup_alter_eq, list_lookup_alter_ne by (simpl; lia).
    by rewrite lookup_app_r, Nat.sub_diag by done. }
  split.
  { rewrite !live_alter_with_enabled.
    by rewrite lookup_app_r, Nat.sub_diag by done. }
  split; [|done].
  intros t Ht. by rewrite !live_alter_with_enabled, lookup_app_l.
Qed.

Lemma screen_share_inherits_switches_witness :
  let a := {| kind := AudioKind; track_no := 0 |} in
  let sv := {| kind := VideoKind; track_no := 2 |} in
  let camera_off := run ideal_browser "session-1" (Some "Ann")
                      [CallToggleVideo] answered in
  let w1 := exec (toggleScreenShare ideal_browser) camera_off in
  mediaEnabledRef camera_off = (true, false) ∧
  localStreamRef w1 = Some [a; sv] ∧
  track_enabled w1 a = true ∧
  track_enabled w1 sv = false ∧
  track_live w1 sv = true.
Proof.
  intros a sv camera_off w1.
  destruct (screen_share_inherits_switches ideal_browser camera_off
              [a; {| kind := VideoKind; track_no := 1 |}] a
              {| senders := [a; {| kind := VideoKind; track_no := 1 |}];
                 remoteDescription := Some 7; localDescription := Some 200;
                 remoteCandidates := [] |}
              1 {| kind := VideoKind; track_no := 1 |}
              eq_refl eq_refl eq_refl eq_refl eq_refl
              ltac:(vm_compute; lia) eq_refl eq_refl eq_refl
              (λ _ _ _, eq_refl))
    as (Hl & _ & Ha & Hv & Hlive & _).
  split; [by vm_compute|]. split; [exact Hl|].
  split; [exact Ha|]. split; [exact Hv|exact Hlive].
Defined.

(** ** Screen sharing always stops *)

(** X17. A toggle while sharing always ends the sharing, whatever the engine
    does with [replaceTrack] and whether or not there is a camera track, a
    video sender or a connection: it returns normally, [isScreenSharing] is
    false, [screenStreamRef] is null and every track of the screen stream is
    stopped; the camera stream is kept. *)
Theorem stopScreenShare_whatever_the_engine (env : Browser) (w : World) :
  isScreenSharing (state w) = true →
  let w' := exec (toggleScreenShare env) w in
  completion (toggleScreenShare env) w = Normal () ∧
  isScreenSharing (state w') = false ∧
  screenStreamRef w' = None ∧
  (∀ t, t ∈ stream_tracks (screenStreamRef w) → track_live w' t = false) ∧
  cameraStreamRef w' = cameraStreamRef w.
Proof.
  intros Hsh w'. subst w'.
  unfold exec, completion, toggleScreenShare. rewrite run_gets, Hsh.
  unfold stopScreenShare. rewrite run_gets, Hsh. cbn [negb].
  rewrite run_gets.
  assert (stop_and_clear screenStreamRef (set_screenStreamRef None) w =
    (Normal (),
     set_screenStreamRef None
       (set_tracks (stop_all (stream_tracks (screenStreamRef w)) (tracks w))
          (set_trace (trace w ++ (TrackStop <$> stream_tracks (screenStreamRef w)))
             w)))) as Hstop.
  { unfold stop_and_clear. rewrite run_gets.
    destruct (screenStreamRef w) as [scr|] eqn:Hscr.
    - erewrite run_bind by apply stop_tracks_run. by js_world w.
    - js_world w. cbn [stream_tracks default fmap list_fmap stop_all foldl].
      js_eval. by rewrite app_nil_r. }
  erewrite run_bind by exact Hstop.
  assert (∀ t, t ∈ stream_tracks (screenStreamRef w) →
            live <$> stop_all (stream_tracks (screenStreamRef w)) (tracks w)
                     !! track_no t = Some false ∨
            stop_all (stream_tracks (screenStreamRef w)) (tracks w)
              !! track_no t = None) as Hdead.
  { intros t Ht.
    pose proof (stop_all_stops _ (tracks w) t Ht) as Hnl. unfold not_live in Hnl.
    destruct (stop_all _ _ !! track_no t) as [st|]; [left|by right].
    simpl in *. by rewrite Hnl. }
  assert (∀ h : list TrackState,
            (∀ j, live <$> h !! j
                  = live <$> stop_all (stream_tracks (screenStreamRef w))
                               (tracks w) !! j) →
            ∀ t, t ∈ stream_tracks (screenStreamRef w) →
              default false (live <$> h !! track_no t) = false) as Hlive.
  { intros h Hh t Ht. rewrite Hh. by destruct (Hdead t Ht) as [->| ->]. }
  clear Hdead Hstop.
  destruct (cameraStreamRef w) as [cam|] eqn:Hcam; cbn [mbind option_bind];
    [destruct (head (getVideoTracks cam)) as [cv|] eqn:Hcv|].
  - unfold try_finally, try_catch. rewrite getVideoSender_bind.
    unfold setLocalPreviewStream, set_track_enabled, track_live.
    destruct (video_sender _) as [i|] eqn:Hvs.
    + unfold sender_replaceTrack.
      destruct (peerConnectionRef w) as [p|] eqn:Hpc;
        [|unfold video_sender in Hvs; by js_world w].
      destruct (replaceTrack_ok env p i cv) eqn:Hok;
        js_world w; destruct p; js_eval; rewrite ?Hok; js_eval;
        destruct (list.head (getAudioTracks cam)); cbn [from_option]; js_eval;
        (split; [done|]); (split; [done|]); (split; [done|]);
        (split; [|done]); apply Hlive; intros j;
        by rewrite ?live_alter_with_enabled.
    + js_world w; js_eval;
      destruct (list.head (getAudioTracks cam)); cbn [from_option]; js_eval;
      (split; [done|]); (split; [done|]); (split; [done|]);
      (split; [|done]); apply Hlive; intros j;
      by rewrite ?live_alter_with_enabled.
  - unfold track_live. js_world w. js_eval.
    (split; [done|]); (split; [done|]); (split; [done|]);
    (split; [|done]). by apply Hlive.
  - unfold track_live. js_world w. js_eval.
    (split; [done|]); (split; [done|]); (split; [done|]);
    (split; [|done]). by apply Hlive.
Qed.

Lemma stopScreenShare_whatever_the_engine_witness :
  let sv := {| kind := VideoKind; track_no := 2 |} in
  let w' := exec (toggleScreenShare fixed_senders_browser) sharing in
  isScreenSharing (state sharing) = true ∧
  screenStreamRef sharing = Some [sv] ∧
  isScreenSharing (state w') = false ∧
  screenStreamRef w' = None ∧
  track_live w' sv = false.
Proof.
  intros sv w'.
  destruct (stopScreenShare_whatever_the_engine fixed_senders_browser sharing
              eq_refl) as (_ & Hsh & Hscr & Hlive & _).
  split; [reflexivity|]. split; [reflexivity|].
  split; [exact Hsh|]. split; [exact Hscr|].
  apply Hlive. apply list_elem_of_here.
Defined.

(** ** Toggling twice *)

Lemma alter_with_enabled_twice b st i (h : list TrackState) :
  h !! i = Some st →
  alter (with_enabled (enabled st)) i (alter (with_enabled b) i h) = h.
Proof.
  intros Hi. apply list_eq. intros j.
  destruct (decide (i = j)) as [->|Hne].
  - rewrite !list_lookup_alter_eq, Hi. by destruct st.
  - by rewrite !list_lookup_alter_ne.
Qed.

Lemma step_toggleAudio env sid name w s a st so :
  localStreamRef w = Some s →
  head (getAudioTracks s) = Some a →
  tracks w !! track_no a = Some st →
  socketRef w = Some so →
  step env sid name w CallToggleAudio =
    set_mediaEnabledRef (negb (enabled st), isVideoEnabled (state w))
      (set_trace (trace w ++ [Emit (SendMediaState sid (negb (enabled st))
                                      (isVideoEnabled (state w)))])
         (set_state (set_isAudioEnabled (negb (enabled st)) (state w))
            (set_tracks (alter (with_enabled (negb (enabled st))) (track_no a)
                           (tracks w)) w))).
Proof.
  intros Hls Ha Hst Hso. unfold step, exec. cbn [handler].
  erewrite run_bind by by eapply toggleAudio_run.
  by js_world w.
Qed.

(** X18. [toggleAudio] twice, a render after each, gives the track back as it
    was: the first call negates the enabled flag of the first audio track of
    the preview stream, the second sets it back, so that all tracks are as
    before. [isAudioEnabled] ends as the flag the track had, and two
    media-state events are emitted: the first with the negated flag, the
    second with the flag the track had. *)
Theorem toggleAudio_twice
    (env : Browser) (sid : string) (name : option string) (w : World)
    (s : MediaStream) (a : MediaStreamTrack) (st : TrackState) (so : Socket) :
  localStreamRef w = Some s →
  head (getAudioTracks s) = Some a →
  tracks w !! track_no a = Some st →
  socketRef w = Some so →
  let w1 := step env sid name w CallToggleAudio in
  let w2 := step env sid name w1 CallToggleAudio in
  track_enabled w1 a = negb (enabled st) ∧
  isAudioEnabled (state w1) = negb (enabled st) ∧
  tracks w2 = tracks w ∧
  isAudioEnabled (state w2) = enabled st ∧
  trace w2 =
    trace w ++ [Emit (SendMediaState sid (negb (enabled st))
                        (isVideoEnabled (state w)));
                Emit (SendMediaState sid (enabled st)
                        (isVideoEnabled (state w)))].
Proof.
  intros Hls Ha Hst Hso w1 w2.
  assert (w1 = set_mediaEnabledRef (negb (enabled st), isVideoEnabled (state w))
      (set_trace (trace w ++ [Emit (SendMediaState sid (negb (enabled st))
                                      (isVideoEnabled (state w)))])
         (set_state (set_isAudioEnabled (negb (enabled st)) (state w))
            (set_tracks (alter (with_enabled (negb (enabled st))) (track_no a)
                           (tracks w)) w)))) as H1
    by by eapply step_toggleAudio.
  assert (tracks w1 !! track_no a = Some (with_enabled (negb (enabled st)) st))
    as Hst1.
  { rewrite H1. js_world w. js_eval. by rewrite list_lookup_alter_eq, Hst. }
  pose proof (step_toggleAudio env sid name w1 s a
                (with_enabled (negb (enabled st)) st) so) as H2.
  fold w2 in H2. cbn [with_enabled enabled] in H2.
  rewrite negb_involutive in H2.
  rewrite H2; [|rewrite H1; by js_world w|done|exact Hst1|
                rewrite H1; by js_world w].
  clear H2 Hst1. rewrite H1. clear H1 w1 w2.
  unfold track_enabled. js_world w. js_eval.
  rewrite list_lookup_alter_eq, Hst.
  rewrite (alter_with_enabled_twice _ st) by done.
  rewrite <-!app_assoc. done.
Qed.

Lemma toggleAudio_twice_witness :
  let a := {| kind := AudioKind; track_no := 0 |} in
  let w1 := step ideal_browser "session-1" (Some "Ann") answered
              CallToggleAudio in
  let w2 := step ideal_browser "session-1" (Some "Ann") w1 CallToggleAudio in
  track_enabled answered a = true ∧
  track_enabled w1 a = false ∧
  tracks w2 = tracks answered ∧
  isAudioEnabled (state w2) = true ∧
  trace w2 = trace answered
               ++ [Emit (SendMediaState "session-1" false true);
                   Emit (SendMediaState "session-1" true true)].
Proof.
  intros a w1 w2.
  destruct (toggleAudio_twice ideal_browser "session-1" (Some "Ann") answered
              [a; {| kind := VideoKind; track_no := 1 |}] a fresh_track
              IoSocket eq_refl eq_refl eq_refl eq_refl)
    as (H1 & _ & H3 & H4 & H5).
  split; [reflexivity|]. split; [exact H1|]. split; [exact H3|].
  split; [exact H4|exact H5].
Defined.

(** ** Two triggers, two offers *)

Lemma handleUserJoined_initiator_run data w p :
  isInitiatorRef w = true →
  peerConnectionRef w = Some p →
  handleUserJoined data w =
    (Normal (),
     set_state (set_peerDisplayName (Some (displayName data)) (state w))
       (set_timers (timers w ++ [(500, OfferForJoinedUser)])
          (set_trace (trace w ++ [SetTimeout 500]) w))).
Proof.
  intros Hi Hpc. unfold handleUserJoined. rewrite !run_gets, Hi, Hpc.
  rewrite bool_decide_eq_true_2 by (by eexists). cbn [andb when].
  unfold setTimeout. js_world w. reflexivity.
Qed.

Lemma createOffer_run env sid w p s o :
  creates_offer env o →
  accepts_local_descriptions env →
  peerConnectionRef w = Some p →
  socketRef w = Some s →
  createOffer env sid w =
    (Normal (),
     set_trace (trace w ++ [CreateOffer; SetLocalDescription o;
                            Emit (SendOffer sid o)])
       (set_peerConnectionRef (Some (set_localDescription (Some o) p)) w)).
Proof.
  intros Hoffer Hlocal Hpc Hsock. unfold createOffer, try_catch.
  rewrite run_gets, Hpc, bool_decide_eq_false_2 by done. cbn [when].
  erewrite run_bind by reflexivity.
  unfold pc_createOffer, pc_setLocalDescription, sendOffer.
  js_world w. destruct p. js_eval. rewrite Hoffer. js_eval.
  rewrite Hlocal. js_eval. by rewrite <-!app_assoc.
Qed.

Lemma offer_for_joined_user_run env sid w p s o :
  creates_offer env o →
  accepts_local_descriptions env →
  peerConnectionRef w = Some p →
  socketRef w = Some s →
  offer_for_joined_user env sid w =
    (Normal (),
     set_trace (trace w ++ [CreateOffer; SetLocalDescription o;
                            Emit (SendOffer sid o)])
       (set_peerConnectionRef (Some (set_localDescription (Some o) p)) w)).
Proof.
  intros Hoffer Hlocal Hpc Hsock.
  unfold offer_for_joined_user, pc_createOffer, pc_setLocalDescription,
    sendOffer.
  js_world w. destruct p. js_eval. rewrite Hoffer. js_eval.
  rewrite Hlocal. js_eval. by rewrite <-!app_assoc.
Qed.

Lemma fire_timer_last env sid w ts d t :
  timers w = ts ++ [(d, t)] →
  fire_timer env sid (length ts) w = run_timer env sid t (set_timers ts w).
Proof.
  intros Hts. unfold fire_timer. rewrite run_gets, Hts.
  rewrite list_lookup_middle by done. rewrite run_modify.
  by rewrite (delete_middle ts []), app_nil_r.
Qed.

(** X19. User-joined and ready-to-connect each make the initiator send an
    offer: when both are delivered and the timer of user-joined fires, two
    offers are created, made the local description and sent, on the same
    connection. *)
Theorem user_joined_and_ready_two_offers
    (env : Browser) (sid : string) (name : option string) (w : World)
    (p : RTCPeerConnection) (s : Socket) (o : Descriptor) (data : Peer) :
  creates_offer env o →
  accepts_local_descriptions env →
  isInitiatorRef w = true →
  peerConnectionRef w = Some p →
  socketRef w = Some s →
  let w' := run env sid name
              [UserJoined data; ReadyToConnect; TimerFired (length (timers w))]
              w in
  trace w' =
    trace w ++ [SetTimeout 500;
                CreateOffer; SetLocalDescription o; Emit (SendOffer sid o);
                CreateOffer; SetLocalDescription o; Emit (SendOffer sid o)] ∧
  count_emitted (SendOffer sid o) (trace w')
    = 2 + count_emitted (SendOffer sid o) (trace w) ∧
  timers w' = timers w.
Proof.
  intros Hoffer Hlocal Hi Hpc Hsock w'. subst w'.
  change (run env sid name [?e1; ?e2; ?e3] w)
    with (step env sid name (step env sid name (step env sid name w e1) e2) e3).
  js_world w. destruct p.
  set (w1 := step env sid name _ (UserJoined data)).
  eassert (w1 = _) as H1.
  { subst w1. unfold step, exec. cbn [handler].
    erewrite run_bind by (by eapply handleUserJoined_initiator_run).
    js_eval. reflexivity. }
  clearbody w1. subst w1.
  set (w2 := step env sid name _ ReadyToConnect).
  eassert (w2 = _) as H2.
  { subst w2. unfold step, exec. cbn [handler]. unfold handleReadyToConnect.
    erewrite run_bind.
    2:{ rewrite run_gets. cbn [isInitiatorRef when].
        by eapply createOffer_run. }
    js_eval. reflexivity. }
  clearbody w2. subst w2.
  set (w3 := step env sid name _ (TimerFired _)).
  eassert (w3 = _) as H3.
  { subst w3. unfold step, exec. cbn [handler].
    erewrite run_bind.
    2:{ erewrite fire_timer_last by reflexivity. cbn [run_timer].
        by eapply offer_for_joined_user_run. }
    js_eval. reflexivity. }
  clearbody w3. subst w3. js_fields.
  rewrite <-!app_assoc. cbn [app].
  split; [done|]. split; [|done].
  rewrite count_emitted_app, !count_emitted_cons.
  repeat case_decide; try done. change (count_emitted _ []) with 0. lia.
Qed.

Lemma user_joined_and_ready_two_offers_witness :
  let w := exec (onSessionJoined (relay_join_ack "session-1" [] "ann"))
             started in
  let w' := run ideal_browser "session-1" (Some "Ann")
              [UserJoined bob; ReadyToConnect; TimerFired 1] w in
  count_emitted (SendOffer "session-1" 100) (trace w) = 0 ∧
  count_emitted (SendOffer "session-1" 100) (trace w') = 2.
Proof.
  intros w w'.
  destruct (user_joined_and_ready_two_offers ideal_browser "session-1"
              (Some "Ann") w
              {| senders := [ {| kind := AudioKind; track_no := 0 |};
                              {| kind := VideoKind; track_no := 1 |} ];
                 remoteDescription := None; localDescription := None;
                 remoteCandidates := [] |}
              IoSocket 100 bob
              ideal_creates_offer ideal_accepts_local_descriptions
              eq_refl eq_refl eq_refl) as (_ & Hcount & _).
  split; [by vm_compute|]. exact Hcount.
Defined.

(** ** Candidates found by the local engine *)

Lemma step_candidate_found env sid name w so c :
  socketRef w = Some so →
  step env sid name w (IceCandidateFound c) =
    set_mediaEnabledRef (isAudioEnabled (state w), isVideoEnabled (state w))
      (set_trace
         (trace w ++ from_option (λ c, [Emit (SendIceCandidate sid c)]) [] c)
         w).
Proof.
  intros Hso. unfold step, exec. cbn [handler].
  unfold onicecandidate, sendIceCandidate.
  js_world w. destruct c; js_eval; cbn [from_option]; by rewrite ?app_nil_r.
Qed.

(** X20. The candidates found by the local engine are sent to the peer at
    once, each once, in the order in which [onicecandidate] reports them; the
    end-of-candidates notification (null) sends nothing. The queue of inbound
    candidates and the connection are not touched. *)
Theorem found_candidates_sent_in_order
    (env : Browser) (sid : string) (name : option string)
    (cs : list (option Candidate)) (w : World) (so : Socket) :
  socketRef w = Some so →
  let w' := run env sid name (candidates_found cs) w in
  trace w' = trace w ++ (Emit ∘ SendIceCandidate sid <$> omap (λ c, c) cs) ∧
  iceCandidatesQueueRef w' = iceCandidatesQueueRef w ∧
  peerConnectionRef w' = peerConnectionRef w ∧
  socketRef w' = socketRef w.
Proof.
  revert w. induction cs as [|c cs IH]; intros w Hso.
  - cbn. by rewrite app_nil_r.
  - cbn zeta.
    change (run env sid name (candidates_found (c :: cs)) w)
      with (run env sid name (candidates_found cs)
              (step env sid name w (IceCandidateFound c))).
    rewrite (step_candidate_found env sid name w so c Hso).
    destruct (IH (set_mediaEnabledRef
                    (isAudioEnabled (state w), isVideoEnabled (state w))
                    (set_trace
                       (trace w ++ from_option
                          (λ c, [Emit (SendIceCandidate sid c)]) [] c) w)))
      as (Ht & Hq & Hpc & Hs); [by js_world w|].
    cbn zeta in Ht, Hq, Hpc, Hs. rewrite Ht, Hq, Hpc, Hs.
    js_world w. js_eval.
    destruct c as [c|]; cbn [omap from_option fmap list_fmap compose];
      by rewrite <-?app_assoc, ?app_nil_r.
Qed.

Lemma found_candidates_sent_in_order_witness :
  let w' := run ideal_browser "session-1" (Some "Ann")
              (candidates_found [Some 4; Some 2; None]) started in
  socketRef started = Some IoSocket ∧
  trace w' = trace started ++ [Emit (SendIceCandidate "session-1" 4);
                               Emit (SendIceCandidate "session-1" 2)] ∧
  iceCandidatesQueueRef w' = [].
Proof.
  intros w'.
  destruct (found_candidates_sent_in_order ideal_browser "session-1"
              (Some "Ann") [Some 4; Some 2; None] started IoSocket eq_refl)
    as (Ht & Hq & _).
  split; [reflexivity|]. split; [exact Ht|].
  etrans; [exact Hq|]. by vm_compute.
Defined.

(** ** A candidate is queued only before the description *)

#[global] Instance keeps_flag_preorder : PreOrder keeps_flag.
Proof.
  split.
  - intros w Hw. done.
  - intros w1 w2 w3 H12 H23 H1. by apply H23, H12.
Qed.

Lemma keeps_flag_keep (g : World → World) :
  (∀ w, peerConnectionRef (g w) = peerConnectionRef w) →
  (∀ w, hasRemoteDescriptionRef (g w) = hasRemoteDescriptionRef w) →
  frames keeps_flag (modify g).
Proof.
  intros Hpc Hflag w Hw p. unfold frames_at, modify. cbn [snd].
  rewrite Hpc, Hflag. apply Hw.
Qed.

Lemma keeps_flag_update_pc (f : RTCPeerConnection → RTCPeerConnection) :
  (∀ p, remoteDescription (f p) = remoteDescription p) →
  frames keeps_flag (update_pc f).
Proof.
  intros Hf w Hw p. unfold frames_at.
  assert (peerConnectionRef (update_pc f w).2 = f <$> peerConnectionRef w)
    as -> by by destruct w.
  assert (hasRemoteDescriptionRef (update_pc f w).2
          = hasRemoteDescriptionRef w) as -> by by destruct w.
  destruct (peerConnectionRef w) as [q|] eqn:Hq; [|done].
  intros [= <-] Hd. rewrite Hf in Hd. by apply (Hw q).
Qed.

Lemma keeps_flag_no_connection (g : World → World) :
  (∀ w, peerConnectionRef (g w) = None) → frames keeps_flag (modify g).
Proof.
  intros Hg w _ p. unfold frames_at, modify. cbn [snd]. by rewrite Hg.
Qed.

Lemma keeps_flag_new_connection (g : World → World) q :
  (∀ w, peerConnectionRef (g w) = Some q) → remoteDescription q = None →
  frames keeps_flag (modify g).
Proof.
  intros Hg Hq w _ p. unfold frames_at, modify. cbn [snd]. rewrite Hg.
  intros [= <-] [d Hd]. congruence.
Qed.

Lemma keeps_flag_raise (g : World → World) :
  (∀ w, hasRemoteDescriptionRef (g w) = true) → frames keeps_flag (modify g).
Proof.
  intros Hg w _ p. unfold frames_at, modify. cbn [snd]. by rewrite Hg.
Qed.

Ltac keeps_flag_modify :=
  first
    [ apply keeps_flag_keep; intros []; reflexivity
    | apply keeps_flag_no_connection; intros []; reflexivity
    | apply keeps_flag_raise; intros []; reflexivity
    | eapply keeps_flag_new_connection; [intros []; reflexivity|reflexivity]
    | apply keeps_flag_update_pc; intros []; reflexivity ].

Ltac keeps_flag_basic :=
  idtac;
  lazymatch goal with
  | |- frames _ (modify _) => keeps_flag_modify
  | |- frames _ (update_pc _) => keeps_flag_modify
  | |- frames _ (new_stream _) =>
      let x := fresh "w" in let H := fresh "H" in
      intros x H; destruct x; exact H
  | |- frames _ (emit _) => unfold emit
  | |- frames _ (connect _) => unfold connect
  | |- frames _ disconnect => unfold disconnect
  end.

(** The calls on the connection other than [setRemoteDescription]. *)
Lemma keeps_flag_addIceCandidate env c :
  frames keeps_flag (pc_addIceCandidate env c).
Proof. unfold pc_addIceCandidate, on_pc. frames_walk_with unfold_handlers keeps_flag_basic. Qed.

Lemma keeps_flag_createOffer env : frames keeps_flag (pc_createOffer env).
Proof. unfold pc_createOffer, on_pc. frames_walk_with unfold_handlers keeps_flag_basic. Qed.

Lemma keeps_flag_createAnswer env : frames keeps_flag (pc_createAnswer env).
Proof. unfold pc_createAnswer, on_pc. frames_walk_with unfold_handlers keeps_flag_basic. Qed.

Lemma keeps_flag_setLocalDescription env d :
  frames keeps_flag (pc_setLocalDescription env d).
Proof. unfold pc_setLocalDescription, on_pc. frames_walk_with unfold_handlers keeps_flag_basic. Qed.

Lemma keeps_flag_addTrack t : frames keeps_flag (pc_addTrack t).
Proof. unfold pc_addTrack. frames_walk_with unfold_handlers keeps_flag_basic. Qed.

Lemma keeps_flag_replaceTrack env i t :
  frames keeps_flag (sender_replaceTrack env i t).
Proof. unfold sender_replaceTrack, on_pc. frames_walk_with unfold_handlers keeps_flag_basic. Qed.

(** [setRemoteDescription] and the raising of the flag, taken together. *)
Lemma keeps_flag_describe env d {A} (k : unit → Js A) :
  (∀ u, frames keeps_flag (k u)) →
  frames keeps_flag
    (pc_setRemoteDescription env d
     ≫= λ _, modify (set_hasRemoteDescriptionRef true) ≫= k).
Proof.
  intros Hk w Hw. unfold frames_at, pc_setRemoteDescription, on_pc.
  destruct (peerConnectionRef w) as [p|] eqn:Hpc;
    [|js_world w; js_eval; exact Hw].
  destruct (setRemoteDescription_ok env p d) eqn:Hok.
  - specialize (Hk () (set_hasRemoteDescriptionRef true
                        (set_peerConnectionRef
                           (Some (set_remoteDescription (Some d) p))
                           (set_trace (trace w ++ [SetRemoteDescription d]) w)))).
    unfold frames_at in Hk.
    js_world w. destruct p. js_eval. rewrite Hok. js_eval.
    apply Hk. intros q _ _. reflexivity.
  - js_world w. destruct p. js_eval. rewrite Hok. js_eval.
    intros q Hq Hd. by apply (Hw q).
Qed.

Lemma keeps_flag_sendOffer sid d : frames keeps_flag (sendOffer sid d).
Proof. unfold sendOffer. frames_walk_with unfold_handlers keeps_flag_basic. Qed.

Lemma keeps_flag_sendAnswer sid d : frames keeps_flag (sendAnswer sid d).
Proof. unfold sendAnswer. frames_walk_with unfold_handlers keeps_flag_basic. Qed.

Lemma keeps_flag_endSession sid : frames keeps_flag (endSession sid).
Proof. intros w _ p. unfold frames_at. rewrite endSession_run. done. Qed.

Lemma keeps_flag_handleSessionEnded data :
  frames keeps_flag (handleSessionEnded data).
Proof. intros w _ p. unfold frames_at. rewrite handleSessionEnded_run. done. Qed.

Ltac keeps_flag_leaf :=
  idtac;
  lazymatch goal with
  | |- frames _ (mbind _ (pc_setRemoteDescription _ _)) =>
      apply keeps_flag_describe; intros ?
  | |- frames _ (pc_addIceCandidate _ _) => apply keeps_flag_addIceCandidate
  | |- frames _ (pc_createOffer _) => apply keeps_flag_createOffer
  | |- frames _ (pc_createAnswer _) => apply keeps_flag_createAnswer
  | |- frames _ (pc_setLocalDescription _ _) =>
      apply keeps_flag_setLocalDescription
  | |- frames _ (pc_addTrack _) => apply keeps_flag_addTrack
  | |- frames _ (sender_replaceTrack _ _ _) => apply keeps_flag_replaceTrack
  | |- frames _ (sendOffer _ _) => apply keeps_flag_sendOffer
  | |- frames _ (sendAnswer _ _) => apply keeps_flag_sendAnswer
  | |- frames _ (endSession _) => apply keeps_flag_endSession
  | |- frames _ (handleSessionEnded _) => apply keeps_flag_handleSessionEnded
  | |- _ => keeps_flag_basic
  end.

Lemma handler_keeps_flag env sid name e :
  frames keeps_flag (handler env sid name e).
Proof.
  destruct e; cbn [handler];
    frames_walk_with unfold_handlers keeps_flag_leaf.
Qed.

(** X21. Whenever the connection in [peerConnectionRef] has a remote
    description, [hasRemoteDescriptionRef] is true: this holds at mount and
    every event keeps it. So a candidate that arrives when the connection has
    a remote description is never put in the queue; it is handed to
    [addIceCandidate] at once. *)
Theorem candidate_queued_only_before_description
    (env : Browser) (sid : string) (name : option string)
    (es : list Event) (w : World) :
  flag_covers_description w →
  let w' := run env sid name es w in
  flag_covers_description w' ∧
  ∀ p data,
    peerConnectionRef w' = Some p →
    is_Some (remoteDescription p) →
    let w'' := exec (handleIceCandidate env data) w' in
    iceCandidatesQueueRef w'' = iceCandidatesQueueRef w' ∧
    trace w'' = trace w' ++ [AddIceCandidate (candidate data)].
Proof.
  intros Hw w'.
  assert (flag_covers_description w') as Hw'.
  { revert Hw. apply (frames_run keeps_flag env sid name (λ _, false)).
    - intros e _. apply handler_keeps_flag.
    - unfold rerender. frames_walk_with unfold_handlers keeps_flag_leaf.
    - by induction es. }
  split; [exact Hw'|]. intros p data Hpc Hd w''. subst w''.
  specialize (Hw' p Hpc Hd). clearbody w'. clear Hw.
  unfold handleIceCandidate, pc_addIceCandidate.
  js_world w'. destruct p. js_eval.
  by destruct (addIceCandidate_ok env _ _).
Qed.

Lemma candidate_queued_only_before_description_witness :
  let w' := run ideal_browser "session-1" (Some "Ann")
              [CallStartSession; offer_from_bob 7] mounted in
  let w'' := exec (handleIceCandidate ideal_browser
                     {| candidate := 2; candidate_from := bob |}) w' in
  flag_covers_description mounted ∧
  flag_covers_description w' ∧
  hasRemoteDescriptionRef w' = true ∧
  iceCandidatesQueueRef w'' = iceCandidatesQueueRef w' ∧
  trace w'' = trace w' ++ [AddIceCandidate 2].
Proof.
  intros w' w''.
  assert (flag_covers_description mounted) as Hm by (by intros p [=]).
  destruct (candidate_queued_only_before_description ideal_browser
              "session-1" (Some "Ann")
              [CallStartSession; offer_from_bob 7] mounted Hm)
    as [Hflag Hcand].
  split; [exact Hm|]. split; [exact Hflag|]. split; [by vm_compute|].
  assert (peerConnectionRef w' =
            Some {| senders := [ {| kind := AudioKind; track_no := 0 |};
                                 {| kind := VideoKind; track_no := 1 |} ];
                    remoteDescription := Some 7; localDescription := Some 200;
                    remoteCandidates := [] |}) as Hpc by (by vm_compute).
  exact (Hcand _ {| candidate := 2; candidate_from := bob |} Hpc
           (ex_intro _ 7 eq_refl)).
Defined.

(** ** A description is sent right after it was installed *)

Lemma installed_before_sent_weaken prev l :
  installed_before_sent None l = true → installed_before_sent prev l = true.
Proof.
  destruct l as [|e l]; [done|]. cbn [installed_before_sent].
  destruct (sent_description e); [|done].
  by rewrite bool_decide_eq_false_2.
Qed.

Lemma installed_before_sent_app l1 : ∀ prev l2,
  installed_before_sent prev l1 = true →
  installed_before_sent None l2 = true →
  installed_before_sent prev (l1 ++ l2) = true.
Proof.
  induction l1 as [|e l1 IH]; intros prev l2 H1 H2.
  - by apply installed_before_sent_weaken.
  - cbn [app installed_before_sent] in *.
    apply andb_true_iff in H1 as [He H1]. rewrite He. by apply IH.
Qed.

Lemma installed_before_sent_spec l : ∀ prev,
  installed_before_sent prev l = true →
  ∀ l1 e l2 d, l = l1 ++ e :: l2 → sent_description e = Some d →
    (l1 = [] ∧ prev = Some (SetLocalDescription d)) ∨
    ∃ l0, l1 = l0 ++ [SetLocalDescription d].
Proof.
  induction l as [|x l IH]; intros prev H l1 e l2 d Hl He.
  - by destruct l1.
  - cbn [installed_before_sent] in H. apply andb_true_iff in H as [Hx H].
    destruct l1 as [|y l1]; simplify_eq/=.
    + left. rewrite He in Hx. by apply bool_decide_eq_true in Hx.
    + right. destruct (IH _ H l1 e l2 d eq_refl He) as [[-> Hy]|[l0 ->]].
      * simplify_eq. by exists [].
      * by exists (y :: l0).
Qed.

#[global] Instance sends_installed_preorder : PreOrder sends_installed.
Proof.
  split.
  - intros w. exists []. by rewrite app_nil_r.
  - intros w1 w2 w3 (l1 & Ht1 & Hl1) (l2 & Ht2 & Hl2).
    exists (l1 ++ l2). rewrite Ht2, Ht1, <-app_assoc.
    split; [done|]. by apply installed_before_sent_app.
Qed.

Lemma sends_installed_keep (g : World → World) :
  (∀ w, trace (g w) = trace w) → frames sends_installed (modify g).
Proof. intros Hg w. exists []. cbn. by rewrite Hg, app_nil_r. Qed.

Lemma sends_installed_log e :
  sent_description e = None → frames sends_installed (log e).
Proof.
  intros He w. exists [e]. split; [by destruct w|].
  cbn. by rewrite He.
Qed.

Lemma sends_installed_emit ev :
  sent_description (Emit ev) = None → frames sends_installed (emit ev).
Proof.
  intros He w. unfold frames_at, emit. rewrite run_gets.
  destruct (socketRef w); [by apply sends_installed_log|reflexivity].
Qed.

Ltac sends_installed_basic :=
  idtac;
  lazymatch goal with
  | |- frames _ (modify _) =>
      first [ apply sends_installed_keep; intros []; reflexivity
            | apply sends_installed_log; reflexivity ]
  | |- frames _ (update_pc _) =>
      apply sends_installed_keep; intros []; reflexivity
  | |- frames _ (new_stream _) =>
      let x := fresh "w" in
      intros x; exists []; destruct x; cbn; by rewrite app_nil_r
  | |- frames _ (emit _) => apply sends_installed_emit; reflexivity
  | |- frames _ (connect _) => unfold connect
  | |- frames _ disconnect => unfold disconnect
  end.

Lemma sends_installed_setRemoteDescription env d :
  frames sends_installed (pc_setRemoteDescription env d).
Proof. unfold pc_setRemoteDescription, on_pc. frames_walk_with unfold_handlers sends_installed_basic. Qed.

Lemma sends_installed_addIceCandidate env c :
  frames sends_installed (pc_addIceCandidate env c).
Proof. unfold pc_addIceCandidate, on_pc. frames_walk_with unfold_handlers sends_installed_basic. Qed.

Lemma sends_installed_createOffer env :
  frames sends_installed (pc_createOffer env).
Proof. unfold pc_createOffer, on_pc. frames_walk_with unfold_handlers sends_installed_basic. Qed.

Lemma sends_installed_createAnswer env :
  frames sends_installed (pc_createAnswer env).
Proof. unfold pc_createAnswer, on_pc. frames_walk_with unfold_handlers sends_installed_basic. Qed.

Lemma sends_installed_addTrack t : frames sends_installed (pc_addTrack t).
Proof. unfold pc_addTrack. frames_walk_with unfold_handlers sends_installed_basic. Qed.

Lemma sends_installed_replaceTrack env i t :
  frames sends_installed (sender_replaceTrack env i t).
Proof. unfold sender_replaceTrack, on_pc. frames_walk_with unfold_handlers sends_installed_basic. Qed.

Lemma sends_installed_endSession sid : frames sends_installed (endSession sid).
Proof. unfold endSession. frames_walk_with unfold_handlers sends_installed_basic. Qed.

Lemma sends_installed_handleSessionEnded data :
  frames sends_installed (handleSessionEnded data).
Proof. unfold handleSessionEnded. frames_walk_with unfold_handlers sends_installed_basic. Qed.

(** [setLocalDescription] and the emission of the description, taken
    together. *)
Lemma sends_installed_description env d ev {A} (k : unit → Js A) :
  sent_description (Emit ev) = Some d →
  (∀ u, frames sends_installed (k u)) →
  frames sends_installed (pc_setLocalDescription env d ≫= λ _, emit ev ≫= k).
Proof.
  intros Hev Hk w. unfold frames_at.
  destruct (peerConnectionRef w) as [p|] eqn:Hpc.
  2:{ unfold pc_setLocalDescription, on_pc. js_world w. js_eval. reflexivity. }
  destruct (setLocalDescription_ok env p d) eqn:Hok.
  2:{ exists [SetLocalDescription d]. split; [|done].
      unfold pc_setLocalDescription, on_pc.
      js_world w. destruct p. js_eval. rewrite Hok. js_eval. done. }
  pose (sent := if socketRef w is Some _ then [Emit ev] else []).
  pose (w1 := set_trace (trace w ++ SetLocalDescription d :: sent)
                (set_peerConnectionRef
                   (Some (set_localDescription (Some d) p)) w)).
  assert ((pc_setLocalDescription env d ≫= λ _, emit ev ≫= k) w = k () w1)
    as ->.
  { subst w1 sent. unfold pc_setLocalDescription, on_pc.
    destruct (socketRef w) as [so|] eqn:Hso;
      js_world w; destruct p; js_eval; rewrite Hok; js_eval;
      by rewrite <-?app_assoc. }
  destruct (Hk () w1) as (l & Hl & Hchk).
  exists (SetLocalDescription d :: sent ++ l). split.
  - rewrite Hl. subst w1. js_world w. js_eval. by rewrite <-app_assoc.
  - subst sent. destruct (socketRef w).
    + cbn [app installed_before_sent]. rewrite Hev.
      change (sent_description (SetLocalDescription d)) with (@None Descriptor).
      rewrite bool_decide_eq_true_2 by done. cbn [andb].
      by apply installed_before_sent_weaken.
    + cbn [app installed_before_sent sent_description andb].
      by apply installed_before_sent_weaken.
Qed.

Lemma sends_installed_offer env sid d :
  frames sends_installed
    (pc_setLocalDescription env d ≫= λ _, sendOffer sid d).
Proof.
  intros w. unfold frames_at.
  replace ((pc_setLocalDescription env d ≫= λ _, sendOffer sid d) w)
    with ((pc_setLocalDescription env d
           ≫= λ _, emit (SendOffer sid d) ≫= mret) w).
  - apply (sends_installed_description env d (SendOffer sid d) mret);
      [done|intros u; apply (frames_ret sends_installed)].
  - unfold mbind, Js_bind, sendOffer, mret, Js_ret.
    destruct (pc_setLocalDescription env d w) as [[u|e] w1]; [|done].
    by destruct (emit (SendOffer sid d) w1) as [[[]|e] w2].
Qed.

Lemma sends_installed_answer env sid d {A} (k : unit → Js A) :
  (∀ u, frames sends_installed (k u)) →
  frames sends_installed
    (pc_setLocalDescription env d ≫= λ _, sendAnswer sid d ≫= k).
Proof.
  intros Hk. by apply (sends_installed_description env d (SendAnswer sid d)).
Qed.

Ltac sends_installed_leaf :=
  idtac;
  lazymatch goal with
  | |- frames _ (mbind _ (pc_setLocalDescription _ _)) =>
      first [ apply sends_installed_offer
            | apply sends_installed_answer; intros ? ]
  | |- frames _ (pc_setRemoteDescription _ _) =>
      apply sends_installed_setRemoteDescription
  | |- frames _ (pc_addIceCandidate _ _) =>
      apply sends_installed_addIceCandidate
  | |- frames _ (pc_createOffer _) => apply sends_installed_createOffer
  | |- frames _ (pc_createAnswer _) => apply sends_installed_createAnswer
  | |- frames _ (pc_addTrack _) => apply sends_installed_addTrack
  | |- frames _ (sender_replaceTrack _ _ _) =>
      apply sends_installed_replaceTrack
  | |- frames _ (endSession _) => apply sends_installed_endSession
  | |- frames _ (handleSessionEnded _) =>
      apply sends_installed_handleSessionEnded
  | |- _ => sends_installed_basic
  end.

Lemma handler_sends_installed env sid name e :
  frames sends_installed (handler env sid name e).
Proof.
  destruct e; cbn [handler];
    frames_walk_with unfold_handlers sends_installed_leaf.
Qed.

(** X22. An offer or an answer is sent only right after it was made the local
    description. Among the calls made during any sequence of events, every
    emission of an offer or of an answer comes immediately after the call of
    [setLocalDescription] with the same description. *)
Theorem description_sent_right_after_installed
    (env : Browser) (sid : string) (name : option string)
    (es : list Event) (w : World) :
  ∃ calls,
    trace (run env sid name es w) = trace w ++ calls ∧
    ∀ before e after d,
      calls = before ++ e :: after →
      sent_description e = Some d →
      ∃ earlier, before = earlier ++ [SetLocalDescription d].
Proof.
  assert (sends_installed w (run env sid name es w)) as (l & Hl & Hchk).
  { apply (frames_run sends_installed env sid name (λ _, false)).
    - intros e _. apply handler_sends_installed.
    - unfold rerender. frames_walk_with unfold_handlers sends_installed_leaf.
    - by induction es. }
  exists l. split; [exact Hl|]. intros before e after d Hcalls He.
  destruct (installed_before_sent_spec l None Hchk before e after d Hcalls He)
    as [[_ ?]|H]; [done|exact H].
Qed.

(** ** The camera is refused when the screen is asked for *)

(** X23. [toggleScreenShare] with no camera stream yet asks for the camera
    first. When the user refuses the camera, [initializeMedia] reports its
    error and rethrows, and the [catch] of [toggleScreenShare] reports "Screen
    sharing was blocked. Please allow the permission and try again.", though
    the screen was never asked for: [getDisplayMedia] is not called. But for
    the trace the world is unchanged. *)
Theorem toggleScreenShare_camera_denied (env : Browser) (w : World) :
  isScreenSharing (state w) = false →
  isSecureContext env = true →
  hasGetDisplayMedia env = true →
  cameraStreamRef w = None →
  getUserMedia env (trace w) = inl NotAllowedError →
  toggleScreenShare env w =
    (Normal (),
     set_trace
       (trace w ++
        [GetUserMedia;
         OnError "Failed to access camera/microphone. Please check permissions.";
         OnError "Screen sharing was blocked. Please allow the permission and try again."])
       w).
Proof.
  intros Hsh Hsec Hgdm Hcam Hdenied. unfold toggleScreenShare.
  rewrite run_gets, Hsh, Hsec, Hgdm. cbn [negb]. unfold try_catch.
  rewrite run_gets, Hcam, bool_decide_eq_true_2 by done. cbn [when].
  unfold initializeMedia, mediaDevices_getUserMedia, onError.
  js_world w. js_eval. rewrite Hdenied. js_eval. by rewrite <-!app_assoc.
Qed.

Lemma toggleScreenShare_camera_denied_witness :
  let env := {|
    getAuthToken := Some "jwt"; isSecureContext := true;
    hasGetDisplayMedia := true;
    getUserMedia := λ _, inl NotAllowedError;
    getDisplayMedia := λ _, inr [VideoKind];
    setRemoteDescription_ok := λ _ _, true;
    addIceCandidate_ok := λ _ _, true;
    createOffer_result := λ _, Some 100;
    createAnswer_result := λ _, Some 200;
    setLocalDescription_ok := λ _ _, true;
    replaceTrack_ok := λ _ _ _, true |} in
  trace (exec (toggleScreenShare env) mounted) =
    [GetUserMedia;
     OnError "Failed to access camera/microphone. Please check permissions.";
     OnError "Screen sharing was blocked. Please allow the permission and try again."].
Proof.
  intros env. unfold exec.
  by rewrite (toggleScreenShare_camera_denied env mounted
                eq_refl eq_refl eq_refl eq_refl eq_refl).
Defined.

(** ** [startSession] called again *)

Lemma stop_all_other s : ∀ h i,
  (∀ t, t ∈ s → track_no t ≠ i) → stop_all s h !! i = h !! i.
Proof.
  induction s as [|t s IH]; intros h i Hs; [done|].
  rewrite stop_all_cons, IH.
  - apply list_lookup_alter_ne. apply Hs, list_elem_of_here.
  - intros t' Ht'. by apply Hs, list_elem_of_further.
Qed.

Lemma stream_at_no n kinds t : t ∈ stream_at n kinds → n ≤ track_no t.
Proof.
  intros Ht. pose proof (stream_at_beyond n kinds) as H.
  rewrite list.Forall_forall in H. by apply H.
Qed.

Lemma startSession_streams env sid name w kinds :
  getUserMedia env (trace w) = inr kinds →
  let w1 := step env sid name w CallStartSession in
  tracks w1 = tracks w ++ replicate (length kinds) fresh_track ∧
  screenStreamRef w1 = screenStreamRef w ∧
  cameraStreamRef w1 = Some (stream_at (length (tracks w)) kinds) ∧
  localStreamRef w1 = Some (stream_at (length (tracks w)) kinds).
Proof.
  intros Hmedia. cbv zeta.
  destruct (truthy (getAuthToken env)) as [tok|] eqn:Htok;
    destruct (socketRef w) as [so|] eqn:Hso;
    js_world w;
    set (w1 := step env sid name _ CallStartSession);
    (eassert (w1 = _) as ->;
     [ subst w1; unfold step, exec; cbn [handler];
       unfold startSession, initializeMedia, mediaDevices_getUserMedia,
         new_stream, createPeerConnection, connect, joinSession, setTimeout;
       js_eval; rewrite Hmedia; js_eval;
       erewrite addTracks_run by reflexivity; js_eval;
       rewrite ?Htok;
       rewrite ?bool_decide_eq_true_2 by (by eexists);
       rewrite ?bool_decide_eq_false_2 by (by intros [? ?]);
       js_eval; reflexivity
     | done ]).
Qed.

(** X24. [startSession] called while a camera stream is held puts a new stream
    in [cameraStreamRef] and [localStreamRef] without stopping the tracks of
    the old one. A live track of the old camera stream (that is not a track of
    the screen stream) is then none of the tracks the hook holds; it stays
    live, also after [endSession], which stops the tracks of the streams in
    the refs and no other. *)
Theorem startSession_again_leaks_camera
    (env : Browser) (sid : string) (name : option string) (w : World)
    (kinds : list TrackKind) (cam : MediaStream) (t : MediaStreamTrack) :
  getUserMedia env (trace w) = inr kinds →
  cameraStreamRef w = Some cam →
  t ∈ cam →
  track_live w t = true →
  (∀ t', t' ∈ stream_tracks (screenStreamRef w) → track_no t' ≠ track_no t) →
  let w1 := step env sid name w CallStartSession in
  let w2 := step env sid name w1 CallEndSession in
  cameraStreamRef w1 = Some (stream_at (length (tracks w)) kinds) ∧
  localStreamRef w1 = Some (stream_at (length (tracks w)) kinds) ∧
  (∀ t', t' ∈ local_tracks w1 → track_no t' ≠ track_no t) ∧
  track_live w1 t = true ∧
  local_tracks w2 = [] ∧
  track_live w2 t = true.
Proof.
  intros Hmedia Hcam Ht Hlive Hscreen w1 w2.
  assert (track_no t < length (tracks w)) as Hlt.
  { unfold track_live in Hlive. apply lookup_lt_is_Some.
    destruct (tracks w !! track_no t); [by eexists|done]. }
  destruct (startSession_streams env sid name w kinds Hmedia)
    as (Htr1 & Hscr1 & Hcam1 & Hloc1). fold w1 in Htr1, Hscr1, Hcam1, Hloc1.
  assert (∀ t', t' ∈ local_tracks w1 → track_no t' ≠ track_no t) as Hother.
  { intros t'. unfold local_tracks. rewrite Hscr1, Hcam1, Hloc1.
    cbn [stream_tracks default]. rewrite !elem_of_app.
    intros [H|[H|H]]; [by apply Hscreen| |];
      apply stream_at_no in H; lia. }
  assert (track_live w1 t = true) as Hlive1.
  { unfold track_live in *. by rewrite Htr1, lookup_app_l. }
  split; [done|]. split; [done|]. split; [done|]. split; [done|].
  subst w2. unfold step, exec. cbn [handler].
  erewrite run_bind by apply endSession_run.
  unfold track_live in *. clearbody w1. js_world w1. unfold torn_down.
  js_eval. split; [done|].
  by rewrite stop_all_other.
Qed.

Lemma startSession_again_leaks_camera_witness :
  let v := {| kind := VideoKind; track_no := 1 |} in
  let w2 := run ideal_browser "session-1" (Some "Ann")
              [CallStartSession; CallEndSession] started in
  track_live started v = true ∧
  local_tracks w2 = [] ∧
  track_live w2 v = true.
Proof.
  intros v w2.
  destruct (startSession_again_leaks_camera ideal_browser "session-1"
              (Some "Ann") started [AudioKind; VideoKind]
              [ {| kind := AudioKind; track_no := 0 |}; v ] v
              eq_refl eq_refl
              ltac:(apply list_elem_of_further, list_elem_of_here)
              eq_refl
              ltac:(intros t' Ht'; by apply elem_of_nil in Ht'))
    as (_ & _ & _ & _ & Hloc & Hlive).
  split; [reflexivity|]. split; [exact Hloc|exact Hlive].
Defined.

(** ** The peer's switches *)

#[global] Instance same_peer_media_preorder : PreOrder same_peer_media.
Proof.
  split.
  - intros w. done.
  - intros w1 w2 w3 H12 H23. unfold same_peer_media in *. congruence.
Qed.

Ltac same_peer_media_leaf :=
  idtac;
  lazymatch goal with
  | |- frames _ (modify _) =>
      let x := fresh "w" in
      apply frames_modify; intros x; js_world x; reflexivity
  | |- frames _ (new_stream _) =>
      let x := fresh "w" in intros x; destruct x; reflexivity
  | |- frames _ (emit _) => unfold emit
  | |- frames _ (connect _) => unfold connect
  | |- frames _ disconnect => unfold disconnect
  end.

Lemma handler_same_peer_media env sid name e :
  resets_peer_media e = false →
  frames same_peer_media (handler env sid name e).
Proof.
  intros He. destruct e; try done; cbn [handler];
    frames_walk same_peer_media_leaf.
Qed.

(** X25. What the page knows of the peer's microphone and camera is what the
    last media-state event said: after such an event, no sequence of events
    without another media-state event, user-left, session-ended or
    [endSession] changes [peerMediaState]. *)
Theorem peer_media_state_persists
    (env : Browser) (sid : string) (name : option string)
    (data : MediaStateData) (es : list Event) (w : World) :
  existsb resets_peer_media es = false →
  peerMediaState (state (run env sid name (MediaState data :: es) w))
    = Some (ms_audio data, ms_video data).
Proof.
  intros Hes.
  change (run env sid name (MediaState data :: es) w)
    with (run env sid name es (step env sid name w (MediaState data))).
  assert (same_peer_media (step env sid name w (MediaState data))
            (run env sid name es (step env sid name w (MediaState data))))
    as ->.
  { apply (frames_run same_peer_media env sid name resets_peer_media);
      [apply handler_same_peer_media| |done].
    unfold rerender. frames_walk same_peer_media_leaf. }
  by js_world w.
Qed.

Lemma peer_media_state_persists_witness :
  peerMediaState
    (state (run ideal_browser "session-1" (Some "Ann")
              [MediaState {| ms_audio := false; ms_video := true;
                             ms_from := bob |};
               CallToggleAudio; CallStartSession; offer_from_bob 7;
               CallToggleScreenShare; SocketDisconnected]
              started))
    = Some (false, true).
Proof.
  exact (peer_media_state_persists ideal_browser "session-1" (Some "Ann")
           {| ms_audio := false; ms_video := true; ms_from := bob |}
           [CallToggleAudio; CallStartSession; offer_from_bob 7;
            CallToggleScreenShare; SocketDisconnected]
           started eq_refl).
Defined.

(** ** Handlers that wait, not interrupted *)

Lemma bind_ext {A B} (m m' : Js A) (f f' : A → Js B) w :
  (∀ w, m w = m' w) → (∀ a w, f a w = f' a w) →
  (m ≫= f) w = (m' ≫= f') w.
Proof.
  intros Hm Hf. unfold mbind, Js_bind. rewrite Hm.
  destruct (m' w) as [[a|e] w']; [apply Hf|done].
Qed.

Lemma try_catch_ext {A} (m m' : Js A) (h h' : Exn → Js A) w :
  (∀ w, m w = m' w) → (∀ e w, h e w = h' e w) →
  try_catch m h w = try_catch m' h' w.
Proof.
  intros Hm Hh. unfold try_catch. rewrite Hm.
  destruct (m' w) as [[a|e] w']; [done|apply Hh].
Qed.

Lemma uninterrupted_sync {A} (m : Js A) w : uninterrupted (sync m) w = m w.
Proof. cbn. by destruct (m w). Qed.

Lemma uninterrupted_await {A} (m : Js A) w : uninterrupted (await m) w = m w.
Proof. cbn. by destruct (m w). Qed.

Lemma uninterrupted_bind {A B} (t : Async A) (f : A → Async B) w :
  uninterrupted (t ≫= f) w =
  (uninterrupted t ≫= λ a, uninterrupted (f a)) w.
Proof.
  revert w. induction t as [[a|e]|C m k IH|k IH]; intros w.
  - reflexivity.
  - reflexivity.
  - change (Sync m k ≫= f) with (Sync m (λ c, k c ≫= f)).
    unfold mbind at 2. unfold Js_bind. cbn [uninterrupted].
    destruct (m w) as [c w']. apply IH.
  - apply IH.
Qed.

Lemma uninterrupted_try_catch {A} (t : Async A) (h : Exn → Async A) w :
  uninterrupted (try_catch_async t h) w =
  try_catch (uninterrupted t) (λ e, uninterrupted (h e)) w.
Proof.
  revert w. induction t as [[a|e]|C m k IH|k IH]; intros w.
  - reflexivity.
  - cbn [try_catch_async uninterrupted]. unfold try_catch.
    by destruct (uninterrupted (h e) w).
  - cbn [try_catch_async uninterrupted]. unfold try_catch.
    cbn [uninterrupted]. destruct (m w) as [c w']. apply IH.
  - apply IH.
Qed.

Lemma uninterrupted_for_of {A} (l : list A) (body : A → Async unit)
    (body' : A → Js unit) w :
  (∀ x w, uninterrupted (body x) w = body' x w) →
  uninterrupted (for_of_async l body) w = for_of l body' w.
Proof.
  intros Hbody. revert w. induction l as [|x l IH]; intros w; [done|].
  cbn [for_of_async for_of]. rewrite uninterrupted_bind.
  apply bind_ext; [apply Hbody|]. intros _ w'. apply IH.
Qed.

(** Rewrite a handler that waits, run without interruption, into the
    computation it is made of. *)
Ltac uninterrupted_walk :=
  repeat first
    [ rewrite uninterrupted_try_catch; apply try_catch_ext; intros
    | rewrite uninterrupted_bind; apply bind_ext; intros
    | rewrite uninterrupted_sync
    | rewrite uninterrupted_await
    | apply uninterrupted_for_of; intros
    | reflexivity
    | match goal with |- context [match ?x with _ => _ end] => destruct x end ].

(** When every promise settles before the next signal comes, the handlers
    that wait are the handlers of the event loop. *)
Lemma uninterrupted_handlers env sid w :
  (∀ d, uninterrupted (Interleaved.handleOffer env sid d) w
        = handleOffer env sid d w) ∧
  (∀ d, uninterrupted (Interleaved.handleAnswer env d) w
        = handleAnswer env d w) ∧
  (∀ d, uninterrupted (Interleaved.handleIceCandidate env d) w
        = handleIceCandidate env d w).
Proof.
  repeat split; intros d;
    unfold Interleaved.handleOffer, Interleaved.handleAnswer,
      Interleaved.handleIceCandidate, handleOffer, handleAnswer,
      handleIceCandidate; uninterrupted_walk.
Qed.

(** ** Signals that come while a handler waits *)

(** C1.  The specification has the buffered candidates handed to the
    connection in arrival order, none twice, and the buffer left empty.  The
    handlers raise [hasRemoteDescriptionRef] before the flush, wait after
    every [addIceCandidate] of the flush, and empty the queue after the loop,
    inside the [try].  Three courses of Ann's page, the promises settling in
    the order of the calls.  (a) After [startSession] candidates 1 and 2 are
    queued and Bob sends two offers; the second comes while the flush of the
    first waits for candidate 1, and its handler flushes the same queue: the
    connection gets 1, 2, 1, 2.  (b) The engine refuses candidate 2: the
    flush of the offer stops there and no answer is made; the queue is still
    [1; 2] though the flag is true and 1 was handed over, and a second offer
    hands 1 over again.  (c) Ann has made her offer, candidates 1 and 2 are
    queued and Bob's answer comes; candidate 3 arrives while the flush waits
    for candidate 1 and is handed over at once: the connection gets 1, 3, 2,
    the queued candidates in their order but not all in the order of
    arrival. *)
Theorem candidate_flush_overtaken_and_repeated :
  let settles := Interleaved.PromiseSettles 0 in
  let twice :=
    Interleaved.play ideal_browser "session-1"
      [candidate_arrives 1; candidate_arrives 2; offer_arrives 7; settles;
       offer_arrives 8; settles; settles; settles; settles; settles; settles;
       settles; settles; settles] (idle started) in
  let refused :=
    Interleaved.play picky_browser "session-1"
      [candidate_arrives 1; candidate_arrives 2; offer_arrives 7; settles;
       settles; settles] (idle started) in
  let again :=
    Interleaved.play picky_browser "session-1"
      [offer_arrives 8; settles; settles; settles] refused in
  let overtaken :=
    Interleaved.play ideal_browser "session-1"
      [candidate_arrives 1; candidate_arrives 2; answer_arrives 9; settles;
       candidate_arrives 3; settles; settles; settles] (idle offered) in
  (Interleaved.suspended twice = [] ∧
   ice_calls (trace (Interleaved.world twice)) = [1; 2; 1; 2] ∧
   (remoteCandidates <$> peerConnectionRef (Interleaved.world twice))
     = Some [1; 2; 1; 2] ∧
   iceCandidatesQueueRef (Interleaved.world twice) = []) ∧
  (Interleaved.suspended refused = [] ∧
   trace (Interleaved.world refused) =
     trace started ++ [SetRemoteDescription 7; AddIceCandidate 1;
                       AddIceCandidate 2;
                       OnError "Failed to handle incoming call"] ∧
   iceCandidatesQueueRef (Interleaved.world refused) = [1; 2] ∧
   hasRemoteDescriptionRef (Interleaved.world refused) = true ∧
   (remoteCandidates <$> peerConnectionRef (Interleaved.world refused))
     = Some [1] ∧
   Interleaved.suspended again = [] ∧
   ice_calls (trace (Interleaved.world again)) = [1; 2; 1; 2] ∧
   (remoteCandidates <$> peerConnectionRef (Interleaved.world again))
     = Some [1; 1] ∧
   iceCandidatesQueueRef (Interleaved.world again) = [1; 2]) ∧
  (Interleaved.suspended overtaken = [] ∧
   trace (Interleaved.world overtaken) =
     trace offered ++ [SetRemoteDescription 9; AddIceCandidate 1;
                       AddIceCandidate 3; AddIceCandidate 2] ∧
   (remoteCandidates <$> peerConnectionRef (Interleaved.world overtaken))
     = Some [1; 3; 2] ∧
   iceCandidatesQueueRef (Interleaved.world overtaken) = []).
Proof. vm_compute. repeat split; reflexivity. Qed.

(** ** The flush while other signals come in *)

Section Keeps.

Context (R : relation World) `{!PreOrder R}.

Lemma keeps_sync {A} (m : Js A) : frames R m → keeps R (sync m).
Proof. intros Hm. split; [done|]. by intros c. Qed.

Lemma keeps_await {A} (m : Js A) : frames R m → keeps R (await m).
Proof. intros Hm. split; [done|]. by intros c. Qed.

Lemma keeps_bind {A B} (t : Async A) (f : A → Async B) :
  keeps R t → (∀ a, keeps R (f a)) → keeps R (t ≫= f).
Proof.
  intros Ht Hf. induction t as [[a|e]|C m k IH|k IH].
  - apply Hf.
  - done.
  - destruct Ht as [Hm Hk]. split; [done|]. intros c. apply IH, Hk.
  - apply IH, Ht.
Qed.

Lemma keeps_try_catch {A} (t : Async A) (h : Exn → Async A) :
  keeps R t → (∀ e, keeps R (h e)) → keeps R (try_catch_async t h).
Proof.
  intros Ht Hh. induction t as [[a|e]|C m k IH|k IH].
  - done.
  - apply Hh.
  - destruct Ht as [Hm Hk]. split; [done|]. intros c. apply IH, Hk.
  - apply IH, Ht.
Qed.

(** Resumed, such a handler stays within [R] and is such a handler again. *)
Lemma advance_keeps {A} (t : Async A) w :
  keeps R t → R w (advance t w).2 ∧ keeps R (advance t w).1.
Proof.
  revert w. induction t as [c|C m k IH|k IH]; intros w Ht.
  - done.
  - destruct Ht as [Hm Hk]. cbn [advance].
    specialize (Hm w). unfold frames_at in Hm.
    destruct (m w) as [c w']. destruct (IH c w' (Hk c)) as [HR Hkeeps].
    split; [by etrans|done].
  - done.
Qed.

Lemma keeps_ret {A} (a : A) : keeps R (mret a).
Proof. done. Qed.

Lemma keeps_for_of {A} (l : list A) (body : A → Async unit) :
  (∀ x, keeps R (body x)) → keeps R (for_of_async l body).
Proof.
  intros Hbody. induction l as [|x l IH]; [done|].
  cbn [for_of_async]. apply keeps_bind; [apply Hbody|]. by intros _.
Qed.

(** A turn of such a handler stays within [R], and what is left of the
    handler is such a handler. *)
Lemma proceed_keeps k pg :
  frames R rerender →
  keeps R k →
  R (Interleaved.world pg) (Interleaved.world (Interleaved.proceed k pg)) ∧
  ∃ more,
    Interleaved.suspended (Interleaved.proceed k pg)
      = Interleaved.suspended pg ++ more ∧
    Forall (keeps R) more.
Proof.
  intros Hr Hk.
  destruct (advance_keeps k (Interleaved.world pg) Hk) as [HR Hk'].
  unfold Interleaved.proceed.
  destruct (advance k (Interleaved.world pg)) as [k' w'].
  cbn [fst snd] in HR, Hk'.
  assert (R (Interleaved.world pg) (exec rerender w')) as HR'.
  { etrans; [exact HR|]. apply Hr. }
  destruct k' as [c|C m k'|k']; cbn [Interleaved.world Interleaved.suspended];
    (split; [exact HR'|]).
  - exists []. by rewrite app_nil_r.
  - exists []. by rewrite app_nil_r.
  - exists [k']. split; [done|]. by constructor.
Qed.

(** What the three handlers keep at every turn, every course of the
    exchange keeps. *)
Lemma play_keeps env sid :
  (∀ d, keeps R (Interleaved.handleOffer env sid d)) →
  (∀ d, keeps R (Interleaved.handleAnswer env d)) →
  (∀ d, keeps R (Interleaved.handleIceCandidate env d)) →
  frames R rerender →
  ∀ ts pg,
    Forall (keeps R) (Interleaved.suspended pg) →
    R (Interleaved.world pg)
      (Interleaved.world (Interleaved.play env sid ts pg)) ∧
    Forall (keeps R) (Interleaved.suspended (Interleaved.play env sid ts pg)).
Proof.
  intros Ho Ha Hc Hr ts. induction ts as [|t ts IH]; intros pg Hpg; [done|].
  change (Interleaved.play env sid (t :: ts) pg)
    with (Interleaved.play env sid ts (Interleaved.turn env sid pg t)).
  assert (R (Interleaved.world pg)
            (Interleaved.world (Interleaved.turn env sid pg t)) ∧
          Forall (keeps R)
            (Interleaved.suspended (Interleaved.turn env sid pg t)))
    as [HR Hpg'].
  { assert (∀ k pool, keeps R k → Forall (keeps R) pool →
              let pg' := Interleaved.proceed k
                {| Interleaved.world := Interleaved.world pg;
                   Interleaved.suspended := pool |} in
              R (Interleaved.world pg) (Interleaved.world pg') ∧
              Forall (keeps R) (Interleaved.suspended pg')) as Hstep.
    { intros k pool Hk Hpool pg'.
      destruct (proceed_keeps k
                  {| Interleaved.world := Interleaved.world pg;
                     Interleaved.suspended := pool |} Hr Hk)
        as [HR (more & Hmore & Hkeeps)].
      split; [exact HR|]. subst pg'. rewrite Hmore. by apply Forall_app. }
    destruct pg as [w pool]. cbn [Interleaved.world Interleaved.suspended] in *.
    destruct t as [d|d|d|i]; cbn [Interleaved.turn];
      [by apply Hstep..|].
    cbn [Interleaved.suspended Interleaved.world].
    destruct (pool !! i) as [k|] eqn:Hi; [|done].
    apply Hstep; [by eapply Forall_lookup_1|by apply Forall_delete]. }
  destruct (IH _ Hpg') as [HR' Hpg''].
  split; [by etrans|done].
Qed.

End Keeps.

#[global] Instance beside_candidates_preorder : PreOrder beside_candidates.
Proof.
  split.
  - intros w. repeat split. exists []. by rewrite app_nil_r.
  - intros w1 w2 w3 (Hf1 & Hq1 & Hc1 & Hd1 & l1 & Ht1 & Hl1)
      (Hf2 & Hq2 & Hc2 & Hd2 & l2 & Ht2 & Hl2).
    repeat split; try congruence.
    exists (l1 ++ l2). rewrite Ht2, Ht1, <-app_assoc. split; [done|].
    by rewrite ice_calls_app, Hl1, Hl2.
Qed.

Lemma beside_candidates_log e w :
  ice_calls [e] = [] →
  beside_candidates w (set_trace (trace w ++ [e]) w).
Proof. intros He. js_world w. repeat split. by exists [e]. Qed.

Lemma frames_beside_log e :
  ice_calls [e] = [] → frames beside_candidates (log e).
Proof. intros He w. by apply beside_candidates_log. Qed.

Lemma frames_beside_setState f : frames beside_candidates (setState f).
Proof.
  intros w. unfold frames_at. js_world w. repeat split.
  exists []. by rewrite app_nil_r.
Qed.

Lemma frames_beside_rerender : frames beside_candidates rerender.
Proof.
  intros w. unfold frames_at. js_world w. repeat split.
  exists []. by rewrite app_nil_r.
Qed.

Lemma frames_beside_emit e : frames beside_candidates (emit e).
Proof.
  intros w. unfold frames_at, emit. rewrite run_gets.
  destruct (socketRef w); [by apply beside_candidates_log|reflexivity].
Qed.

(** The world is given by its fields: compare the two worlds. *)
Ltac beside_fields :=
  unfold beside_candidates; js_eval; cbn [fmap option_fmap option_map];
  repeat split;
  first [ by exists [] ; rewrite app_nil_r
        | by eexists [_] ].

Lemma frames_beside_createAnswer env :
  frames beside_candidates (pc_createAnswer env).
Proof.
  intros w. unfold frames_at, pc_createAnswer.
  destruct (peerConnectionRef w) as [pc|] eqn:Hpc; js_world w; js_eval;
    [|reflexivity].
  destruct (createAnswer_result env pc); beside_fields.
Qed.

Lemma frames_beside_setLocalDescription env d :
  frames beside_candidates (pc_setLocalDescription env d).
Proof.
  intros w. unfold frames_at, pc_setLocalDescription.
  destruct (peerConnectionRef w) as [pc|] eqn:Hpc; js_world w; js_eval;
    [|reflexivity].
  destruct (setLocalDescription_ok env _ d); destruct pc; beside_fields.
Qed.







(** Read a field of a world that is written with setters. *)
Ltac read_world :=
  cbn [exec rerender modify snd fst
       state chatMessages peerConnectionRef localStreamRef cameraStreamRef
       screenStreamRef isInitiatorRef iceCandidatesQueueRef
       hasRemoteDescriptionRef mediaEnabledRef socketRef isConnected
       connectionError tracks timers trace
       set_state set_chatMessages set_peerConnectionRef set_localStreamRef
       set_cameraStreamRef set_screenStreamRef set_isInitiatorRef
       set_iceCandidatesQueueRef set_hasRemoteDescriptionRef
       set_mediaEnabledRef set_socketRef set_isConnected set_connectionError
       set_tracks set_timers set_trace
       senders remoteDescription localDescription remoteCandidates
       set_senders set_remoteDescription set_localDescription
       set_remoteCandidates
       Interleaved.world Interleaved.suspended].

Ltac read_page := cbn [Interleaved.world Interleaved.suspended].

(** Run a handler that waits up to its next stop. *)
Ltac async_eval :=
  cbn [advance try_catch_async for_of_async Async_then sync await
       mbind mret Async_bind Async_ret gets modify negb].

Section FlushSteps.

Variable env : Browser.
Variable sid : string.
Hypothesis remote_ok : accepts_remote_descriptions env.
Hypothesis candidates_ok : accepts_candidates_after_description env.
Variable w0 : World.
Variable p : RTCPeerConnection.







(** *** What one turn does *)

Lemma proceed_candidate_queued pg p1 data :
  peerConnectionRef (Interleaved.world pg) = Some p1 →
  hasRemoteDescriptionRef (Interleaved.world pg) = false →
  Interleaved.proceed (Interleaved.handleIceCandidate env data) pg =
    {| Interleaved.world :=
         exec rerender
           (set_iceCandidatesQueueRef
              (iceCandidatesQueueRef (Interleaved.world pg) ++ [candidate data])
              (Interleaved.world pg));
       Interleaved.suspended := Interleaved.suspended pg |}.
Proof.
  intros Hpc Hflag. unfold Interleaved.proceed, Interleaved.handleIceCandidate.
  async_eval. rewrite Hpc. async_eval. rewrite Hflag. by async_eval.
Qed.






(** A handler that is beside the candidates is resumed. *)
Lemma proceed_beside k pg :
  keeps beside_candidates k →
  beside_candidates (Interleaved.world pg)
    (Interleaved.world (Interleaved.proceed k pg)) ∧
  ∃ more,
    Interleaved.suspended (Interleaved.proceed k pg)
      = Interleaved.suspended pg ++ more ∧
    Forall (keeps beside_candidates) more.
Proof.
  apply (proceed_keeps beside_candidates), frames_beside_rerender.
Qed.








End FlushSteps.



(** ** What holds however the signals come *)

Lemma keeps_mono (R R' : relation World) {A} (t : Async A) :
  (∀ w w', R w w' → R' w w') → keeps R t → keeps R' t.
Proof.
  intros HR. induction t as [c|C m k IH|k IH]; [done| |done].
  intros [Hm Hk]. split; [|by intros c; apply IH].
  intros w. apply HR, Hm.
Qed.

(** Go through a handler that waits, down to the computations it is made
    of. *)
Ltac keeps_walk leaf :=
  repeat first
    [ leaf
    | lazymatch goal with
      | |- keeps _ (try_catch_async _ _) => apply keeps_try_catch; [|intros ?]
      | |- keeps _ (mbind _ _) => apply keeps_bind; [|intros ?]
      | |- keeps _ (for_of_async _ _) => apply keeps_for_of; intros ?
      | |- keeps _ (sync _) => apply keeps_sync
      | |- keeps _ (await _) => apply keeps_await
      | |- keeps _ (mret _) => apply keeps_ret
      | |- keeps _ (if ?b then _ else _) => destruct b
      | |- keeps _ (match ?x with _ => _ end) => destruct x
      end ].

#[global] Instance flag_stays_raised_preorder : PreOrder flag_stays_raised.
Proof.
  split; [intros w Hw; exact Hw|].
  intros w1 w2 w3 H1 H2 H. by apply H2, H1.
Qed.

(** A computation of the three handlers, on a world given by its fields. *)
Ltac negotiation_eval :=
  cbv beta delta [pc_setRemoteDescription pc_addIceCandidate pc_createAnswer
                  pc_setLocalDescription sendAnswer onError];
  js_eval;
  repeat (match goal with
          | |- context [setRemoteDescription_ok ?e ?p ?d] =>
              destruct (setRemoteDescription_ok e p d)
          | |- context [addIceCandidate_ok ?e ?p ?c] =>
              destruct (addIceCandidate_ok e p c)
          | |- context [createAnswer_result ?e ?p] =>
              destruct (createAnswer_result e p)
          | |- context [setLocalDescription_ok ?e ?p ?d] =>
              destruct (setLocalDescription_ok e p d)
          end; js_eval).

Ltac flag_stays_leaf :=
  idtac;
  match goal with
  | |- frames flag_stays_raised _ =>
      let w := fresh "w" in
      intros w; unfold frames_at, flag_stays_raised;
      destruct (peerConnectionRef w) eqn:?; destruct (socketRef w) eqn:?;
      js_world w; negotiation_eval; done
  end.

(** However the signals come, a raised flag stays raised: the array the
    flush runs over is not pushed to. *)
Lemma raised_flag_stays env sid ts w :
  hasRemoteDescriptionRef w = true →
  hasRemoteDescriptionRef
    (Interleaved.world (Interleaved.play env sid ts (idle w))) = true.
Proof.
  intros Hw.
  destruct (play_keeps flag_stays_raised env sid) with (ts := ts) (pg := idle w)
    as [HR _]; try done.
  - intros d. unfold Interleaved.handleOffer. keeps_walk flag_stays_leaf.
  - intros d. unfold Interleaved.handleAnswer. keeps_walk flag_stays_leaf.
  - intros d. unfold Interleaved.handleIceCandidate.
    keeps_walk flag_stays_leaf.
  - flag_stays_leaf.
  - by apply HR.
Qed.

#[global] Instance candidates_taken_preorder : PreOrder candidates_taken.
Proof.
  split.
  - intros w p Hpc Hrd. exists p, []. by rewrite !app_nil_r.
  - intros w1 w2 w3 H1 H2 p Hpc Hrd.
    destruct (H1 p Hpc Hrd) as (p2 & l2 & Hpc2 & Hrd2 & Ht2 & Hc2).
    destruct (H2 p2 Hpc2 Hrd2) as (p3 & l3 & Hpc3 & Hrd3 & Ht3 & Hc3).
    exists p3, (l2 ++ l3).
    rewrite Ht3, Ht2, Hc3, Hc2, ice_calls_app, <-!app_assoc. done.
Qed.

Lemma beside_candidates_taken w w' :
  beside_candidates w w' → candidates_taken w w'.
Proof.
  intros (_ & _ & Hc & Hd & l & Htr & Hl) p Hpc Hrd.
  rewrite Hpc in Hc, Hd.
  destruct (peerConnectionRef w') as [p'|]; simplify_eq/=.
  exists p', l. rewrite Hl, app_nil_r. repeat split; congruence.
Qed.

Section Taken.

Variable env : Browser.
Hypothesis candidates_ok : accepts_candidates_after_description env.

Lemma frames_taken_keep {A} (m : Js A) :
  (∀ w, peerConnectionRef (m w).2 = peerConnectionRef w ∧
        trace (m w).2 = trace w) →
  frames candidates_taken m.
Proof.
  intros Hm w p Hpc Hrd. destruct (Hm w) as [Hpc' Htr].
  exists p, []. rewrite !app_nil_r. repeat split; congruence.
Qed.

Lemma frames_taken_addIceCandidate c :
  frames candidates_taken (pc_addIceCandidate env c).
Proof using candidates_ok.
  intros w p Hpc Hrd. unfold frames_at.
  rewrite (addIceCandidate_accepted env candidates_ok c w p Hpc Hrd).
  cbn [snd]. js_world w. destruct p. eexists _, [AddIceCandidate c].
  split; [reflexivity|]. split; [done|]. split; reflexivity.
Qed.

Lemma frames_taken_setRemoteDescription d :
  frames candidates_taken (pc_setRemoteDescription env d).
Proof.
  intros w p Hpc Hrd. unfold frames_at, pc_setRemoteDescription.
  js_world w. js_eval. destruct (setRemoteDescription_ok env p d); js_eval.
  - destruct p. eexists _, [SetRemoteDescription d].
    split; [reflexivity|]. split; [by eexists|]. split; [reflexivity|].
    symmetry. apply app_nil_r.
  - exists p, [SetRemoteDescription d].
    split; [reflexivity|]. split; [done|]. split; [reflexivity|].
    symmetry. apply app_nil_r.
Qed.

Lemma frames_taken_beside {A} (m : Js A) :
  frames beside_candidates m → frames candidates_taken m.
Proof. intros Hm w. apply beside_candidates_taken, Hm. Qed.

Ltac taken_leaf :=
  idtac;
  lazymatch goal with
  | |- frames candidates_taken (pc_addIceCandidate _ _) =>
      apply frames_taken_addIceCandidate
  | |- frames candidates_taken (pc_setRemoteDescription _ _) =>
      apply frames_taken_setRemoteDescription
  | |- frames candidates_taken (pc_createAnswer _) =>
      apply frames_taken_beside, frames_beside_createAnswer
  | |- frames candidates_taken (pc_setLocalDescription _ _) =>
      apply frames_taken_beside, frames_beside_setLocalDescription
  | |- frames candidates_taken (sendAnswer _ _) =>
      apply frames_taken_beside, frames_beside_emit
  | |- frames candidates_taken (setState _) =>
      apply frames_taken_beside, frames_beside_setState
  | |- frames candidates_taken (onError _) =>
      apply frames_taken_beside, frames_beside_log; reflexivity
  | |- frames candidates_taken (gets _) =>
      apply frames_taken_keep; intros ?; split; reflexivity
  | |- frames candidates_taken (modify _) =>
      let w := fresh "w" in
      apply frames_taken_keep; intros w; destruct w; split; reflexivity
  end.

Lemma keeps_taken_handlers sid :
  (∀ d, keeps candidates_taken (Interleaved.handleOffer env sid d)) ∧
  (∀ d, keeps candidates_taken (Interleaved.handleAnswer env d)) ∧
  (∀ d, keeps candidates_taken (Interleaved.handleIceCandidate env d)).
Proof using candidates_ok.
  split; [|split]; intros d;
    [unfold Interleaved.handleOffer|unfold Interleaved.handleAnswer
    |unfold Interleaved.handleIceCandidate]; keeps_walk taken_leaf.
Qed.

Lemma setRemoteDescription_answer d w p1 :
  peerConnectionRef w = Some p1 →
  pc_setRemoteDescription env d w =
    if setRemoteDescription_ok env p1 d
    then (Normal (),
          set_peerConnectionRef (Some (set_remoteDescription (Some d) p1))
            (set_trace (trace w ++ [SetRemoteDescription d]) w))
    else (Throw OtherError, set_trace (trace w ++ [SetRemoteDescription d]) w).
Proof.
  intros Hpc. js_world w. unfold pc_setRemoteDescription. js_eval.
  by destruct (setRemoteDescription_ok env p1 d).
Qed.

(** The first turn of [handleOffer] and [handleAnswer], whatever the engine
    answers. *)
Lemma proceed_description_answer pg p1 d fin h :
  peerConnectionRef (Interleaved.world pg) = Some p1 →
  Interleaved.proceed
    (try_catch_async
       (pc ← sync (gets peerConnectionRef);
        match pc with
        | None => mret ()
        | Some _ =>
            await (pc_setRemoteDescription env d);;
            sync (modify (set_hasRemoteDescriptionRef true));;
            queue ← sync (gets iceCandidatesQueueRef);
            for_of_async queue (λ c, await (pc_addIceCandidate env c));;
            sync (modify (set_iceCandidatesQueueRef []));;
            fin
        end) h) pg =
    if setRemoteDescription_ok env p1 d
    then {| Interleaved.world :=
              exec rerender
                (set_peerConnectionRef
                   (Some (set_remoteDescription (Some d) p1))
                   (set_trace
                      (trace (Interleaved.world pg) ++ [SetRemoteDescription d])
                      (Interleaved.world pg)));
            Interleaved.suspended :=
              Interleaved.suspended pg ++ [described_rest env fin h] |}
    else {| Interleaved.world :=
              exec rerender
                (set_trace
                   (trace (Interleaved.world pg) ++ [SetRemoteDescription d])
                   (Interleaved.world pg));
            Interleaved.suspended :=
              Interleaved.suspended pg ++ [h OtherError] |}.
Proof.
  intros Hpc. unfold Interleaved.proceed.
  async_eval. rewrite Hpc. async_eval.
  rewrite (setRemoteDescription_answer d _ p1 Hpc).
  by destruct (setRemoteDescription_ok env p1 d).
Qed.

Lemma keeps_taken_described_rest fin h :
  keeps candidates_taken fin → (∀ e, keeps candidates_taken (h e)) →
  keeps candidates_taken (described_rest env fin h).
Proof using candidates_ok.
  intros Hfin Hh. unfold described_rest. keeps_walk taken_leaf; done.
Qed.

Variable sid : string.
Variable w0 : World.
Variable p : RTCPeerConnection.

Lemma safe_description pg d fin h :
  keeps beside_candidates (h OtherError) →
  keeps candidates_taken fin → (∀ e, keeps candidates_taken (h e)) →
  Safe w0 p pg →
  Safe w0 p
    (Interleaved.proceed
       (try_catch_async
          (pc ← sync (gets peerConnectionRef);
           match pc with
           | None => mret ()
           | Some _ =>
               await (pc_setRemoteDescription env d);;
               sync (modify (set_hasRemoteDescriptionRef true));;
               queue ← sync (gets iceCandidatesQueueRef);
               for_of_async queue (λ c, await (pc_addIceCandidate env c));;
               sync (modify (set_iceCandidatesQueueRef []));;
               fin
           end) h) pg).
Proof using candidates_ok.
  intros Hh Hfin Hh' [p' l Hf Hpool Hpc Htr Hl Hrc|p' l Hpool Hpc Hrd Htr Hrc].
  - rewrite (proceed_description_answer _ p' _ _ _ Hpc).
    destruct (setRemoteDescription_ok env p' d).
    + apply (Late _ _ _ (set_remoteDescription (Some d) p')
               (l ++ [SetRemoteDescription d])).
      * read_world. apply Forall_app. split.
        -- eapply list.Forall_impl; [exact Hpool|]. intros k.
           apply keeps_mono, beside_candidates_taken.
        -- constructor; [|done]. by apply keeps_taken_described_rest.
      * reflexivity.
      * destruct p'. by eexists.
      * read_world. by rewrite Htr, app_assoc.
      * destruct p'. read_world. cbn in Hrc.
        by rewrite ice_calls_app, Hl, Hrc, !app_nil_r.
    + apply (Early _ _ _ p' (l ++ [SetRemoteDescription d])).
      * done.
      * read_world. apply Forall_app. split; [done|]. by constructor.
      * done.
      * read_world. by rewrite Htr, app_assoc.
      * by rewrite ice_calls_app, Hl.
      * done.
  - rewrite (proceed_description_answer _ p' _ _ _ Hpc).
    destruct (setRemoteDescription_ok env p' d).
    + apply (Late _ _ _ (set_remoteDescription (Some d) p')
               (l ++ [SetRemoteDescription d])).
      * read_world. apply Forall_app. split; [done|].
        constructor; [|done]. by apply keeps_taken_described_rest.
      * reflexivity.
      * destruct p'. by eexists.
      * read_world. by rewrite Htr, app_assoc.
      * destruct p'. read_world. cbn in Hrc.
        by rewrite ice_calls_app, Hrc, !app_nil_r.
    + apply (Late _ _ _ p' (l ++ [SetRemoteDescription d])).
      * read_world. apply Forall_app. split; [done|]. by constructor.
      * done.
      * done.
      * read_world. by rewrite Htr, app_assoc.
      * by rewrite ice_calls_app, Hrc, !app_nil_r.
Qed.

Lemma safe_turn pg t :
  Safe w0 p pg → Safe w0 p (Interleaved.turn env sid pg t).
Proof using candidates_ok.
  intros HS.
  destruct t as [d|d|d|i]; cbn [Interleaved.turn].
  - unfold Interleaved.handleOffer. apply safe_description; [| | |done].
    + by apply keeps_sync, frames_beside_log.
    + keeps_walk taken_leaf.
    + intros _. keeps_walk taken_leaf.
  - unfold Interleaved.handleAnswer. apply safe_description; [| | |done].
    + by apply keeps_sync, frames_beside_log.
    + keeps_walk taken_leaf.
    + intros _. keeps_walk taken_leaf.
  - destruct HS as [p' l Hf Hpool Hpc Htr Hl Hrc|p' l Hpool Hpc Hrd Htr Hrc].
    + rewrite (proceed_candidate_queued env pg p' d Hpc Hf).
      by apply (Early _ _ _ p' l).
    + destruct (keeps_taken_handlers sid) as (_ & _ & Hc).
      destruct (proceed_keeps candidates_taken
                  (Interleaved.handleIceCandidate env d) pg)
        as [HT (more & Hmore & Hkeeps)];
        [apply frames_taken_beside, frames_beside_rerender|apply Hc|].
      destruct (HT p' Hpc Hrd) as (p2 & l2 & Hpc2 & Hrd2 & Htr2 & Hrc2).
      apply (Late _ _ _ p2 (l ++ l2)); [|done..| |].
      * rewrite Hmore. by apply Forall_app.
      * by rewrite Htr2, Htr, app_assoc.
      * by rewrite Hrc2, Hrc, ice_calls_app, app_assoc.
  - destruct (Interleaved.suspended pg !! i) as [k|] eqn:Hi; [|done].
    destruct HS as [p' l Hf Hpool Hpc Htr Hl Hrc|p' l Hpool Hpc Hrd Htr Hrc].
    + match goal with |- Safe _ _ (Interleaved.proceed _ ?pg') =>
        destruct (proceed_beside k pg') as [HR (more & Hmore & Hkeeps)];
          [by eapply Forall_lookup_1|]
      end.
      destruct HR as (Hf' & _ & Hc' & _ & l2 & Htr2 & Hl2).
      cbn [Interleaved.world Interleaved.suspended] in Hf', Hc', Htr2.
      rewrite Hpc in Hc'.
      destruct (peerConnectionRef _) as [p2|] eqn:Hpc2 in Hc'; [|done].
      apply (Early _ _ _ p2 (l ++ l2)).
      * congruence.
      * rewrite Hmore. read_page. apply Forall_app. split; [|done].
        by apply Forall_delete.
      * done.
      * by rewrite Htr2, Htr, app_assoc.
      * by rewrite ice_calls_app, Hl, Hl2.
      * simplify_eq/=. congruence.
    + match goal with |- Safe _ _ (Interleaved.proceed _ ?pg') =>
        destruct (proceed_keeps candidates_taken k pg')
          as [HT (more & Hmore & Hkeeps)];
          [apply frames_taken_beside, frames_beside_rerender
          |by eapply Forall_lookup_1|]
      end.
      destruct (HT p' Hpc Hrd) as (p2 & l2 & Hpc2 & Hrd2 & Htr2 & Hrc2).
      apply (Late _ _ _ p2 (l ++ l2)); [|done..| |].
      * rewrite Hmore. read_page. apply Forall_app. split; [|done].
        by apply Forall_delete.
      * cbn [Interleaved.world] in Htr2. by rewrite Htr2, Htr, app_assoc.
      * by rewrite Hrc2, Hrc, ice_calls_app, app_assoc.
Qed.

Lemma safe_play ts : ∀ pg,
  Safe w0 p pg → Safe w0 p (Interleaved.play env sid ts pg).
Proof using candidates_ok.
  induction ts as [|t ts IH]; intros pg HS; [done|].
  apply IH. by apply safe_turn.
Qed.

End Taken.

(** X30. Whatever the course of the exchange (any number of offers and
    answers, an engine that refuses descriptions, signals coming while
    handlers wait, promises settling in any order), started with a peer
    connection and the flag false: an engine that takes candidates once the
    connection has a remote description takes every candidate the handlers
    hand it; and if a candidate was handed over, or the flag is true, the
    connection has a remote description. *)
Theorem candidates_only_after_description
    (env : Browser) (sid : string) (w0 : World) (p : RTCPeerConnection)
    (ts : list Interleaved.Turn) :
  accepts_candidates_after_description env →
  peerConnectionRef w0 = Some p →
  hasRemoteDescriptionRef w0 = false →
  let w := Interleaved.world (Interleaved.play env sid ts (idle w0)) in
  ∃ p' l,
    peerConnectionRef w = Some p' ∧
    trace w = trace w0 ++ l ∧
    remoteCandidates p' = remoteCandidates p ++ ice_calls l ∧
    (ice_calls l ≠ [] → is_Some (remoteDescription p')) ∧
    (hasRemoteDescriptionRef w = true → is_Some (remoteDescription p')).
Proof.
  intros Hcand Hpc Hflag w.
  destruct (safe_play env Hcand sid w0 p ts (idle w0))
    as [p' l Hf Hpool Hpc' Htr Hl Hrc|p' l Hpool Hpc' Hrd Htr Hrc].
  - apply (Early _ _ _ p []); try done. cbn. by rewrite app_nil_r.
  - exists p', l. fold w in Hf, Hpc', Htr.
    rewrite Hl, app_nil_r, Hf. done.
  - exists p', l. done.
Qed.

(** Two offers, the second while the flush of the first is under way. *)
Lemma candidates_only_after_description_witness :
  let ts := [candidate_arrives 1; candidate_arrives 2; offer_arrives 7;
             Interleaved.PromiseSettles 0; offer_arrives 8;
             Interleaved.PromiseSettles 0; Interleaved.PromiseSettles 0;
             Interleaved.PromiseSettles 0; Interleaved.PromiseSettles 0] in
  let p := {| senders := [ {| kind := AudioKind; track_no := 0 |};
                           {| kind := VideoKind; track_no := 1 |} ];
              remoteDescription := None; localDescription := None;
              remoteCandidates := [] |} in
  peerConnectionRef started = Some p ∧
  hasRemoteDescriptionRef started = false ∧
  let w := Interleaved.world
             (Interleaved.play ideal_browser "session-1" ts (idle started)) in
  ∃ p' l,
    peerConnectionRef w = Some p' ∧
    trace w = trace started ++ l ∧
    remoteCandidates p' = remoteCandidates p ++ ice_calls l ∧
    (ice_calls l ≠ [] → is_Some (remoteDescription p')) ∧
    (hasRemoteDescriptionRef w = true → is_Some (remoteDescription p')).
Proof.
  intros ts p.
  split; [by vm_compute|]. split; [by vm_compute|].
  apply (candidates_only_after_description ideal_browser "session-1" started
           p ts ideal_accepts_candidates).
  - by vm_compute.
  - by vm_compute.
Defined.

(** ** The route guard *)

Lemma startsWith_app (p rest : string) : startsWith (p +:+ rest) p = true.
Proof.
  unfold startsWith. induction p as [|c p IH]; simpl.
  - by destruct rest.
  - destruct (Ascii.ascii_dec c c); [exact IH|done].
Qed.

Lemma startsWith_inv (s p : string) :
  startsWith s p = true → ∃ rest, s = p +:+ rest.
Proof.
  unfold startsWith. revert s. induction p as [|c p IH]; intros s H.
  - by exists s.
  - destruct s as [|c' s]; [done|]. simpl in H.
    destruct (Ascii.ascii_dec c c') as [->|]; [|done].
    destruct (IH s H) as [rest ->]. by exists rest.
Qed.

(** X26. The route guard. A request without the cookie "jwt_token" for a path
    that starts with a protected route (as a prefix of the string, whatever
    follows) is redirected to "/login", the query parameter "redirect" holding
    the path. If the guard lets a request without the cookie pass, no
    protected route is a prefix of its path. A request with the cookie,
    whatever its value, is never redirected to the login page. *)
Theorem middleware_guards_protected_routes (pathname : string) :
  (∀ route rest, route ∈ protectedRoutes → pathname = route +:+ rest →
     middleware pathname None = Redirect "/login" [("redirect", pathname)]) ∧
  (middleware pathname None = Next →
     ∀ route, route ∈ protectedRoutes → startsWith pathname route = false) ∧
  (∀ value query,
     middleware pathname (Some value) ≠ Redirect "/login" query).
Proof.
  split; [|split].
  - intros route rest Hroute ->. unfold middleware.
    assert (existsb (λ r, startsWith (route +:+ rest) r) protectedRoutes = true)
      as ->; [|done].
    apply existsb_exists. exists route. split; [|apply startsWith_app].
    by apply list_elem_of_In.
  - unfold middleware. cbn [bool_decide decide_rel negb].
    rewrite bool_decide_eq_false_2 by (by intros [? ?]). cbn [negb].
    rewrite andb_true_r, andb_false_r.
    destruct (existsb _ protectedRoutes) eqn:Hex; [done|]. intros _ route Hroute.
    destruct (startsWith pathname route) eqn:Hs; [|done].
    assert (existsb (λ r, startsWith pathname r) protectedRoutes = true);
      [|congruence].
    apply existsb_exists. exists route. split; [|done].
    by apply list_elem_of_In.
  - intros value query. unfold middleware.
    rewrite bool_decide_eq_true_2 by (by eexists). cbn [negb].
    rewrite andb_false_r, andb_true_r. by destruct (existsb _ authRoutes).
Qed.

(** X27. The route guard sends no request in circles: the target of a
    redirect, requested with the same cookie, passes. *)
Theorem middleware_no_redirect_loop
    (pathname : string) (token : option string)
    (target : string) (query : list (string * string)) :
  middleware pathname token = Redirect target query →
  middleware target token = Next.
Proof.
  unfold middleware at 1. intros H.
  destruct token as [value|].
  - rewrite bool_decide_eq_true_2 in H by (by eexists). cbn [negb] in H.
    rewrite andb_false_r, andb_true_r in H.
    destruct (existsb _ authRoutes); [|done]. by simplify_eq.
  - rewrite bool_decide_eq_false_2 in H by (by intros [? ?]). cbn [negb] in H.
    rewrite andb_true_r, andb_false_r in H.
    destruct (existsb _ protectedRoutes); [|done]. by simplify_eq.
Qed.

Lemma middleware_no_redirect_loop_witness :
  middleware "/session/42" None
    = Redirect "/login" [("redirect", "/session/42")] ∧
  middleware "/login" None = Next ∧
  middleware "/login" (Some "") = Redirect "/dashboard" [] ∧
  middleware "/dashboard" (Some "") = Next.
Proof.
  split; [reflexivity|].
  split; [exact (middleware_no_redirect_loop "/session/42" None "/login"
                   [("redirect", "/session/42")] eq_refl)|].
  split; reflexivity.
Defined.
